(** * World Color Survey helpers: a shallow embedding of [wcsHelper.py] and
      [wcs_table_helper.py]

    Python values are modelled as follows.
    - [str] is [string]; a character is a code point below 256.
    - [int] is [Z].
    - [dict] is an insertion-ordered association list with pairwise distinct
      keys ([Dict.t]); [d[k] = v] keeps the position of an existing key and
      appends a new one, as CPython does.
    - An exception is a value of [pyerr] carried by the [result] type; the
      loops of the source stop at the first exception.
    - NumPy floats are an abstract type with the few operations the code
      uses; every statement holds for any interpretation of them.
    - A [datascience] table is the list of its labelled columns.

    The readers are modelled in their dictionary mode ([getFrame=False]),
    from the text of the file; the pandas branches and the drawing of the
    plot are left out.  The file has three parts: the programs, the notions
    used to state their properties, and the properties. *)

From Stdlib Require Import ZArith List String Ascii Bool Lia Permutation Sorted.
From Stdlib Require Import QArith.
Import ListNotations.

Local Open Scope string_scope.
Local Open Scope list_scope.
Local Open Scope Z_scope.

(** ** Exceptions *)

Inductive pyerr : Type :=
| ValueError
| KeyError
| IndexError
| TypeError.

Inductive result (A : Type) : Type :=
| Ok (a : A)
| Err (e : pyerr).

Arguments Ok {A} a.
Arguments Err {A} e.

Definition bind {A B : Type} (r : result A) (f : A -> result B) : result B :=
  match r with
  | Ok a => f a
  | Err e => Err e
  end.

Notation "x <- r ;; k" := (bind r (fun x => k))
  (at level 61, r at next level, right associativity).
Notation "' pat <- r ;; k" := (bind r (fun x => match x with pat => k end))
  (at level 61, pat pattern, r at next level, right associativity).

(** A [for] loop whose body may raise: the state is threaded from left to
    right and the first exception ends the loop. *)
Fixpoint for_each {St X : Type} (body : St -> X -> result St) (xs : list X)
  (s : St) : result St :=
  match xs with
  | [] => Ok s
  | x :: xs' => s' <- body s x ;; for_each body xs' s'
  end.

(** A list comprehension whose element expression may raise. *)
Fixpoint map_result {X Y : Type} (f : X -> result Y) (xs : list X)
  : result (list Y) :=
  match xs with
  | [] => Ok []
  | x :: xs' => y <- f x ;; ys <- map_result f xs' ;; Ok (y :: ys)
  end.

(** ** Strings *)

Module PyStr.

Definition tab : ascii := ascii_of_nat 9.
Definition newline : ascii := ascii_of_nat 10.

(** [str.isspace] on code points below 256. *)
Definition is_space (c : ascii) : bool :=
  let n := nat_of_ascii c in
  ((9 <=? n) && (n <=? 13) || (28 <=? n) && (n <=? 32)
   || (n =? 133) || (n =? 160))%nat.

Definition is_digit (c : ascii) : bool :=
  let n := nat_of_ascii c in ((48 <=? n) && (n <=? 57))%nat.

Definition digit_val (c : ascii) : Z := Z.of_nat (nat_of_ascii c) - 48.

(** [s.split(sep)] for a one-character separator: always at least one
    field. *)
Fixpoint split (sep : ascii) (s : string) : list string :=
  match s with
  | EmptyString => [EmptyString]
  | String c s' =>
      if Ascii.eqb c sep then EmptyString :: split sep s'
      else match split sep s' with
           | f :: fs => String c f :: fs
           | [] => [String c EmptyString]
           end
  end.

Fixpoint rstrip (s : string) : string :=
  match s with
  | EmptyString => EmptyString
  | String c s' =>
      match rstrip s' with
      | EmptyString => if is_space c then EmptyString else String c EmptyString
      | r => String c r
      end
  end.

(** The digit part of a numeric literal: decimal digits, with single
    underscores allowed between two digits.  [prev] tells whether the
    previous character was a digit. *)
Fixpoint digitpart (acc : Z) (prev : bool) (s : string) : option Z :=
  match s with
  | EmptyString => if prev then Some acc else None
  | String c s' =>
      if is_digit c then digitpart (10 * acc + digit_val c) true s'
      else if Ascii.eqb c "_" && prev then digitpart acc false s'
      else None
  end.

(** The blanks that [int] and [float] skip around a literal: [isspace]
    without the four separators 28 to 31. *)
Definition is_blank (c : ascii) : bool :=
  let n := nat_of_ascii c in
  ((9 <=? n) && (n <=? 13) || (n =? 32) || (n =? 133) || (n =? 160))%nat.

Fixpoint lskip (s : string) : string :=
  match s with
  | EmptyString => EmptyString
  | String c s' => if is_blank c then lskip s' else s
  end.

Fixpoint rskip (s : string) : string :=
  match s with
  | EmptyString => EmptyString
  | String c s' =>
      match rskip s' with
      | EmptyString => if is_blank c then EmptyString else String c EmptyString
      | r => String c r
      end
  end.

Definition skip_blanks (s : string) : string := lskip (rskip s).

(** [int(s)] for a [str] argument, base ten (the interpreter's optional cap
    on the number of digits is left out). *)
Definition py_int (s : string) : result Z :=
  let t := skip_blanks s in
  let body (neg : bool) (r : string) :=
    match digitpart 0 false r with
    | Some v => Ok (if neg then - v else v)
    | None => Err ValueError
    end in
  match t with
  | String "+" r => body false r
  | String "-" r => body true r
  | _ => body false t
  end.

(** [s[1:]] *)
Definition tail (s : string) : string :=
  match s with
  | EmptyString => EmptyString
  | String _ s' => s'
  end.

End PyStr.

(** ** Insertion-ordered dictionaries *)

Class Hashable (K : Type) : Type :=
  key_eq_dec : forall x y : K, {x = y} + {x <> y}.

#[export] Instance Hashable_Z : Hashable Z := Z.eq_dec.
#[export] Instance Hashable_string : Hashable string := string_dec.

Module Dict.
Section Defs.
Context {K V : Type} `{Hashable K}.

Definition t : Type := list (K * V).

Definition empty : t := [].

(** [d.get(k)] *)
Fixpoint get (k : K) (d : t) : option V :=
  match d with
  | [] => None
  | (k', v) :: d' => if key_eq_dec k k' then Some v else get k d'
  end.

(** [k in d.keys()] *)
Definition mem (k : K) (d : t) : bool :=
  match get k d with Some _ => true | None => false end.

(** [d.get(k, dflt)] *)
Definition get_default (k : K) (dflt : V) (d : t) : V :=
  match get k d with Some v => v | None => dflt end.

(** [d[k]] as an expression *)
Definition getitem (k : K) (d : t) : result V :=
  match get k d with Some v => Ok v | None => Err KeyError end.

(** [d[k] = v] *)
Fixpoint set (k : K) (v : V) (d : t) : t :=
  match d with
  | [] => [(k, v)]
  | (k', v') :: d' =>
      if key_eq_dec k k' then (k', v) :: d' else (k', v') :: set k v d'
  end.

Definition keys (d : t) : list K := map fst d.
Definition values (d : t) : list V := map snd d.
Definition items (d : t) : list (K * V) := d.

(** The representation invariant of a dictionary. *)
Definition wf (d : t) : Prop := NoDup (keys d).

End Defs.
Arguments t : clear implicits.
Arguments t K V : assert.
End Dict.

(** ** Sequences *)

Module PySeq.

(** [l[a:b]] for non-negative [a <= b] *)
Definition slice {A : Type} (a b : nat) (l : list A) : list A :=
  firstn (b - a) (skipn a l).

(** [l[-2:]] *)
Definition last2 {A : Type} (l : list A) : list A :=
  skipn (List.length l - 2) l.

(** [range(1, n + 1)] *)
Definition range1 (n : nat) : list Z := map Z.of_nat (seq 1 n).

(** [l.index(x)] *)
Fixpoint index {A : Type} `{Hashable A} (x : A) (l : list A) : result nat :=
  match l with
  | [] => Err ValueError
  | y :: l' =>
      if key_eq_dec x y then Ok O
      else i <- index x l' ;; Ok (S i)
  end.

(** Index normalisation of a NumPy axis of size [n]: negative indices count
    from the end. *)
Definition np_index (n : nat) (j : Z) : result nat :=
  if (0 <=? j) && (j <? Z.of_nat n) then Ok (Z.to_nat j)
  else if (- Z.of_nat n <=? j) && (j <? 0) then Ok (Z.to_nat (j + Z.of_nat n))
  else Err IndexError.

Fixpoint update {A : Type} (i : nat) (f : A -> A) (l : list A) : list A :=
  match l, i with
  | [], _ => []
  | x :: l', O => f x :: l'
  | x :: l', S i' => x :: update i' f l'
  end.

(** The distinct elements in order of first occurrence. *)
Fixpoint dedup {A : Type} `{Hashable A} (l : list A) : list A :=
  match l with
  | [] => []
  | x :: l' => x :: remove key_eq_dec x (dedup l')
  end.

(** [sorted(l, key=key, reverse=True)]: Python's sort is stable, also with
    [reverse=True], so among equal keys the original order is kept. *)
Fixpoint insert_desc {A : Type} (key : A -> Z) (x : A) (l : list A) : list A :=
  match l with
  | [] => [x]
  | y :: l' => if key x <? key y then y :: insert_desc key x l' else x :: y :: l'
  end.

Fixpoint sorted_desc {A : Type} (key : A -> Z) (l : list A) : list A :=
  match l with
  | [] => []
  | x :: l' => insert_desc key x (sorted_desc key l')
  end.

End PySeq.

(** ** [float(s)]

    Only the literal is modelled: a float read from text is kept as the
    decimal number it denotes, [(-1)^neg * mant * 10^exp10]; rounding to
    binary64 plays no part in what follows. *)

Inductive pyfloat : Type :=
| FNan
| FInf (neg : bool)
| FDec (neg : bool) (mant : Z) (exp10 : Z).

Module PyFloat.
Import PyStr.

Definition lower (c : ascii) : ascii :=
  let n := nat_of_ascii c in
  if ((65 <=? n) && (n <=? 90))%nat then ascii_of_nat (n + 32) else c.

Fixpoint lower_str (s : string) : string :=
  match s with
  | EmptyString => EmptyString
  | String c s' => String (lower c) (lower_str s')
  end.

(** Cut [s] at the first character satisfying [p]. *)
Fixpoint cut (p : ascii -> bool) (s : string) : string * option string :=
  match s with
  | EmptyString => (EmptyString, None)
  | String c s' =>
      if p c then (EmptyString, Some s')
      else let '(a, b) := cut p s' in (String c a, b)
  end.

Fixpoint count_digits (s : string) : Z :=
  match s with
  | EmptyString => 0
  | String c s' => (if is_digit c then 1 else 0) + count_digits s'
  end.

Definition signed (s : string) : bool * string :=
  match s with
  | String "+" r => (false, r)
  | String "-" r => (true, r)
  | _ => (false, s)
  end.

(** [number ::= [digitpart] "." digitpart | digitpart ["."]] *)
Definition number (s : string) : option (Z * Z) :=
  match cut (fun c => Ascii.eqb c ".") s with
  | (ip, None) =>
      match digitpart 0 false ip with
      | Some v => Some (v, 0)
      | None => None
      end
  | (EmptyString, Some fp) =>
      match digitpart 0 false fp with
      | Some v => Some (v, - count_digits fp)
      | None => None
      end
  | (ip, Some EmptyString) =>
      match digitpart 0 false ip with
      | Some v => Some (v, 0)
      | None => None
      end
  | (ip, Some fp) =>
      match digitpart 0 false ip with
      | Some v =>
          match digitpart v false fp with
          | Some w => Some (w, - count_digits fp)
          | None => None
          end
      | None => None
      end
  end.

(** [exponent ::= ("e" | "E") [sign] digitpart] *)
Definition exponent (s : string) : option Z :=
  let '(neg, r) := signed s in
  match digitpart 0 false r with
  | Some v => Some (if neg then - v else v)
  | None => None
  end.

Definition py_float (s : string) : result pyfloat :=
  let '(neg, body) := signed (skip_blanks s) in
  let low := lower_str body in
  if String.eqb low "inf" || String.eqb low "infinity" then Ok (FInf neg)
  else if String.eqb low "nan" then Ok FNan
  else
    match cut (fun c => Ascii.eqb c "e" || Ascii.eqb c "E") body with
    | (m, None) =>
        match number m with
        | Some (v, e) => Ok (FDec neg v e)
        | None => Err ValueError
        end
    | (m, Some x) =>
        match number m, exponent x with
        | Some (v, e), Some e' => Ok (FDec neg v (e + e'))
        | _, _ => Err ValueError
        end
    end.

End PyFloat.

(** ** Dynamically typed values, for the records the table helper takes apart *)

#[warnings="-register-all"]
Inductive pyval : Type :=
| PInt (z : Z)
| PStr (s : string)
| PTuple (l : list pyval)
| PList (l : list pyval).

Module PyVal.

(** [v[0]] *)
Definition subscript0 (v : pyval) : result pyval :=
  match v with
  | PInt _ => Err TypeError
  | PStr EmptyString => Err IndexError
  | PStr (String c _) => Ok (PStr (String c EmptyString))
  | PTuple [] | PList [] => Err IndexError
  | PTuple (x :: _) | PList (x :: _) => Ok x
  end.

(** [a, g = v] *)
Definition unpack2 (v : pyval) : result (pyval * pyval) :=
  match v with
  | PInt _ => Err TypeError
  | PStr (String c (String d EmptyString)) =>
      Ok (PStr (String c EmptyString), PStr (String d EmptyString))
  | PStr _ => Err ValueError
  | PTuple [a; g] | PList [a; g] => Ok (a, g)
  | PTuple _ | PList _ => Err ValueError
  end.

End PyVal.

(** ** NumPy arithmetic

    The two numeric steps of the code, [np.mean(column) / 255.] and the test
    [x == 50], together with the constants of [np.zeros] and [np.ones], form
    the interface through which the grid code uses floating point. *)

Class NumPy (F : Type) : Type := {
  f_zero : F;
  f_one : F;
  mean_div255 : list Z -> F;
  eq_50 : F -> bool
}.

(** Exact rational arithmetic is one interpretation. *)
#[export] Instance NumPy_Q : NumPy Q := {
  f_zero := 0%Q;
  f_one := 1%Q;
  mean_div255 col :=
    ((inject_Z (fold_right Z.add 0%Z col) / inject_Z (Z.of_nat (List.length col)))
       / 255)%Q;
  eq_50 x := Qeq_bool x 50%Q
}.

(** * wcsHelper.py *)

Module wcsHelper.
Import PyStr PySeq.

(** [_read_lines], applied to the text of the file. *)
Definition _read_lines (text : string) : list string :=
  split newline (rstrip text).

(** *** Color chip information *)

Definition munsell_dicts : Type := Dict.t string Z * Dict.t Z (string * Z).

Definition _get_munsell_dicts_row (st : munsell_dicts) (row : string)
  : result munsell_dicts :=
  let '(munsell_to_chip, chip_to_munsell) := st in
  let vals := split tab row in
  index <- py_int (hd EmptyString vals) ;;
  match last2 vals with
  | [L; H] =>
      let munsell_to_chip := Dict.set (L ++ H)%string index munsell_to_chip in
      H_int <- py_int H ;;
      Ok (munsell_to_chip, Dict.set index (L, H_int) chip_to_munsell)
  | _ => Err ValueError
  end.

Definition _get_munsell_dicts (lines : list string) : result munsell_dicts :=
  for_each _get_munsell_dicts_row lines (Dict.empty, Dict.empty).

Definition _get_clab_dict_row (chip_to_clab : Dict.t Z (list pyfloat))
  (row : string) : result (Dict.t Z (list pyfloat)) :=
  let vals := split tab row in
  index <- py_int (hd EmptyString vals) ;;
  clab <- map_result PyFloat.py_float (slice 4 7 vals) ;;
  Ok (Dict.set index clab chip_to_clab).

Definition _get_clab_dict (lines : list string)
  : result (Dict.t Z (list pyfloat)) :=
  for_each _get_clab_dict_row lines Dict.empty.

Definition _get_rgb_dict_row (chip_to_rgb : Dict.t Z (list Z)) (row : string)
  : result (Dict.t Z (list Z)) :=
  let vals := split tab row in
  index <- py_int (hd EmptyString vals) ;;
  rgb <- map_result py_int (slice 1 4 vals) ;;
  Ok (Dict.set index rgb chip_to_rgb).

Definition _get_rgb_dict (lines : list string) : result (Dict.t Z (list Z)) :=
  for_each _get_rgb_dict_row lines Dict.empty.

Record chip_data : Type := {
  munsell_to_chip : Dict.t string Z;
  chip_to_munsell : Dict.t Z (string * Z);
  chip_to_clab : Dict.t Z (list pyfloat);
  chip_to_rgb : Dict.t Z (list Z)
}.

(** [readChipData(filename)] with [getFrame=False], from the lines of the
    file. *)
Definition readChipData_lines (lines : list string) : result chip_data :=
  md <- _get_munsell_dicts lines ;;
  clab <- _get_clab_dict lines ;;
  rgb <- _get_rgb_dict lines ;;
  Ok {| munsell_to_chip := fst md; chip_to_munsell := snd md;
        chip_to_clab := clab; chip_to_rgb := rgb |}.

Definition readChipData (text : string) : result chip_data :=
  readChipData_lines (_read_lines text).

(** *** Naming data

    [langDict] and [spkrDict] are the very objects stored in the outer
    dictionaries, so a write to them is a write at that place of the
    nested structure. *)

Definition naming : Type := Dict.t Z (Dict.t Z (Dict.t Z string)).

Definition readNamingData_line (namingData : naming) (l : string)
  : result naming :=
  match split tab l with
  | [lang; spkr; chipNum; term] =>
      lang_i <- py_int lang ;;
      let namingData :=
        if Dict.mem lang_i namingData then namingData
        else Dict.set lang_i Dict.empty namingData in
      langDict <- Dict.getitem lang_i namingData ;;
      spkr_i <- py_int spkr ;;
      let langDict :=
        if Dict.mem spkr_i langDict then langDict
        else Dict.set spkr_i Dict.empty langDict in
      spkrDict <- Dict.getitem spkr_i langDict ;;
      chip_i <- py_int chipNum ;;
      let spkrDict := Dict.set chip_i term spkrDict in
      Ok (Dict.set lang_i (Dict.set spkr_i spkrDict langDict) namingData)
  | _ => Err ValueError
  end.

Definition readNamingData_lines (lines : list string) : result naming :=
  for_each readNamingData_line lines Dict.empty.

Definition readNamingData (text : string) : result naming :=
  readNamingData_lines (_read_lines text).

(** *** Foci data *)

Definition foci_data : Type :=
  Dict.t Z (Dict.t Z (Dict.t string (list string))).

(** [s[0]] *)
Definition char0 (s : string) : result ascii :=
  match s with
  | EmptyString => Err IndexError
  | String c _ => Ok c
  end.

(** The three statements that turn the raw coordinate into the stored
    one. *)
Definition newFoci (foci : string) : result string :=
  c <- char0 foci ;;
  let foci := if Ascii.eqb c "A" then "A0" else foci in
  c <- char0 foci ;;
  let foci := if Ascii.eqb c "J" then "J0" else foci in
  c <- char0 foci ;;
  Ok (String c EmptyString ++ ":" ++ tail foci)%string.

Definition readFociData_line (fociData : foci_data) (l : string)
  : result foci_data :=
  match split tab l with
  | [lang; spkr; _; term; foci] =>
      lang_i <- py_int lang ;;
      let fociData :=
        if Dict.mem lang_i fociData then fociData
        else Dict.set lang_i Dict.empty fociData in
      langDict <- Dict.getitem lang_i fociData ;;
      spkr_i <- py_int spkr ;;
      let langDict :=
        if Dict.mem spkr_i langDict then langDict
        else Dict.set spkr_i Dict.empty langDict in
      spkrDict <- Dict.getitem spkr_i langDict ;;
      let spkrDict :=
        if Dict.mem term spkrDict then spkrDict
        else Dict.set term [] spkrDict in
      nf <- newFoci foci ;;
      fociList <- Dict.getitem term spkrDict ;;
      let spkrDict := Dict.set term (fociList ++ [nf]) spkrDict in
      Ok (Dict.set lang_i (Dict.set spkr_i spkrDict langDict) fociData)
  | _ => Err ValueError
  end.

Definition readFociData_lines (lines : list string) : result foci_data :=
  for_each readFociData_line lines Dict.empty.

Definition readFociData (text : string) : result foci_data :=
  readFociData_lines (_read_lines text).

(** *** Speaker data *)

Definition speaker_data : Type := Dict.t Z (Dict.t Z pyval).

Definition readSpeakerData_line (speakerData : speaker_data) (l : string)
  : result speaker_data :=
  match split tab l with
  | [lang; spkr; age; gender] =>
      lang_i <- py_int lang ;;
      let speakerData :=
        if Dict.mem lang_i speakerData then speakerData
        else Dict.set lang_i Dict.empty speakerData in
      langDict <- Dict.getitem lang_i speakerData ;;
      spkr_i <- py_int spkr ;;
      age_i <- py_int age ;;
      let langDict :=
        Dict.set spkr_i (PTuple [PInt age_i; PStr gender]) langDict in
      Ok (Dict.set lang_i langDict speakerData)
  | _ => Err ValueError
  end.

Definition readSpeakerData_lines (lines : list string) : result speaker_data :=
  for_each readSpeakerData_line lines Dict.empty.

Definition readSpeakerData (text : string) : result speaker_data :=
  readSpeakerData_lines (_read_lines text).

(** *** Mode maps *)

Definition lang_naming : Type := Dict.t Z (Dict.t Z string).

(** The two ways [makeModeMap(data, lang=None)] is called. *)
Inductive mode_args : Type :=
| with_lang (data : naming) (lang : Z)
| without_lang (data : lang_naming).

Definition allTerms_add (allTerms : Dict.t Z (list string)) (ct : Z * string)
  : result (Dict.t Z (list string)) :=
  let '(chip, term) := ct in
  let allTerms :=
    if Dict.mem chip allTerms then allTerms
    else Dict.set chip [] allTerms in
  terms <- Dict.getitem chip allTerms ;;
  Ok (Dict.set chip (terms ++ [term]) allTerms).

Definition allTerms_of (langData : lang_naming)
  : result (Dict.t Z (list string)) :=
  for_each (fun allTerms spkrData =>
              for_each allTerms_add (Dict.items spkrData) allTerms)
           (Dict.values langData) Dict.empty.

Definition freq_of (aList : list string) : Dict.t string Z :=
  fold_left (fun freq i => Dict.set i (Dict.get_default i 0 freq + 1) freq)
            aList Dict.empty.

(** [freq.get] as the sort key: it is applied to the keys of [freq] only,
    where it returns the count. *)
Definition findMode (aList : list string) : result string :=
  let freq := freq_of aList in
  let freqlist :=
    sorted_desc (fun k => Dict.get_default k 0 freq) (Dict.keys freq) in
  match freqlist with
  | [] => Err IndexError
  | mode :: _ => Ok mode
  end.

Definition modeMap_add (modeMap : Dict.t Z string) (ct : Z * list string)
  : result (Dict.t Z string) :=
  let '(chip, terms) := ct in
  mode <- findMode terms ;;
  Ok (Dict.set chip mode modeMap).

Definition makeModeMap (args : mode_args) : result (Dict.t Z string) :=
  langData <- match args with
              | with_lang data lang => Dict.getitem lang data
              | without_lang data => Ok data
              end ;;
  allTerms <- allTerms_of langData ;;
  for_each modeMap_add (Dict.items allTerms) Dict.empty.

(** *** Grid colors *)

Section Grid.
Context {F : Type} `{NumPy F}.

Definition color : Type := F * F * F.

(** [np.where(np.array(vals) == term)[0]], counting from [pos].  Terms are
    compared as whole strings (NumPy's fixed-width strings would also equate
    two terms that differ in trailing NUL characters only). *)
Fixpoint where_eq (pos : Z) (term : string) (vals : list string) : list Z :=
  match vals with
  | [] => []
  | v :: vals' =>
      if string_dec v term then pos :: where_eq (pos + 1) term vals'
      else where_eq (pos + 1) term vals'
  end.

(** [np.mean(np.array(rgbs), axis=0) / 255.] *)
Definition mean_color (rgbs : list (Z * Z * Z)) : color :=
  (mean_div255 (map (fun c => fst (fst c)) rgbs),
   mean_div255 (map (fun c => snd (fst c)) rgbs),
   mean_div255 (map snd rgbs)).

(** [a[i] = v] on the first axis *)
Definition set_row {A : Type} (i : Z) (v : A) (a : list A) : result (list A) :=
  r <- np_index (List.length a) i ;;
  Ok (update r (fun _ => v) a).

(** [a[i]] on the first axis *)
Definition get_row {A : Type} (i : Z) (a : list A) : result A :=
  r <- np_index (List.length a) i ;;
  match nth_error a r with
  | Some v => Ok v
  | None => Err IndexError
  end.

Definition term_colors_add (data : Dict.t Z string)
  (chip_to_rgb : Dict.t Z (Z * Z * Z)) (term_colors : Dict.t string color)
  (term : string) : result (Dict.t string color) :=
  let term_idx := where_eq 0 term (Dict.values data) in
  rgbs <- map_result (fun chipnum => Dict.getitem (chipnum + 1) chip_to_rgb)
                     term_idx ;;
  Ok (Dict.set term (mean_color rgbs) term_colors).

Definition grid_colors_add (data : Dict.t Z string)
  (term_colors : Dict.t string color) (grid_colors : list color) (i : Z)
  : result (list color) :=
  term <- Dict.getitem i data ;;
  c <- Dict.getitem term term_colors ;;
  set_row (i - 1) c grid_colors.

(** The body of [naming2grid], the distinct terms being met in the order
    [terms]. *)
Definition naming2grid_over (terms : list string) (data : Dict.t Z string)
  (chip_to_rgb : Dict.t Z (Z * Z * Z)) : result (list color) :=
  term_colors <- for_each (term_colors_add data chip_to_rgb) terms Dict.empty ;;
  for_each (grid_colors_add data term_colors)
           (range1 (List.length chip_to_rgb))
           (repeat (f_zero, f_zero, f_zero) 330).

(** The language leaves open in which order [set(data.values())] is gone
    through; the order of first occurrence is taken, and any other order
    gives the same result ([naming2grid_set_order] below). *)
Definition naming2grid (data : Dict.t Z string)
  (chip_to_rgb : Dict.t Z (Z * Z * Z)) : result (list color) :=
  naming2grid_over (dedup (Dict.values data)) data chip_to_rgb.

(** *** Plotting *)

Definition ROWS : list string :=
  ["A"; "B"; "C"; "D"; "E"; "F"; "G"; "H"; "I"; "J"].

Definition _chip2ind (chipNum : Z) (chip_to_munsell : Dict.t Z (string * Z))
  : result (nat * Z) :=
  m <- Dict.getitem chipNum chip_to_munsell ;;
  row <- index (fst m) ROWS ;;
  Ok (row, snd m).

Definition N_COLS : nat := 41.
Definition N_ROWS : nat := 10.

Definition image : Type := list (list color).

(** [img[i, j, :] = v] *)
Definition img_set (i j : Z) (v : color) (img : image) : result image :=
  r <- np_index N_ROWS i ;;
  c <- np_index (N_COLS + 1) j ;;
  Ok (update r (update c (fun _ => v)) img).

(** [img[i, j, :]] *)
Definition img_get (i j : Z) (img : image) : result color :=
  r <- np_index N_ROWS i ;;
  c <- np_index (N_COLS + 1) j ;;
  match nth_error img r with
  | Some row =>
      match nth_error row c with
      | Some v => Ok v
      | None => Err IndexError
      end
  | None => Err IndexError
  end.

Definition _grid2img_chip (grid : list color)
  (chip_to_munsell : Dict.t Z (string * Z)) (img : image) (chipNum : Z)
  : result image :=
  ' (i, j) <- _chip2ind chipNum chip_to_munsell ;;
  let i := Z.of_nat i in
  let j := if j >? 0 then j + 1 else j in
  v <- get_row (chipNum - 1) grid ;;
  img <- img_set i j v img ;;
  px <- img_get i j img ;;
  if eq_50 (fst (fst px)) then img_set i j px img else Ok img.

Definition _grid2img (grid : list color)
  (chip_to_munsell : Dict.t Z (string * Z)) : result image :=
  for_each (_grid2img_chip grid chip_to_munsell)
           (range1 (List.length grid))
           (repeat (repeat (f_one, f_one, f_one) (N_COLS + 1)) N_ROWS).

End Grid.

Arguments color : clear implicits.
Arguments image : clear implicits.

(** *** The getters of a single dictionary

    Their argument is a path, a data frame or anything else; the branch of
    the data frame is left out. *)

Inductive filename_or_other : Type :=
| a_filename (text : string)
| another.

Definition get_chip_to_rgb (arg : filename_or_other)
  : result (Dict.t Z (list Z)) :=
  match arg with
  | a_filename text => _get_rgb_dict (_read_lines text)
  | another => Ok Dict.empty
  end.

Definition get_chip_to_munsell (arg : filename_or_other)
  : result (Dict.t Z (string * Z)) :=
  match arg with
  | a_filename text =>
      ' (_, chip_to_munsell) <- _get_munsell_dicts (_read_lines text) ;;
      Ok chip_to_munsell
  | another => Ok Dict.empty
  end.

End wcsHelper.

(** ** [sorted(l)]

    Python's order on the keys: integers by value, strings by code point.
    The sort is stable. *)

Class PyOrd (K : Type) : Type := py_le : K -> K -> bool.

#[export] Instance PyOrd_Z : PyOrd Z := Z.leb.
#[export] Instance PyOrd_string : PyOrd string := String.leb.

Module PySorted.
Section Sort.
Context {K : Type} `{PyOrd K}.

Fixpoint insert_asc (x : K) (l : list K) : list K :=
  match l with
  | [] => [x]
  | y :: l' => if py_le x y then x :: y :: l' else y :: insert_asc x l'
  end.

Fixpoint sorted (l : list K) : list K :=
  match l with
  | [] => []
  | x :: l' => insert_asc x (sorted l')
  end.

End Sort.
End PySorted.

(** * wcs_table_helper.py *)

Module wcs_table_helper.

(** A [datascience] table: its labelled columns, in order. *)
Definition Table : Type := list (string * list pyval).

Definition columns4 : Type :=
  list pyval * list pyval * list pyval * list pyval.

Definition loadSpeakerTable_spkr (speakerData : Dict.t Z (Dict.t Z pyval))
  (lang : Z) (cols : columns4) (spkr : Z) : result columns4 :=
  let '(language, speaker, age, gender) := cols in
  let language := language ++ [PInt lang] in
  let speaker := speaker ++ [PInt spkr] in
  langDict <- Dict.getitem lang speakerData ;;
  rec <- Dict.getitem spkr langDict ;;
  rec0 <- PyVal.subscript0 rec ;;
  ' (a, g) <- PyVal.unpack2 rec0 ;;
  Ok (language, speaker, age ++ [a], gender ++ [g]).

Definition loadSpeakerTable_lang (speakerData : Dict.t Z (Dict.t Z pyval))
  (cols : columns4) (lang : Z) : result columns4 :=
  langDict <- Dict.getitem lang speakerData ;;
  for_each (loadSpeakerTable_spkr speakerData lang) (Dict.keys langDict) cols.

Definition loadSpeakerTable (speakerData : Dict.t Z (Dict.t Z pyval))
  : result Table :=
  ' (language, speaker, age, gender) <-
    for_each (loadSpeakerTable_lang speakerData) (Dict.keys speakerData)
             ([], [], [], []) ;;
  Ok [("Language", language); ("Speaker", speaker);
      ("Age", age); ("Gender", gender)].

(** The cells of the other tables. *)
Inductive cell : Type :=
| CInt (z : Z)
| CStr (s : string)
| CFloat (x : pyfloat).

Definition DataTable : Type := list (string * list cell).

Definition _get_sorted_keys_and_values {K V : Type} `{Hashable K} `{PyOrd K}
  (d : Dict.t K V) : result (list K * list V) :=
  let sorted_keys := PySorted.sorted (Dict.keys d) in
  sorted_values <- map_result (fun k => Dict.getitem k d) sorted_keys ;;
  Ok (sorted_keys, sorted_values).

(** The ways [loadChipTables] is called with its variable arguments:
    without argument, with one tuple whose first two components are the
    dictionaries, with the two dictionaries, or with more than two
    arguments. *)
Inductive chipData_args : Type :=
| no_argument
| one_tuple (coord_to_index : Dict.t string Z)
            (index_to_coord : Dict.t Z (string * Z))
| two_dicts (coord_to_index : Dict.t string Z)
            (index_to_coord : Dict.t Z (string * Z))
| more_arguments.

(** [lightness, hue = unzipped_values], the values unzipped: one tuple per
    component of the values, none when there is no value. *)
Definition unzip_pairs (sorted_values : list (string * Z))
  : result (list string * list Z) :=
  match sorted_values with
  | [] => Err ValueError
  | _ => Ok (map fst sorted_values, map snd sorted_values)
  end.

Definition loadChipTables_dicts (coord_to_index : Dict.t string Z)
  (index_to_coord : Dict.t Z (string * Z)) : result (DataTable * DataTable) :=
  ' (sorted_keys, sorted_values) <- _get_sorted_keys_and_values coord_to_index ;;
  let coordToIndexTable :=
    [("Coordinate", map CStr sorted_keys); ("Index", map CInt sorted_values)] in
  ' (sorted_keys, sorted_values) <- _get_sorted_keys_and_values index_to_coord ;;
  ' (lightness, hue) <- unzip_pairs sorted_values ;;
  let indexToCoordTable :=
    [("Coordinate", map CInt sorted_keys); ("Lightness", map CStr lightness);
     ("Hue", map CInt hue)] in
  Ok (coordToIndexTable, indexToCoordTable).

Definition loadChipTables (chipData : chipData_args)
  : result (DataTable * DataTable) :=
  match chipData with
  | no_argument => Ok ([], [])
  | more_arguments => Err ValueError
  | one_tuple coord_to_index index_to_coord
  | two_dicts coord_to_index index_to_coord =>
      loadChipTables_dicts coord_to_index index_to_coord
  end.

(** [v[i]] for a tuple *)
Definition tuple_item {A : Type} (i : nat) (v : list A) : result A :=
  match nth_error v i with
  | Some x => Ok x
  | None => Err IndexError
  end.

Definition loadClabTable (index_to_clab : Dict.t Z (list pyfloat))
  : result DataTable :=
  ' (sorted_keys, sorted_values) <- _get_sorted_keys_and_values index_to_clab ;;
  l <- map_result (tuple_item 0) sorted_values ;;
  a <- map_result (tuple_item 1) sorted_values ;;
  b <- map_result (tuple_item 2) sorted_values ;;
  Ok [("Index", map CInt sorted_keys); ("l", map CFloat l);
      ("a", map CFloat a); ("b", map CFloat b)].

Definition cols4 : Type := list cell * list cell * list cell * list cell.

Definition loadNamingTable_index (namingData : wcsHelper.naming) (lang spkr : Z)
  (cols : cols4) (i : Z) : result cols4 :=
  let '(language, speaker, index, color_term) := cols in
  langDict <- Dict.getitem lang namingData ;;
  spkrDict <- Dict.getitem spkr langDict ;;
  term <- Dict.getitem i spkrDict ;;
  Ok (language ++ [CInt lang], speaker ++ [CInt spkr], index ++ [CInt i],
      color_term ++ [CStr term]).

Definition loadNamingTable_spkr (namingData : wcsHelper.naming) (lang : Z)
  (cols : cols4) (spkr : Z) : result cols4 :=
  langDict <- Dict.getitem lang namingData ;;
  spkrDict <- Dict.getitem spkr langDict ;;
  for_each (loadNamingTable_index namingData lang spkr) (Dict.keys spkrDict)
           cols.

Definition loadNamingTable_lang (namingData : wcsHelper.naming) (cols : cols4)
  (lang : Z) : result cols4 :=
  langDict <- Dict.getitem lang namingData ;;
  for_each (loadNamingTable_spkr namingData lang) (Dict.keys langDict) cols.

Definition loadNamingTable (namingData : wcsHelper.naming) : result DataTable :=
  ' (language, speaker, index, color_term) <-
    for_each (loadNamingTable_lang namingData) (Dict.keys namingData)
             ([], [], [], []) ;;
  Ok [("Language", language); ("Speaker", speaker);
      ("Index", index); ("Term", color_term)].

Definition loadFociTable_coord (lang spkr : Z) (term : string) (cols : cols4)
  (coord : string) : result cols4 :=
  let '(language, speaker, color_term, foci_coord) := cols in
  Ok (language ++ [CInt lang], speaker ++ [CInt spkr],
      color_term ++ [CStr term], foci_coord ++ [CStr coord]).

Definition loadFociTable_term (fociData : wcsHelper.foci_data) (lang spkr : Z)
  (cols : cols4) (term : string) : result cols4 :=
  langDict <- Dict.getitem lang fociData ;;
  spkrDict <- Dict.getitem spkr langDict ;;
  fociList <- Dict.getitem term spkrDict ;;
  for_each (loadFociTable_coord lang spkr term) fociList cols.

Definition loadFociTable_spkr (fociData : wcsHelper.foci_data) (lang : Z)
  (cols : cols4) (spkr : Z) : result cols4 :=
  langDict <- Dict.getitem lang fociData ;;
  spkrDict <- Dict.getitem spkr langDict ;;
  for_each (loadFociTable_term fociData lang spkr) (Dict.keys spkrDict) cols.

Definition loadFociTable_lang (fociData : wcsHelper.foci_data) (cols : cols4)
  (lang : Z) : result cols4 :=
  langDict <- Dict.getitem lang fociData ;;
  for_each (loadFociTable_spkr fociData lang) (Dict.keys langDict) cols.

Definition loadFociTable (fociData : wcsHelper.foci_data) : result DataTable :=
  ' (language, speaker, color_term, foci_coord) <-
    for_each (loadFociTable_lang fociData) (Dict.keys fociData)
             ([], [], [], []) ;;
  Ok [("Language", language); ("Speaker", speaker);
      ("Term", color_term); ("Foci", foci_coord)].

End wcs_table_helper.

(** * Vocabulary of the statements *)

#[export] Instance Hashable_prod {A B : Type} `{Hashable A} `{Hashable B}
  : Hashable (A * B).
Proof. intros [a b] [a' b']. unfold Hashable in *. decide equality. Defined.

Module Notions.
Import PyStr PySeq wcsHelper.

(** ** Foci data *)

(** The fields of a line that [readFociData] accepts, the two numbers
    already converted: language, speaker, term and raw focus. *)
Definition foci_fields (l : string) : option (Z * Z * string * string) :=
  match split tab l with
  | [lang; spkr; _; term; foci] =>
      match py_int lang, py_int spkr with
      | Ok a, Ok b => Some (a, b, term, foci)
      | _, _ => None
      end
  | _ => None
  end.

(** [fociData[a][b][term]], or the empty list when one of the keys is
    missing. *)
Definition foci_at (d : foci_data) (a b : Z) (term : string) : list string :=
  Dict.get_default term []
    (Dict.get_default b Dict.empty (Dict.get_default a Dict.empty d)).

(** The stored form of a raw focus of first character [c] and remainder
    [rest]. *)
Definition focus_normal_form (c : ascii) (rest : string) : string :=
  if Ascii.eqb c "A" then "A:0"
  else if Ascii.eqb c "J" then "J:0"
  else String c (String ":" rest).

(** What one accepted line does to the nested dictionary. *)
Definition foci_insert (a b : Z) (term x : string) (d : foci_data) : foci_data :=
  let langDict := Dict.get_default a Dict.empty d in
  let spkrDict := Dict.get_default b Dict.empty langDict in
  let fociList := Dict.get_default term [] spkrDict in
  Dict.set a (Dict.set b (Dict.set term (fociList ++ [x]) spkrDict) langDict) d.

(** ** Chip table *)

(** The conditions under which a row makes the chip table parser fail. *)
Definition rejected_row (row : string) : Prop :=
  let vals := split tab row in
  py_int (hd EmptyString vals) = Err ValueError
  \/ List.length vals = 1%nat
  \/ py_int (last vals EmptyString) = Err ValueError
  \/ (exists v, In v (slice 1 4 vals) /\ py_int v = Err ValueError)
  \/ (exists v, In v (slice 4 7 vals) /\ PyFloat.py_float v = Err ValueError).

(** A row accepted by [_get_munsell_dicts]: its chip index, the two raw
    coordinate fields and the hue as an integer. *)
Record chip_row : Type := {
  row_index : Z;
  row_L : string;
  row_H : string;
  row_hue : Z
}.

Definition munsell_fields (row : string) : option chip_row :=
  let vals := split tab row in
  match py_int (hd EmptyString vals), last2 vals with
  | Ok i, [L; H] =>
      match py_int H with
      | Ok h => Some {| row_index := i; row_L := L; row_H := H; row_hue := h |}
      | Err _ => None
      end
  | _, _ => None
  end.

(** The key under which a row is entered in [munsell_to_chip]. *)
Definition row_key (r : chip_row) : string := (row_L r ++ row_H r)%string.

(** The rows read from the lines that [_get_munsell_dicts] accepts. *)
Definition rows_of (lines : list string) : list chip_row :=
  flat_map (fun l => match munsell_fields l with
                     | Some r => [r]
                     | None => []
                     end) lines.

Section Build.
Context {K V : Type} `{Hashable K}.

(** A dictionary filled by successive assignments. *)
Definition build (bs : list (K * V)) (d0 : Dict.t K V) : Dict.t K V :=
  fold_left (fun d kv => Dict.set (fst kv) (snd kv) d) bs d0.

End Build.

(** ** Speaker data *)

(** What [readSpeakerData] keeps true of its dictionary: every language
    has a speaker, and every record is a pair of an integer and a string. *)
Definition speaker_inv (d : speaker_data) : Prop :=
  forall lang ld, In (lang, ld) d ->
    ld <> []
    /\ forall spkr rec, In (spkr, rec) ld ->
         exists age gender, rec = PTuple [PInt age; PStr gender].

(** ** Mode maps *)

(** Position of the first occurrence of [t] in [l] (its length when [t]
    does not occur). *)
Fixpoint first_index (t : string) (l : list string) : nat :=
  match l with
  | [] => O
  | x :: l' => if string_dec t x then O else S (first_index t l')
  end.

Definition freq_step (freq : Dict.t string Z) (i : string) : Dict.t string Z :=
  Dict.set i (Dict.get_default i 0 freq + 1) freq.

(** What the accumulation keeps true of [allTerms]: distinct chips, and no
    empty list. *)
Definition allTerms_inv (allTerms : Dict.t Z (list string)) : Prop :=
  Dict.wf allTerms /\ forall chip terms, In (chip, terms) allTerms -> terms <> [].

(** ** Naming data *)

(** The key triple and the term of a line that [readNamingData] accepts. *)
Definition naming_fields (l : string) : option (Z * Z * Z * string) :=
  match split tab l with
  | [lang; spkr; chipNum; term] =>
      match py_int lang, py_int spkr, py_int chipNum with
      | Ok a, Ok b, Ok c => Some (a, b, c, term)
      | _, _, _ => None
      end
  | _ => None
  end.

(** [namingData[a][b][c]], if the three keys are there. *)
Definition term_at (d : naming) (a b c : Z) : option string :=
  Dict.get c (Dict.get_default b Dict.empty (Dict.get_default a Dict.empty d)).

(** The (language, speaker, chip) leaves of the nested mapping, in
    iteration order. *)
Definition entries (d : naming) : list (Z * Z * Z) :=
  flat_map (fun ald =>
    flat_map (fun bsd =>
      flat_map (fun ct => [(fst ald, fst bsd, fst ct)]) (snd bsd))
      (snd ald)) d.

Definition naming_insert (a b c : Z) (term : string) (d : naming) : naming :=
  let langDict := Dict.get_default a Dict.empty d in
  let spkrDict := Dict.get_default b Dict.empty langDict in
  Dict.set a (Dict.set b (Dict.set c term spkrDict) langDict) d.

(** Distinct keys at each of the three levels. *)
Definition wf3 (d : naming) : Prop :=
  Dict.wf d
  /\ forall a ld, In (a, ld) d ->
       Dict.wf ld /\ forall b sd, In (b, sd) ld -> Dict.wf sd.

(** [t] is the term of the last record of [recs] whose key is [k]. *)
Definition last_binding (recs : list (Z * Z * Z * string)) (k : Z * Z * Z)
  (t : string) : Prop :=
  exists r1 r2, recs = r1 ++ (k, t) :: r2 /\ ~ In k (map fst r2).

(** ** Grid and image *)

(** The chips that [data] assigns the term [term], in iteration order. *)
Definition chips_with_term (data : Dict.t Z string) (term : string) : list Z :=
  map fst (filter (fun ct => if string_dec (snd ct) term then true else false)
                  data).

(** The cell of the image that a chip is written to: the row of its
    letter, and column [hue + 1], or 0 for hue 0. *)
Definition target (m : Dict.t Z (string * Z)) (c : Z) : option (nat * nat) :=
  match Dict.get c m with
  | Some (L, h) =>
      match index L ROWS with
      | Ok r => Some (r, Z.to_nat (if h >? 0 then h + 1 else h))
      | Err _ => None
      end
  | None => None
  end.

Section Cells.
Context {F : Type} `{NumPy F}.

Definition zero_row : color F := (f_zero, f_zero, f_zero).

(** The color that the first loop of [naming2grid] computes for a term. *)
Definition term_color (data : Dict.t Z string) (rgb : Dict.t Z (Z * Z * Z))
  (term : string) : result (color F) :=
  rgbs <- map_result (fun chipnum => Dict.getitem (chipnum + 1) rgb)
                     (where_eq 0 term (Dict.values data)) ;;
  Ok (mean_color rgbs).

Definition white : color F := (f_one, f_one, f_one).

(** [img[r, col, :]] for indices within the image. *)
Definition cell_at (img : image F) (r col : nat) : option (color F) :=
  match nth_error img r with
  | Some row => nth_error row col
  | None => None
  end.

Definition shape_ok (img : image F) : Prop :=
  List.length img = 10%nat /\ Forall (fun row => List.length row = 42%nat) img.

Definition put (r col : nat) (v : color F) (img : image F) : image F :=
  update r (update col (fun _ => v)) img.

End Cells.

(** ** Bindings and rows *)

Section Rows.
Context {K V : Type} `{Hashable K}.

(** The bindings that the keys [ks] find in [d]. *)
Definition lookup_rows (d : Dict.t K V) (ks : list K) : list (K * V) :=
  flat_map (fun k => match Dict.get k d with
                     | Some v => [(k, v)]
                     | None => []
                     end) ks.

(** [v] is the value of the last binding of [k] in [bs]. *)
Definition last_value (bs : list (K * V)) (k : K) (v : V) : Prop :=
  exists b1 b2, bs = b1 ++ (k, v) :: b2 /\ ~ In k (map fst b2).

End Rows.

(** Keys in ascending order, and rows in ascending order of their keys. *)
Definition ascending {K : Type} `{PyOrd K} (ks : list K) : Prop :=
  Sorted (fun a b => py_le a b = true) ks.

Definition ascending_rows {K V : Type} `{PyOrd K} (rows : list (K * V)) : Prop :=
  ascending (map fst rows).

(** The order of the keys is total. *)
Definition total_order (K : Type) `{PyOrd K} : Prop :=
  forall a b : K, py_le a b = true \/ py_le b a = true.

(** ** Tables *)

Import wcs_table_helper.

(** The four columns filled from a list of rows. *)
Definition cols4_of {R C : Type} (c1 c2 c3 c4 : R -> C) (rows : list R)
  : list C * list C * list C * list C :=
  (map c1 rows, map c2 rows, map c3 rows, map c4 rows).

Definition coordToIndexTable (rows : list (string * Z)) : DataTable :=
  [("Coordinate", map (fun r => CStr (fst r)) rows);
   ("Index", map (fun r => CInt (snd r)) rows)].

Definition indexToCoordTable (rows : list (Z * (string * Z))) : DataTable :=
  [("Coordinate", map (fun r => CInt (fst r)) rows);
   ("Lightness", map (fun r => CStr (fst (snd r))) rows);
   ("Hue", map (fun r => CInt (snd (snd r))) rows)].

(** The first three components of a CIELAB tuple. *)
Definition lab_of (v : list pyfloat) : option (pyfloat * pyfloat * pyfloat) :=
  match v with
  | l :: a :: b :: _ => Some (l, a, b)
  | _ => None
  end.

Definition clabTable (rows : list (Z * (pyfloat * pyfloat * pyfloat)))
  : DataTable :=
  [("Index", map (fun r => CInt (fst r)) rows);
   ("l", map (fun r => CFloat (fst (fst (snd r)))) rows);
   ("a", map (fun r => CFloat (snd (fst (snd r)))) rows);
   ("b", map (fun r => CFloat (snd (snd r))) rows)].

(** The leaves of the naming data with their terms, in iteration order. *)
Definition naming_rows (d : naming) : list (Z * Z * Z * string) :=
  flat_map (fun ald =>
    flat_map (fun bsd =>
      map (fun ct => (fst ald, fst bsd, fst ct, snd ct)) (snd bsd))
      (snd ald)) d.

Definition naming_cols (rows : list (Z * Z * Z * string)) : cols4 :=
  cols4_of (fun r => CInt (fst (fst (fst r)))) (fun r => CInt (snd (fst (fst r))))
           (fun r => CInt (snd (fst r))) (fun r => CStr (snd r)) rows.

Definition namingTable (rows : list (Z * Z * Z * string)) : DataTable :=
  let '(language, speaker, index, color_term) := naming_cols rows in
  [("Language", language); ("Speaker", speaker);
   ("Index", index); ("Term", color_term)].

(** Distinct keys at each of the three levels of the foci data. *)
Definition foci_wf (d : foci_data) : Prop :=
  Dict.wf d
  /\ forall a ld, In (a, ld) d ->
       Dict.wf ld /\ forall b sd, In (b, sd) ld -> Dict.wf sd.

(** The foci with their language, speaker and term, in iteration order. *)
Definition foci_rows (d : foci_data) : list (Z * Z * string * string) :=
  flat_map (fun ald =>
    flat_map (fun bsd =>
      flat_map (fun tl => map (fun x => (fst ald, fst bsd, fst tl, x)) (snd tl))
               (snd bsd))
      (snd ald)) d.

Definition foci_cols (rows : list (Z * Z * string * string)) : cols4 :=
  cols4_of (fun r => CInt (fst (fst (fst r)))) (fun r => CInt (snd (fst (fst r))))
           (fun r => CStr (snd (fst r))) (fun r => CStr (snd r)) rows.

Definition fociTable (rows : list (Z * Z * string * string)) : DataTable :=
  let '(language, speaker, color_term, foci_coord) := foci_cols rows in
  [("Language", language); ("Speaker", speaker);
   ("Term", color_term); ("Foci", foci_coord)].

(** The stored form of a raw focus that is not empty. *)
Definition stored_focus (raw : string) : string :=
  match raw with
  | String c rest => focus_normal_form c rest
  | EmptyString => EmptyString
  end.

(** The row that the table shows for a line of fields [r]. *)
Definition stored_row (r : Z * Z * string * string) : Z * Z * string * string :=
  (fst (fst (fst r)), snd (fst (fst r)), snd (fst r), stored_focus (snd r)).

(** ** Rows of the chip file and of the speaker file *)

(** The index and the RGB tuple of a row that [_get_rgb_dict] accepts. *)
Definition rgb_fields (row : string) : option (Z * list Z) :=
  let vals := split tab row in
  match py_int (hd EmptyString vals), map_result py_int (slice 1 4 vals) with
  | Ok i, Ok rgb => Some (i, rgb)
  | _, _ => None
  end.

(** The index and the CIELAB tuple of a row that [_get_clab_dict]
    accepts. *)
Definition clab_fields (row : string) : option (Z * list pyfloat) :=
  let vals := split tab row in
  match py_int (hd EmptyString vals),
        map_result PyFloat.py_float (slice 4 7 vals) with
  | Ok i, Ok clab => Some (i, clab)
  | _, _ => None
  end.

(** The key pair and the record of a line that [readSpeakerData]
    accepts. *)
Definition speaker_fields (l : string) : option (Z * Z * pyval) :=
  match split tab l with
  | [lang; spkr; age; gender] =>
      match py_int lang, py_int spkr, py_int age with
      | Ok a, Ok b, Ok c => Some (a, b, PTuple [PInt c; PStr gender])
      | _, _, _ => None
      end
  | _ => None
  end.

(** [speakerData[a][b]], if the two keys are there. *)
Definition speaker_at (d : speaker_data) (k : Z * Z) : option pyval :=
  Dict.get (snd k) (Dict.get_default (fst k) Dict.empty d).

Definition speaker_insert (k : Z * Z) (rec : pyval) (d : speaker_data)
  : speaker_data :=
  Dict.set (fst k) (Dict.set (snd k) rec (Dict.get_default (fst k) Dict.empty d))
           d.

(** The pairs of an age and a gender that [loadSpeakerTable] reads off a
    record: the two components of its element 0. *)
Definition first_pair (rec : pyval) : result (pyval * pyval) :=
  rec0 <- PyVal.subscript0 rec ;; PyVal.unpack2 rec0.

Definition speaker_rows (d : Dict.t Z (Dict.t Z pyval))
  : list (Z * Z * (pyval * pyval)) :=
  flat_map (fun ald =>
    flat_map (fun br => match first_pair (snd br) with
                        | Ok ag => [(fst ald, fst br, ag)]
                        | Err _ => []
                        end) (snd ald)) d.

Definition speaker_cols (rows : list (Z * Z * (pyval * pyval))) : columns4 :=
  cols4_of (fun r => PInt (fst (fst r))) (fun r => PInt (snd (fst r)))
           (fun r => fst (snd r)) (fun r => snd (snd r)) rows.

Definition speakerTable (rows : list (Z * Z * (pyval * pyval))) : Table :=
  let '(language, speaker, age, gender) := speaker_cols rows in
  [("Language", language); ("Speaker", speaker);
   ("Age", age); ("Gender", gender)].

(** Distinct keys at each of the two levels of the speaker data. *)
Definition speaker_wf (d : Dict.t Z (Dict.t Z pyval)) : Prop :=
  Dict.wf d /\ forall a ld, In (a, ld) d -> Dict.wf ld.

End Notions.

(** ** Sample inputs *)

Module Samples.
Import PySeq wcsHelper.

(** Fields joined by tabs, lines joined by newlines. *)
Definition tsv (fields : list string) : string :=
  String.concat (String PyStr.tab EmptyString) fields.

Definition unlines (ls : list string) : string :=
  String.concat (String PyStr.newline EmptyString) ls.

Definition two_chips : list string :=
  [tsv ["1"; "255"; "0"; "0"; "53.2"; "80.1"; "67.2"; "A"; "0"];
   tsv ["2"; "0"; "255"; "0"; "87.7"; "-86.1"; "83.1"; "A"; "1"]].

(** Two rows of nine fields giving chip 1 two coordinates. *)
Definition chip_one_twice : list string :=
  [tsv ["1"; "255"; "0"; "0"; "53.2"; "80.1"; "67.2"; "A"; "0"];
   tsv ["1"; "0"; "255"; "0"; "87.7"; "-86.1"; "83.1"; "B"; "1"]].

Definition two_terms : Dict.t Z string := [(1, "red"); (2, "green")].

Definition two_rgbs : Dict.t Z (Z * Z * Z) :=
  [(1, (255, 0, 0)); (2, (0, 255, 0))].

(** The chips 1..331 all named [a], and 332 chips with a color. *)
Definition named_331 : Dict.t Z string := map (fun i => (i, "a")) (range1 331).

Definition rgbs_332 : Dict.t Z (Z * Z * Z) :=
  map (fun i => (i, (0, 0, 0))) (range1 332).

Definition grey : color Q := (1 # 2, 1 # 2, 1 # 2)%Q.

Definition dark : color Q := (1 # 4, 1 # 4, 1 # 4)%Q.

(** The chips 1..331 with a color each. *)
Definition rgbs_331 : Dict.t Z (Z * Z * Z) :=
  map (fun i => (i, (0, 0, 0))) (range1 331).

(** Two chips entered in descending order. *)
Definition two_coords : Dict.t string Z := [("B1", 2); ("A0", 1)].

Definition two_indices : Dict.t Z (string * Z) :=
  [(2, ("B", 1)); (1, ("A", 0))].

Definition two_clabs : Dict.t Z (list pyfloat) :=
  [(2, [FDec false 877 (-1); FDec true 861 (-1); FDec false 831 (-1)]);
   (1, [FDec false 532 (-1); FDec false 801 (-1); FDec false 672 (-1)])].

Definition short_clab : Dict.t Z (list pyfloat) :=
  [(1, [FDec false 532 (-1); FDec false 801 (-1)])].

(** A naming file in which one chip is named twice, and what is read from
    it. *)
Definition naming_lines : string :=
  unlines [tsv ["1"; "1"; "1"; "red"]; tsv ["1"; "1"; "2"; "green"];
           tsv ["1"; "1"; "1"; "blue"]].

Definition one_speaker_naming : naming :=
  [(1, [(1, [(1, "blue"); (2, "green")])])].

Definition foci_lines : string :=
  unlines [tsv ["1"; "1"; "3"; "bu"; "G29"]; tsv ["2"; "1"; "1"; "wa"; "A5"];
           tsv ["1"; "1"; "3"; "bu"; "J12"]].

Definition two_languages_foci : foci_data :=
  [(1, [(1, [("bu", ["G:29"; "J:0"])])]); (2, [(1, [("wa", ["A:0"])])])].

Definition speaker_lines : string :=
  unlines [tsv ["1"; "1"; "30"; "M"]; tsv ["1"; "2"; "41"; "F"];
           tsv ["1"; "1"; "31"; "M"]].

(** Speaker data in which each record is a list holding one pair. *)
Definition listed_speakers : Dict.t Z (Dict.t Z pyval) :=
  [(1, [(1, PList [PTuple [PInt 30; PStr "M"]]);
        (2, PList [PTuple [PInt 41; PStr "F"]])])].

Definition three_speakers : lang_naming :=
  [(1, [(1, "a"); (2, "b")]); (2, [(1, "b"); (2, "b")]);
   (3, [(1, "b"); (3, "c")])].

End Samples.

(** * Properties *)

(** ** Loops *)

Section Loops.
Context {St X : Type}.
Variable body : St -> X -> result St.

Lemma for_each_app (xs ys : list X) (s : St) :
  for_each body (xs ++ ys) s = s' <- for_each body xs s ;; for_each body ys s'.
Proof.
  revert s; induction xs as [|x xs IH]; intros s; simpl; [reflexivity|].
  destruct (body s x); simpl; auto.
Qed.

(** An invariant kept by every successful iteration holds at the end. *)
Lemma for_each_invariant (P : St -> Prop) (xs : list X) :
  (forall s x s', In x xs -> P s -> body s x = Ok s' -> P s') ->
  forall s s', P s -> for_each body xs s = Ok s' -> P s'.
Proof.
  induction xs as [|x xs IH]; intros Hstep s s' Hs Hrun; simpl in Hrun.
  - inversion Hrun; subst; assumption.
  - destruct (body s x) as [s1|e] eqn:E; simpl in Hrun; [|discriminate].
    apply (IH (fun s0 y s0' Hy => Hstep s0 y s0' (or_intror Hy)) s1 s'); auto.
    apply (Hstep s x s1); simpl; auto.
Qed.

(** A loop whose iterations all succeed succeeds. *)
Lemma for_each_total (xs : list X) :
  (forall s x, In x xs -> exists s', body s x = Ok s') ->
  forall s, exists s', for_each body xs s = Ok s'.
Proof.
  induction xs as [|x xs IH]; intros Hstep s; simpl.
  - eexists; reflexivity.
  - destruct (Hstep s x (or_introl eq_refl)) as [s1 ->]; simpl.
    apply IH. intros; apply Hstep; simpl; auto.
Qed.

(** When every failure is the exception [e] and one element fails in every
    state, the loop fails with [e]. *)
Lemma for_each_fails (e : pyerr) (xs : list X) (x : X) :
  (forall s y e', body s y = Err e' -> e' = e) ->
  In x xs ->
  (forall s, body s x = Err e) ->
  forall s, for_each body xs s = Err e.
Proof.
  intros Hall Hin Hbad.
  induction xs as [|y xs IH]; intros s; simpl; [destruct Hin|].
  destruct (body s y) as [s1|e'] eqn:E; simpl.
  - destruct Hin as [->|Hin]; [rewrite Hbad in E; discriminate|auto].
  - f_equal; eapply Hall; eauto.
Qed.

(** A loop fails only with what an iteration fails with. *)
Lemma for_each_error (e : pyerr) (xs : list X) :
  (forall s y e', body s y = Err e' -> e' = e) ->
  forall s e', for_each body xs s = Err e' -> e' = e.
Proof.
  intros Hall. induction xs as [|y xs IH]; intros s e' E; simpl in E.
  - discriminate.
  - destruct (body s y) as [s1|e1] eqn:E1; simpl in E; eauto.
    inversion E; subst; eauto.
Qed.

End Loops.

Section LoopErrors.
Context {St X : Type}.
Variable body : St -> X -> result St.

(** The exceptions of a loop are those of its iterations. *)
Lemma for_each_error_in (P : pyerr -> Prop) (xs : list X) :
  (forall s y e, body s y = Err e -> P e) ->
  forall s e, for_each body xs s = Err e -> P e.
Proof.
  intros Hall. induction xs as [|y xs IH]; intros s e E; simpl in E.
  - discriminate.
  - destruct (body s y) as [s1|e1] eqn:E1; simpl in E; eauto.
    inversion E; subst; eauto.
Qed.

(** A loop over an element that fails in every state does not return. *)
Lemma for_each_fails_some (xs : list X) (x : X) :
  In x xs -> (forall s, exists e, body s x = Err e) ->
  forall s, exists e, for_each body xs s = Err e.
Proof.
  intros Hin Hbad.
  induction xs as [|y xs IH]; intros s; simpl; [destruct Hin|].
  destruct (body s y) as [s1|e'] eqn:E; simpl; [|eauto].
  destruct Hin as [->|Hin]; auto.
  destruct (Hbad s) as [e Ee]. congruence.
Qed.

End LoopErrors.

Section MapResult.
Context {X Y : Type}.
Variable f : X -> result Y.

Lemma map_result_error (e : pyerr) (xs : list X) :
  (forall x e', f x = Err e' -> e' = e) ->
  forall e', map_result f xs = Err e' -> e' = e.
Proof.
  intros Hf. induction xs as [|x xs IH]; simpl; intros e' E; [discriminate|].
  destruct (f x) eqn:Ex; simpl in E.
  - destruct (map_result f xs); simpl in E; [discriminate|].
    apply IH. congruence.
  - apply (Hf x). congruence.
Qed.

Lemma map_result_fails (e : pyerr) (xs : list X) (x : X) :
  (forall y e', f y = Err e' -> e' = e) ->
  In x xs -> f x = Err e -> map_result f xs = Err e.
Proof.
  intros Hf. induction xs as [|y xs IH]; simpl; intros I E; [destruct I|].
  destruct (f y) eqn:Ey; simpl.
  - destruct I as [->|I]; [congruence|]. rewrite (IH I E). reflexivity.
  - f_equal. eapply Hf; eauto.
Qed.

Lemma map_result_Ok (xs : list X) :
  (forall x, In x xs -> exists y, f x = Ok y) ->
  exists ys, map_result f xs = Ok ys.
Proof.
  induction xs as [|x xs IH]; simpl; intros Hf; [eauto|].
  destruct (Hf x (or_introl eq_refl)) as [y ->]; simpl.
  destruct IH as [ys ->]; [intros; apply Hf; auto|]. simpl; eauto.
Qed.

Lemma map_result_map {W : Type} (g : W -> X) (ws : list W) :
  map_result f (map g ws) = map_result (fun w => f (g w)) ws.
Proof.
  induction ws as [|w ws IH]; simpl; [reflexivity|]. rewrite IH. reflexivity.
Qed.

End MapResult.

Lemma bind_Ok_inv {A B : Type} (r : result A) (f : A -> result B) (b : B) :
  bind r f = Ok b -> exists a, r = Ok a /\ f a = Ok b.
Proof. destruct r; simpl; intros E; [eauto|discriminate]. Qed.

(** Splits a hypothesis [x <- r ;; k = Ok v] into [r = Ok x] and
    [k = Ok v]. *)
Ltac bind_inv H :=
  let x := fresh "x" in
  let E := fresh "E" in
  apply bind_Ok_inv in H; destruct H as [x [E H]].

(** ** Dictionaries *)

Module DictFacts.
Section Facts.
Context {K V : Type} `{Hashable K}.
Implicit Types (k : K) (v : V) (d : Dict.t K V).

Lemma get_set_same k v d : Dict.get k (Dict.set k v d) = Some v.
Proof.
  induction d as [|[k' v'] d IH]; simpl.
  - destruct (key_eq_dec k k); congruence.
  - destruct (key_eq_dec k k') as [->|N]; simpl.
    + destruct (key_eq_dec k' k'); congruence.
    + destruct (key_eq_dec k k'); congruence.
Qed.

Lemma get_set_other k k' v d :
  k <> k' -> Dict.get k' (Dict.set k v d) = Dict.get k' d.
Proof.
  intros N; induction d as [|[k0 v0] d IH]; simpl.
  - destruct (key_eq_dec k' k); congruence.
  - destruct (key_eq_dec k k0) as [->|N0]; simpl.
    + destruct (key_eq_dec k' k0); congruence.
    + destruct (key_eq_dec k' k0); congruence.
Qed.

Lemma get_set k k' v d :
  Dict.get k' (Dict.set k v d)
  = if key_eq_dec k' k then Some v else Dict.get k' d.
Proof.
  destruct (key_eq_dec k' k) as [->|N].
  - apply get_set_same.
  - apply get_set_other; congruence.
Qed.

Lemma set_set k v v' d : Dict.set k v (Dict.set k v' d) = Dict.set k v d.
Proof.
  induction d as [|[k0 v0] d IH]; simpl.
  - destruct (key_eq_dec k k); congruence.
  - destruct (key_eq_dec k k0) as [->|N]; simpl.
    + destruct (key_eq_dec k0 k0); congruence.
    + destruct (key_eq_dec k k0); congruence.
Qed.

Lemma get_None_keys k d : Dict.get k d = None <-> ~ In k (Dict.keys d).
Proof.
  induction d as [|[k0 v0] d IH]; simpl; [tauto|].
  destruct (key_eq_dec k k0) as [->|N]; split; intros E.
  - discriminate.
  - exfalso; apply E; auto.
  - intros [E'|E']; [congruence|]. apply IH in E; auto.
  - apply IH; tauto.
Qed.

Lemma get_Some_keys k v d : Dict.get k d = Some v -> In k (Dict.keys d).
Proof.
  intros E. destruct (in_dec key_eq_dec k (Dict.keys d)) as [I|I]; auto.
  apply get_None_keys in I; congruence.
Qed.

Lemma keys_get k d : In k (Dict.keys d) -> exists v, Dict.get k d = Some v.
Proof.
  intros I. destruct (Dict.get k d) as [v|] eqn:E; eauto.
  apply get_None_keys in E; tauto.
Qed.

Lemma get_Some_In k v d : Dict.get k d = Some v -> In (k, v) d.
Proof.
  induction d as [|[k0 v0] d IH]; simpl; [discriminate|].
  destruct (key_eq_dec k k0) as [->|N]; intros E.
  - left; congruence.
  - right; auto.
Qed.

Lemma In_get k v d : Dict.wf d -> In (k, v) d -> Dict.get k d = Some v.
Proof.
  unfold Dict.wf, Dict.keys.
  induction d as [|[k0 v0] d IH]; simpl; intros W I; [destruct I|].
  inversion W as [|? ? Hn Hd]; subst.
  destruct I as [E|I].
  - inversion E; subst. destruct (key_eq_dec k k); congruence.
  - destruct (key_eq_dec k k0) as [->|N]; auto.
    exfalso; apply Hn. change k0 with (fst (k0, v)). apply in_map; exact I.
Qed.

Lemma keys_set k v d :
  Dict.keys (Dict.set k v d)
  = if Dict.mem k d then Dict.keys d else Dict.keys d ++ [k].
Proof.
  unfold Dict.mem.
  induction d as [|[k0 v0] d IH]; simpl; [reflexivity|].
  destruct (key_eq_dec k k0) as [->|N]; simpl; [reflexivity|].
  rewrite IH. destruct (Dict.get k d); reflexivity.
Qed.

Lemma mem_true_keys k d : Dict.mem k d = true <-> In k (Dict.keys d).
Proof.
  unfold Dict.mem. split.
  - destruct (Dict.get k d) eqn:E; [intros _|discriminate].
    eapply get_Some_keys; eauto.
  - intros I. destruct (keys_get k d I) as [v ->]; reflexivity.
Qed.

Lemma wf_set k v d : Dict.wf d -> Dict.wf (Dict.set k v d).
Proof.
  unfold Dict.wf. rewrite keys_set. intros W.
  destruct (Dict.mem k d) eqn:E; auto.
  assert (~ In k (Dict.keys d)) as N.
  { intros I. apply mem_true_keys in I. congruence. }
  apply NoDup_app; auto.
  - constructor; [intros []|constructor].
  - intros a Ha [<-|[]]; auto.
Qed.

Lemma wf_empty : Dict.wf (@Dict.empty K V).
Proof. constructor. Qed.

(** The idiom [if k not in d: d[k] = v0] followed by a read or a write of
    [d[k]]. *)
Lemma getitem_ensure k v0 d :
  Dict.getitem k (if Dict.mem k d then d else Dict.set k v0 d)
  = Ok (Dict.get_default k v0 d).
Proof.
  unfold Dict.getitem, Dict.mem, Dict.get_default.
  destruct (Dict.get k d) eqn:E; [rewrite E; reflexivity|].
  rewrite get_set_same; reflexivity.
Qed.

Lemma set_ensure k v v0 d :
  Dict.set k v (if Dict.mem k d then d else Dict.set k v0 d) = Dict.set k v d.
Proof. destruct (Dict.mem k d); [reflexivity|apply set_set]. Qed.

Lemma In_set k k' v v' d :
  In (k', v') (Dict.set k v d) -> (k', v') = (k, v) \/ In (k', v') d.
Proof.
  induction d as [|[k0 v0] d IH]; simpl.
  - intros [E|[]]; auto.
  - destruct (key_eq_dec k k0) as [->|N]; simpl; intros [E|I]; auto.
    destruct (IH I); auto.
Qed.

End Facts.
End DictFacts.

Section DefaultFacts.
Context {K V : Type} `{Hashable K}.

Lemma get_default_set (k k' : K) (v dflt : V) (d : Dict.t K V) :
  Dict.get_default k' dflt (Dict.set k v d)
  = if key_eq_dec k' k then v else Dict.get_default k' dflt d.
Proof.
  unfold Dict.get_default. rewrite DictFacts.get_set.
  destruct (key_eq_dec k' k); reflexivity.
Qed.

End DefaultFacts.

(** ** Foci data *)

Module FociFacts.
Import PyStr wcsHelper Notions.

Lemma newFoci_normal_form (c : ascii) (rest : string) :
  newFoci (String c rest) = Ok (focus_normal_form c rest).
Proof.
  unfold newFoci, focus_normal_form; simpl.
  destruct (Ascii.eqb c "A") eqn:EA; simpl; [reflexivity|].
  destruct (Ascii.eqb c "J") eqn:EJ; simpl; reflexivity.
Qed.

Lemma newFoci_empty : newFoci EmptyString = Err IndexError.
Proof. reflexivity. Qed.

Lemma readFociData_line_Ok (d d' : foci_data) (l : string) :
  readFociData_line d l = Ok d' ->
  exists a b term c rest,
    foci_fields l = Some (a, b, term, String c rest)
    /\ d' = foci_insert a b term (focus_normal_form c rest) d.
Proof.
  unfold readFociData_line, foci_fields.
  destruct (split tab l) as [|lang [|spkr [|tn [|term [|foci [|? ?]]]]]];
    try discriminate.
  intros E. cbv zeta in E. unfold foci_data in *.
  bind_inv E. rewrite E0.
  rewrite DictFacts.getitem_ensure in E; simpl in E.
  bind_inv E. rewrite E1.
  rewrite DictFacts.getitem_ensure in E; simpl in E.
  bind_inv E.
  rewrite DictFacts.getitem_ensure in E; simpl in E.
  rewrite !DictFacts.set_ensure in E.
  destruct foci as [|c rest]; [discriminate|].
  rewrite newFoci_normal_form in E2. inversion E2; subst.
  inversion E; subst.
  exists x, x0, term, c, rest. split; reflexivity.
Qed.

Lemma foci_at_insert (a b a' b' : Z) (term term' x : string) (d : foci_data) :
  foci_at (foci_insert a b term x d) a' b' term'
  = if key_eq_dec a' a then
      if key_eq_dec b' b then
        if key_eq_dec term' term then foci_at d a b term ++ [x]
        else foci_at d a' b' term'
      else foci_at d a' b' term'
    else foci_at d a' b' term'.
Proof.
  unfold foci_at, foci_insert.
  rewrite get_default_set.
  destruct (key_eq_dec a' a) as [->|Na]; [|reflexivity].
  rewrite get_default_set.
  destruct (key_eq_dec b' b) as [->|Nb]; [|reflexivity].
  rewrite get_default_set.
  destruct (key_eq_dec term' term) as [->|Nt]; reflexivity.
Qed.

Lemma foci_at_chain (d : foci_data) (a b : Z) (term x : string) :
  In x (foci_at d a b term) ->
  exists langDict spkrDict fociList,
    Dict.get a d = Some langDict /\ Dict.get b langDict = Some spkrDict
    /\ Dict.get term spkrDict = Some fociList /\ In x fociList.
Proof.
  unfold foci_at, Dict.get_default.
  destruct (Dict.get a d) as [ld|] eqn:Ea; [|simpl; intros []].
  destruct (Dict.get b ld) as [sd|] eqn:Eb; [|simpl; intros []].
  destruct (Dict.get term sd) as [fl|] eqn:Et; [|simpl; intros []].
  intros I; exists ld, sd, fl; auto.
Qed.

(** The lists after a run hold the normal forms of the lines read, and
    nothing else beyond what was there before. *)
Lemma readFociData_lines_spec (lines : list string) :
  forall d0 d, for_each readFociData_line lines d0 = Ok d ->
  (forall l, In l lines ->
     exists a b term c rest,
       foci_fields l = Some (a, b, term, String c rest)
       /\ In (focus_normal_form c rest) (foci_at d a b term))
  /\ (forall a b term x, In x (foci_at d0 a b term) -> In x (foci_at d a b term))
  /\ (forall a b term x, In x (foci_at d a b term) ->
        In x (foci_at d0 a b term)
        \/ exists l c rest,
             In l lines /\ foci_fields l = Some (a, b, term, String c rest)
             /\ x = focus_normal_form c rest).
Proof.
  induction lines as [|l lines IH]; intros d0 d E; simpl in E.
  - inversion E; subst. repeat split; auto. intros ? [].
  - bind_inv E.
    destruct (readFociData_line_Ok _ _ _ E0) as (a & b & term & c & rest & Hf & ->).
    destruct (IH _ _ E) as (Hnew & Hmono & Hold).
    repeat split.
    + intros l' [<-|I]; auto.
      exists a, b, term, c, rest; split; auto.
      apply Hmono. rewrite foci_at_insert.
      destruct (key_eq_dec a a), (key_eq_dec b b), (key_eq_dec term term);
        try congruence.
      apply in_or_app; right; simpl; auto.
    + intros a' b' t' y I. apply Hmono. rewrite foci_at_insert.
      destruct (key_eq_dec a' a) as [->|]; auto.
      destruct (key_eq_dec b' b) as [->|]; auto.
      destruct (key_eq_dec t' term) as [->|]; auto.
      apply in_or_app; auto.
    + intros a' b' t' y I. apply Hold in I.
      destruct I as [I|(l' & c' & rest' & I & Hf' & ->)].
      * rewrite foci_at_insert in I.
        destruct (key_eq_dec a' a) as [->|]; auto.
        destruct (key_eq_dec b' b) as [->|]; auto.
        destruct (key_eq_dec t' term) as [->|]; auto.
        apply in_app_or in I. destruct I as [I|[<-|[]]]; auto.
        right. exists l, c, rest. simpl; auto.
      * right. exists l', c', rest'. simpl; auto.
Qed.

Lemma readFociData_line_fields (d : foci_data) (l : string) (a b : Z)
  (term : string) (c : ascii) (rest : string) :
  foci_fields l = Some (a, b, term, String c rest) ->
  readFociData_line d l
  = Ok (foci_insert a b term (focus_normal_form c rest) d).
Proof.
  unfold foci_fields, readFociData_line.
  destruct (split tab l) as [|lang [|spkr [|tn [|term' [|foci [|? ?]]]]]];
    try discriminate.
  destruct (py_int lang) as [a'|]; [|discriminate].
  destruct (py_int spkr) as [b'|]; [|discriminate].
  intros E; inversion E; subst. cbv zeta. unfold foci_data in *. cbn [bind].
  rewrite DictFacts.getitem_ensure. cbn [bind].
  rewrite DictFacts.getitem_ensure. cbn [bind].
  rewrite newFoci_normal_form. cbn [bind].
  rewrite DictFacts.getitem_ensure. cbn [bind].
  rewrite !DictFacts.set_ensure. reflexivity.
Qed.

(** A file all of whose lines have the five fields, integer language and
    speaker and a focus that is not empty, is read. *)
Lemma readFociData_accepted (text : string) :
  (forall l, In l (_read_lines text) ->
     exists a b term c rest,
       foci_fields l = Some (a, b, term, String c rest)) ->
  exists d, readFociData text = Ok d.
Proof.
  intros Hall. unfold readFociData, readFociData_lines.
  apply for_each_total. intros d l I.
  destruct (Hall l I) as (a & b & term & c & rest & E).
  rewrite (readFociData_line_fields d l a b term c rest E). eauto.
Qed.

(** C1.  Every line of a foci file that [readFociData] accepts has five
    fields, and the list stored under its language, speaker and term holds
    the focus in the form the code gives it: ["A:0"] when the raw focus
    starts with [A], ["J:0"] when it starts with [J], and otherwise the
    first character, a colon and the remainder.  Conversely every stored
    focus is the form of some line of the file. *)
Theorem readFociData_stores_normal_form (text : string) (d : foci_data) :
  readFociData text = Ok d ->
  (forall l, In l (_read_lines text) ->
     exists a b term c rest langDict spkrDict fociList,
       foci_fields l = Some (a, b, term, String c rest)
       /\ Dict.get a d = Some langDict
       /\ Dict.get b langDict = Some spkrDict
       /\ Dict.get term spkrDict = Some fociList
       /\ In (focus_normal_form c rest) fociList)
  /\ (forall a b term langDict spkrDict fociList x,
        Dict.get a d = Some langDict ->
        Dict.get b langDict = Some spkrDict ->
        Dict.get term spkrDict = Some fociList ->
        In x fociList ->
        exists l c rest,
          In l (_read_lines text)
          /\ foci_fields l = Some (a, b, term, String c rest)
          /\ x = focus_normal_form c rest).
Proof.
  unfold readFociData, readFociData_lines. intros E.
  destruct (readFociData_lines_spec _ _ _ E) as (Hnew & _ & Hold).
  split.
  - intros l I.
    destruct (Hnew l I) as (a & b & term & c & rest & Hf & Hin).
    destruct (foci_at_chain _ _ _ _ _ Hin) as (ld & sd & fl & ? & ? & ? & ?).
    exists a, b, term, c, rest, ld, sd, fl. auto.
  - intros a b term ld sd fl x Ha Hb Ht Hx.
    destruct (Hold a b term x) as [I|I]; auto.
    + unfold foci_at, Dict.get_default. rewrite Ha, Hb, Ht. exact Hx.
    + destruct I.
Qed.

End FociFacts.

Module FociExamples.
Import PyStr wcsHelper FociFacts Notions Samples.

Example readFociData_two_lines :
  readFociData (unlines [tsv ["1"; "1"; "3"; "bu"; "G29"];
                         tsv ["1"; "1"; "3"; "bu"; "J12"]])
  = Ok [(1, [(1, [("bu", ["G:29"; "J:0"])])])].
Proof. reflexivity. Qed.

(** The raw focus [A5] is stored as ["A:0"], which is not ["A0"]. *)
Lemma readFociData_A5_stored_with_colon :
  readFociData (tsv ["1"; "1"; "3"; "bu"; "A5"])
  = Ok [(1, [(1, [("bu", ["A:0"])])])]
  /\ ~ In "A0" (foci_at [(1, [(1, [("bu", ["A:0"])])])] 1 1 "bu").
Proof.
  split; [reflexivity|].
  simpl. intros [E|[]]. discriminate E.
Qed.

Lemma readFociData_stores_normal_form_witness :
  readFociData (tsv ["1"; "1"; "3"; "bu"; "J12"])
  = Ok [(1, [(1, [("bu", ["J:0"])])])]
  /\ exists l c rest,
       In l (_read_lines (tsv ["1"; "1"; "3"; "bu"; "J12"]))
       /\ foci_fields l = Some (1, 1, "bu", String c rest)
       /\ "J:0" = focus_normal_form c rest.
Proof.
  split; [reflexivity|].
  refine (proj2 (readFociData_stores_normal_form
                   (tsv ["1"; "1"; "3"; "bu"; "J12"])
                   [(1, [(1, [("bu", ["J:0"])])])] eq_refl)
                1 1 "bu" [(1, [("bu", ["J:0"])])] [("bu", ["J:0"])] ["J:0"] "J:0"
                eq_refl eq_refl eq_refl _).
  simpl; auto.
Defined.

End FociExamples.

(** ** Chip table *)

Module ChipFacts.
Import PyStr PySeq wcsHelper Notions.

Lemma py_int_error (s : string) (e : pyerr) : py_int s = Err e -> e = ValueError.
Proof.
  unfold py_int.
  repeat match goal with
         | |- context [match ?x with _ => _ end] => destruct x
         end; congruence.
Qed.

Lemma py_float_error (s : string) (e : pyerr) :
  PyFloat.py_float s = Err e -> e = ValueError.
Proof.
  unfold PyFloat.py_float.
  repeat match goal with
         | |- context [match ?x with _ => _ end] => destruct x
         | |- context [if ?x then _ else _] => destruct x
         end; congruence.
Qed.

Lemma last2_two {A : Type} (l : list A) (dflt : A) :
  (2 <= List.length l)%nat ->
  exists a, last2 l = [a; last l dflt].
Proof.
  unfold last2. induction l as [|x l IH]; simpl; intros Hl; [lia|].
  destruct l as [|y [|z l]]; simpl in *; [lia| |].
  - exists x; reflexivity.
  - destruct IH as [a Ha]; [lia|].
    exists a. rewrite <- Ha. simpl. rewrite Nat.sub_0_r. reflexivity.
Qed.

Lemma last2_one {A : Type} (l : list A) :
  List.length l = 1%nat -> exists a, last2 l = [a].
Proof.
  destruct l as [|x [|y l]]; simpl; intros Hl; try discriminate.
  exists x; reflexivity.
Qed.

Lemma split_length (sep : ascii) (s : string) :
  (1 <= List.length (split sep s))%nat.
Proof.
  induction s as [|c s IH]; simpl; [lia|].
  destruct (Ascii.eqb c sep); simpl; [lia|].
  destruct (split sep s); simpl in *; lia.
Qed.

Lemma _get_munsell_dicts_row_error st row e :
  _get_munsell_dicts_row st row = Err e -> e = ValueError.
Proof.
  unfold _get_munsell_dicts_row. destruct st as [m c].
  destruct (py_int (hd EmptyString (split tab row))) eqn:E; simpl.
  - destruct (last2 (split tab row)) as [|L [|H [|? ?]]]; try congruence.
    destruct (py_int H) eqn:EH; simpl; [discriminate|].
    intros E'; inversion E'; subst. eapply py_int_error; eauto.
  - intros E'; inversion E'; subst. eapply py_int_error; eauto.
Qed.

Lemma _get_clab_dict_row_error st row e :
  _get_clab_dict_row st row = Err e -> e = ValueError.
Proof.
  unfold _get_clab_dict_row.
  destruct (py_int (hd EmptyString (split tab row))) eqn:E; simpl.
  - destruct (map_result _ _) eqn:M; simpl; [discriminate|].
    intros E'; inversion E'; subst.
    eapply map_result_error; [|exact M]. apply py_float_error.
  - intros E'; inversion E'; subst. eapply py_int_error; eauto.
Qed.

Lemma _get_rgb_dict_row_error st row e :
  _get_rgb_dict_row st row = Err e -> e = ValueError.
Proof.
  unfold _get_rgb_dict_row.
  destruct (py_int (hd EmptyString (split tab row))) eqn:E; simpl.
  - destruct (map_result _ _) eqn:M; simpl; [discriminate|].
    intros E'; inversion E'; subst.
    eapply map_result_error; [|exact M]. apply py_int_error.
  - intros E'; inversion E'; subst. eapply py_int_error; eauto.
Qed.

(** A rejected row makes one of the three passes fail, whatever was read
    before it. *)
Lemma rejected_row_fails (row : string) :
  rejected_row row ->
  (forall st, _get_munsell_dicts_row st row = Err ValueError)
  \/ (forall st, _get_clab_dict_row st row = Err ValueError)
  \/ (forall st, _get_rgb_dict_row st row = Err ValueError).
Proof.
  unfold rejected_row; cbv zeta.
  destruct (py_int (hd EmptyString (split tab row))) as [i|e] eqn:Ei.
  2:{ intros _. left. intros [m c]. unfold _get_munsell_dicts_row.
      rewrite Ei. simpl. f_equal. eapply py_int_error; eauto. }
  intros [E|[E|[E|[(v & I & E)|(v & I & E)]]]].
  - discriminate.
  - left. intros [m c]. unfold _get_munsell_dicts_row. rewrite Ei; simpl.
    destruct (last2_one _ E) as [a ->]. reflexivity.
  - left. intros [m c]. unfold _get_munsell_dicts_row. rewrite Ei; simpl.
    destruct (Nat.le_gt_cases 2 (List.length (split tab row))) as [L|L].
    + destruct (last2_two _ EmptyString L) as [a ->]. rewrite E. reflexivity.
    + pose proof (split_length tab row).
      destruct (last2_one (split tab row)) as [a ->]; [lia|reflexivity].
  - right; right. intros st. unfold _get_rgb_dict_row. rewrite Ei; simpl.
    rewrite (map_result_fails py_int ValueError _ v py_int_error I E).
    reflexivity.
  - right; left. intros st. unfold _get_clab_dict_row. rewrite Ei; simpl.
    rewrite (map_result_fails PyFloat.py_float ValueError _ v py_float_error I E).
    reflexivity.
Qed.

(** C2.  A chip file with a row whose first field is not an integer, that
    has a single field, whose last field is not an integer, one of whose
    fields 1 to 3 is not an integer or one of whose fields 4 to 6 is not a
    float is refused with a [ValueError].  The number of fields is not
    otherwise checked. *)
Theorem readChipData_rejected_row (lines : list string) (row : string) :
  In row lines -> rejected_row row ->
  readChipData_lines lines = Err ValueError.
Proof.
  intros I R. unfold readChipData_lines.
  unfold _get_munsell_dicts, _get_clab_dict, _get_rgb_dict.
  pose proof (for_each_error _get_munsell_dicts_row ValueError lines
                _get_munsell_dicts_row_error) as Hm.
  pose proof (for_each_error _get_clab_dict_row ValueError lines
                _get_clab_dict_row_error) as Hc.
  destruct (rejected_row_fails row R) as [F|[F|F]].
  - rewrite (for_each_fails _ ValueError lines row); auto.
    apply _get_munsell_dicts_row_error.
  - destruct (for_each _get_munsell_dicts_row lines _) eqn:Em; simpl.
    + rewrite (for_each_fails _ ValueError lines row); auto.
      apply _get_clab_dict_row_error.
    + f_equal; eauto.
  - destruct (for_each _get_munsell_dicts_row lines _) eqn:Em; simpl.
    + destruct (for_each _get_clab_dict_row lines _) eqn:Ec; simpl.
      * rewrite (for_each_fails _ ValueError lines row); auto.
        apply _get_rgb_dict_row_error.
      * f_equal; eauto.
    + f_equal; eauto.
Qed.

Lemma py_int_not_rejected (s : string) :
  py_int s <> Err ValueError -> exists v, py_int s = Ok v.
Proof.
  destruct (py_int s) as [v|e] eqn:E; [eauto|].
  rewrite (py_int_error s e E). congruence.
Qed.

Lemma py_float_not_rejected (s : string) :
  PyFloat.py_float s <> Err ValueError -> exists v, PyFloat.py_float s = Ok v.
Proof.
  destruct (PyFloat.py_float s) as [v|e] eqn:E; [eauto|].
  rewrite (py_float_error s e E). congruence.
Qed.

(** Conversely, a file without a rejected row is read, however many fields
    its rows have. *)
Lemma readChipData_accepted (lines : list string) :
  (forall row, In row lines -> ~ rejected_row row) ->
  exists cd, readChipData_lines lines = Ok cd.
Proof.
  intros Hok.
  assert (forall row, In row lines ->
            (forall st, exists st', _get_munsell_dicts_row st row = Ok st')
            /\ (forall st, exists st', _get_clab_dict_row st row = Ok st')
            /\ (forall st, exists st', _get_rgb_dict_row st row = Ok st')) as Hrow.
  { intros row I. specialize (Hok row I). unfold rejected_row in Hok.
    cbv zeta in Hok.
    destruct (py_int_not_rejected (hd EmptyString (split tab row))) as [i Ei];
      [tauto|].
    assert (2 <= List.length (split tab row))%nat as Hlen.
    { pose proof (split_length tab row). lia. }
    destruct (last2_two _ EmptyString Hlen) as [a Ea].
    destruct (py_int_not_rejected (last (split tab row) EmptyString)) as [h Eh];
      [tauto|].
    destruct (map_result_Ok py_int (slice 1 4 (split tab row))) as [rgb Ergb].
    { intros v Iv. apply py_int_not_rejected. intros E. apply Hok.
      right; right; right; left. eauto. }
    destruct (map_result_Ok PyFloat.py_float (slice 4 7 (split tab row)))
      as [clab Eclab].
    { intros v Iv. apply py_float_not_rejected. intros E. apply Hok.
      right; right; right; right. eauto. }
    split; [|split].
    - intros [m c]. unfold _get_munsell_dicts_row. rewrite Ei, Ea. simpl.
      rewrite Eh. simpl. eauto.
    - intros st. unfold _get_clab_dict_row. rewrite Ei. simpl.
      rewrite Eclab. simpl. eauto.
    - intros st. unfold _get_rgb_dict_row. rewrite Ei. simpl.
      rewrite Ergb. simpl. eauto. }
  unfold readChipData_lines, _get_munsell_dicts, _get_clab_dict, _get_rgb_dict.
  destruct (for_each_total _get_munsell_dicts_row lines)
    with (s := (@Dict.empty string Z, @Dict.empty Z (string * Z)))
    as [md ->].
  { intros st row I. apply (Hrow row I). }
  destruct (for_each_total _get_clab_dict_row lines)
    with (s := @Dict.empty Z (list pyfloat))
    as [clab ->].
  { intros st row I. apply (Hrow row I). }
  destruct (for_each_total _get_rgb_dict_row lines)
    with (s := @Dict.empty Z (list Z))
    as [rgb ->].
  { intros st row I. apply (Hrow row I). }
  simpl. eauto.
Qed.

End ChipFacts.

Module ChipExamples.
Import PyStr PySeq wcsHelper ChipFacts Notions Samples.

Example readChipData_nine_fields :
  readChipData (tsv ["1"; "240"; "240"; "240"; "96.5"; "-0.1"; "0.3"; "A"; "0"])
  = Ok {| munsell_to_chip := [("A0", 1)];
          chip_to_munsell := [(1, ("A", 0))];
          chip_to_clab :=
            [(1, [FDec false 965 (-1); FDec true 1 (-1); FDec false 3 (-1)])];
          chip_to_rgb := [(1, [240; 240; 240])] |}.
Proof. reflexivity. Qed.

(** A row of three fields is read without complaint: it yields a Munsell
    entry, a two-valued RGB tuple and an empty CIELAB tuple. *)
Lemma readChipData_three_fields_accepted :
  List.length (split tab (tsv ["1"; "2"; "3"])) = 3%nat
  /\ readChipData (tsv ["1"; "2"; "3"])
     = Ok {| munsell_to_chip := [("23", 1)];
             chip_to_munsell := [(1, ("2", 3))];
             chip_to_clab := [(1, [])];
             chip_to_rgb := [(1, [2; 3])] |}.
Proof. split; reflexivity. Qed.

Lemma readChipData_rejected_row_witness :
  let row := tsv ["1"; "240"; "240"; "x"; "96.5"; "-0.1"; "0.3"; "A"; "0"] in
  In row [row] /\ rejected_row row /\ readChipData_lines [row] = Err ValueError.
Proof.
  intros row.
  assert (In row [row]) as I by (left; reflexivity).
  assert (rejected_row row) as R.
  { right; right; right; left. exists "x". split; [|reflexivity].
    vm_compute. auto. }
  exact (conj I (conj R (readChipData_rejected_row [row] row I R))).
Defined.

End ChipExamples.

(** ** Speaker data and its table *)

Module SpeakerFacts.
Import wcsHelper wcs_table_helper Notions Samples.

(** C3.  On the speaker file [1<TAB>1<TAB>30<TAB>M], [readSpeakerData]
    returns [{1: {1: (30, "M")}}]; [loadSpeakerTable] then takes element 0
    of the pair, the integer 30, and fails to unpack it. *)
Theorem speaker_pipeline_TypeError :
  readSpeakerData (tsv ["1"; "1"; "30"; "M"])
  = Ok [(1, [(1, PTuple [PInt 30; PStr "M"])])]
  /\ loadSpeakerTable [(1, [(1, PTuple [PInt 30; PStr "M"])])] = Err TypeError.
Proof. split; reflexivity. Qed.

(** The table is built when each record is a one-element list holding the
    pair. *)
Example loadSpeakerTable_list_of_pairs :
  loadSpeakerTable [(1, [(1, PList [PTuple [PInt 30; PStr "M"]])])]
  = Ok [("Language", [PInt 1]); ("Speaker", [PInt 1]);
        ("Age", [PInt 30]); ("Gender", [PStr "M"])].
Proof. reflexivity. Qed.

Lemma set_nonempty {K V : Type} `{Hashable K} (k : K) (v : V) (d : Dict.t K V) :
  Dict.set k v d <> [].
Proof.
  destruct d as [|[k0 v0] d]; simpl; [discriminate|].
  destruct (key_eq_dec k k0); discriminate.
Qed.

Lemma readSpeakerData_line_inv (d d' : speaker_data) (l : string) :
  speaker_inv d -> readSpeakerData_line d l = Ok d' ->
  speaker_inv d' /\ d' <> [].
Proof.
  unfold readSpeakerData_line.
  destruct (PyStr.split PyStr.tab l) as [|lang [|spkr [|age [|gender [|? ?]]]]];
    try discriminate.
  intros Hinv E. cbv zeta in E. unfold speaker_data in *.
  bind_inv E. rewrite DictFacts.getitem_ensure in E; simpl in E.
  bind_inv E. bind_inv E. rewrite DictFacts.set_ensure in E.
  inversion E; subst. split; [|apply set_nonempty].
  intros lang' ld' I. apply DictFacts.In_set in I. destruct I as [I|I]; [|eauto].
  inversion I; subst. split; [apply set_nonempty|].
  intros spkr' rec I'. apply DictFacts.In_set in I'. destruct I' as [I'|I'].
  - inversion I'; subst. eauto.
  - unfold Dict.get_default in I'.
    destruct (Dict.get x d) as [ld|] eqn:G; [|destruct I'].
    apply DictFacts.get_Some_In in G. eapply Hinv; eauto.
Qed.

Lemma loadSpeakerTable_pairs (d : speaker_data) :
  d <> [] -> speaker_inv d -> loadSpeakerTable d = Err TypeError.
Proof.
  intros N Hinv. destruct d as [|[lang ld] d]; [congruence|].
  destruct (Hinv lang ld (or_introl eq_refl)) as [Nl Hrec].
  destruct ld as [|[spkr rec] ld]; [congruence|].
  destruct (Hrec spkr rec (or_introl eq_refl)) as (age & gender & ->).
  unfold loadSpeakerTable. cbn [Dict.keys map fst for_each].
  unfold loadSpeakerTable_lang at 1. unfold Dict.getitem at 1.
  cbn [Dict.get]. destruct (key_eq_dec lang lang); [|congruence].
  cbn [bind Dict.keys map fst for_each].
  unfold loadSpeakerTable_spkr at 1. unfold Dict.getitem.
  cbn [Dict.get]. destruct (key_eq_dec lang lang); [|congruence].
  cbn [bind Dict.get]. destruct (key_eq_dec spkr spkr); [|congruence].
  reflexivity.
Qed.

(** X1.  Whatever the speaker file, the table cannot be built from what
    [readSpeakerData] returns: [loadSpeakerTable] raises [TypeError] on it,
    since each record is a pair and not a list of pairs. *)
Lemma readSpeakerData_then_loadSpeakerTable (text : string) (d : speaker_data) :
  readSpeakerData text = Ok d -> loadSpeakerTable d = Err TypeError.
Proof.
  unfold readSpeakerData, readSpeakerData_lines, _read_lines.
  pose proof (ChipFacts.split_length PyStr.newline (PyStr.rstrip text)) as L.
  destruct (PyStr.split PyStr.newline (PyStr.rstrip text)) as [|l ls];
    [simpl in L; lia|].
  cbn [for_each]. intros E. bind_inv E.
  assert (speaker_inv x /\ x <> []) as Hx.
  { apply (readSpeakerData_line_inv Dict.empty x l); auto. intros ? ? []. }
  assert (speaker_inv d /\ d <> []) as [Hd Nd].
  { apply (for_each_invariant readSpeakerData_line
             (fun d => speaker_inv d /\ d <> []) ls) with (s := x); auto.
    intros s l' s' _ [Hs _] Es. eapply readSpeakerData_line_inv; eauto. }
  apply loadSpeakerTable_pairs; assumption.
Qed.

End SpeakerFacts.

(** ** Mode maps *)

Module ModeFacts.
Import PySeq wcsHelper Notions.

Lemma sorted_desc_head {A : Type} (key : A -> Z) (l : list A) :
  l <> [] ->
  exists m l1 l2 rest,
    l = l1 ++ m :: l2 /\ sorted_desc key l = m :: rest
    /\ (forall y, In y l1 -> key y < key m)
    /\ (forall y, In y l2 -> key y <= key m).
Proof.
  induction l as [|x l IH]; intros N; [congruence|].
  destruct l as [|x' l'].
  - exists x, [], [], []. simpl. repeat split; intros ? [].
  - destruct IH as (m & l1 & l2 & rest & El & Es & H1 & H2); [discriminate|].
    change (sorted_desc key (x :: x' :: l'))
      with (insert_desc key x (sorted_desc key (x' :: l'))).
    rewrite Es. simpl. destruct (key x <? key m) eqn:C.
    + apply Z.ltb_lt in C.
      exists m, (x :: l1), l2, (insert_desc key x rest).
      rewrite El. repeat split; auto.
      intros y [<-|I]; auto.
    + apply Z.ltb_ge in C.
      exists x, [], (x' :: l'), (m :: rest). repeat split; auto.
      * intros ? [].
      * intros y I. rewrite El in I. apply in_app_or in I.
        destruct I as [I|[<-|I]]; auto.
        -- apply H1 in I; lia.
        -- apply H2 in I; lia.
Qed.

Lemma remove_split (x m : string) (L a b : list string) :
  remove key_eq_dec x L = a ++ m :: b ->
  exists a' b', L = a' ++ m :: b' /\ (forall t, In t b -> In t b') /\ m <> x.
Proof.
  revert a. induction L as [|y L IH]; intros a E; simpl in E.
  - destruct a; discriminate.
  - destruct (key_eq_dec x y) as [->|N].
    + destruct (IH a E) as (a' & b' & -> & Hb & Hm).
      exists (y :: a'), b'. auto.
    + destruct a as [|y' a]; simpl in E; inversion E; subst.
      * exists [], L. repeat split; auto.
        intros t I. apply in_remove in I. tauto.
      * destruct (IH a H1) as (a' & b' & -> & Hb & Hm).
        exists (y' :: a'), b'. auto.
Qed.

(** [dedup] lists the elements by first occurrence. *)
Lemma dedup_order (l l1 l2 : list string) (m t : string) :
  dedup l = l1 ++ m :: l2 -> In t l2 ->
  (first_index m l < first_index t l)%nat.
Proof.
  revert l1 l2. induction l as [|x l IH]; intros l1 l2 E I; simpl in E.
  - destruct l1; discriminate.
  - destruct l1 as [|x1 l1]; simpl in E; injection E as Ex El.
    + subst m. rewrite <- El in I.
      apply in_remove in I. destruct I as [_ N]. simpl.
      destruct (string_dec x x); [|congruence].
      destruct (string_dec t x); [congruence|lia].
    + subst x1.
      destruct (remove_split _ _ _ _ _ El) as (a' & b' & E' & Hb & Hm).
      assert (In t (remove key_eq_dec x (dedup l))) as It.
      { rewrite El. apply in_or_app; right; right; exact I. }
      apply in_remove in It. destruct It as [_ Nt]. simpl.
      destruct (string_dec m x); [congruence|].
      destruct (string_dec t x); [congruence|].
      apply ->Nat.succ_lt_mono. eapply IH; eauto.
Qed.

Lemma dedup_In (l : list string) (t : string) : In t (dedup l) <-> In t l.
Proof.
  induction l as [|x l IH]; simpl; [tauto|].
  split.
  - intros [E|I]; auto. apply in_remove in I. right; apply IH; tauto.
  - intros [E|I]; auto.
    destruct (string_dec x t) as [E|N]; auto.
    right. apply in_in_remove; [congruence|]. apply IH; exact I.
Qed.

Lemma freq_fold_count (l : list string) (freq : Dict.t string Z) (t : string) :
  Dict.get_default t 0 (fold_left freq_step l freq)
  = Dict.get_default t 0 freq + Z.of_nat (count_occ string_dec l t).
Proof.
  revert freq. induction l as [|x l IH]; intros freq; simpl; [lia|].
  rewrite IH. unfold freq_step at 1. rewrite get_default_set.
  destruct (key_eq_dec t x) as [E|N]; destruct (string_dec x t) as [E'|N'];
    try congruence; subst; lia.
Qed.

Lemma filter_remove (p : string -> bool) (x : string) (L : list string) :
  filter p (remove key_eq_dec x L)
  = filter (fun y => p y && negb (if key_eq_dec y x then true else false)) L.
Proof.
  induction L as [|y L IH]; simpl; [reflexivity|].
  destruct (key_eq_dec x y) as [->|N].
  - destruct (key_eq_dec y y); [|congruence]. rewrite andb_false_r. exact IH.
  - destruct (key_eq_dec y x); [congruence|]. simpl. rewrite andb_true_r.
    destruct (p y); rewrite IH; reflexivity.
Qed.

Lemma freq_fold_keys (l : list string) (freq : Dict.t string Z) :
  Dict.keys (fold_left freq_step l freq)
  = Dict.keys freq ++ filter (fun y => negb (Dict.mem y freq)) (dedup l).
Proof.
  revert freq. induction l as [|x l IH]; intros freq; simpl.
  - rewrite app_nil_r; reflexivity.
  - rewrite IH. unfold freq_step at 1. rewrite DictFacts.keys_set.
    rewrite filter_remove.
    assert (forall y, negb (Dict.mem y (freq_step freq x))
                      = negb (Dict.mem y freq)
                        && negb (if key_eq_dec y x then true else false)) as Hmem.
    { intros y. unfold freq_step, Dict.mem. rewrite DictFacts.get_set.
      destruct (key_eq_dec y x); [rewrite andb_false_r; reflexivity|].
      rewrite andb_true_r; reflexivity. }
    rewrite (filter_ext _ _ Hmem).
    destruct (Dict.mem x freq) eqn:M; simpl; [reflexivity|].
    rewrite <- app_assoc. reflexivity.
Qed.

Lemma freq_of_keys (l : list string) : Dict.keys (freq_of l) = dedup l.
Proof.
  unfold freq_of. change (fun freq i => _) with freq_step.
  rewrite freq_fold_keys. simpl.
  induction (dedup l) as [|y L IH]; simpl; [reflexivity|]. f_equal; exact IH.
Qed.

Lemma freq_of_count (l : list string) (t : string) :
  Dict.get_default t 0 (freq_of l) = Z.of_nat (count_occ string_dec l t).
Proof.
  unfold freq_of. change (fun freq i => _) with freq_step.
  rewrite freq_fold_count. reflexivity.
Qed.

(** The mode of a non-empty list: a term of greatest count, and among those
    the one whose first occurrence comes first. *)
Lemma findMode_spec (aList : list string) :
  aList <> [] ->
  exists mode,
    findMode aList = Ok mode
    /\ In mode aList
    /\ (forall t, (count_occ string_dec aList t
                   <= count_occ string_dec aList mode)%nat)
    /\ (forall t, In t aList ->
          count_occ string_dec aList t = count_occ string_dec aList mode ->
          (first_index mode aList <= first_index t aList)%nat).
Proof.
  intros N. unfold findMode. cbv zeta.
  set (key := fun k => Dict.get_default k 0 (freq_of aList)).
  assert (forall t, key t = Z.of_nat (count_occ string_dec aList t)) as Hkey
    by (intros; apply freq_of_count).
  assert (Dict.keys (freq_of aList) <> []) as N'.
  { rewrite freq_of_keys. destruct aList; [congruence|discriminate]. }
  destruct (sorted_desc_head key _ N') as (m & l1 & l2 & rest & El & -> & H1 & H2).
  rewrite freq_of_keys in El.
  assert (In m aList) as Im.
  { apply dedup_In. rewrite El. apply in_or_app; right; left; reflexivity. }
  exists m. repeat split; auto.
  - intros t. destruct (in_dec string_dec t aList) as [I|I].
    + apply dedup_In in I. rewrite El in I. apply in_app_or in I.
      destruct I as [I|[<-|I]]; [apply H1 in I|lia|apply H2 in I];
        rewrite !Hkey in I; lia.
    + apply (count_occ_not_In string_dec) in I. lia.
  - intros t I C. apply dedup_In in I. rewrite El in I. apply in_app_or in I.
    destruct I as [I|[<-|I]].
    + apply H1 in I. rewrite !Hkey in I. lia.
    + lia.
    + apply Nat.lt_le_incl. eapply dedup_order; eauto.
Qed.

End ModeFacts.

Module ModeMapFacts.
Import PySeq wcsHelper ModeFacts Notions.

Section SetFacts.
Context {K V : Type} `{Hashable K}.

Lemma set_fresh (k : K) (v : V) (d : Dict.t K V) :
  ~ In k (Dict.keys d) -> Dict.set k v d = d ++ [(k, v)].
Proof.
  induction d as [|[k0 v0] d IH]; simpl; intros N; [reflexivity|].
  destruct (key_eq_dec k k0) as [->|N0]; [tauto|].
  rewrite IH; tauto.
Qed.

Lemma get_default_fresh (k : K) (dflt : V) (d : Dict.t K V) :
  ~ In k (Dict.keys d) -> Dict.get_default k dflt d = dflt.
Proof.
  intros N. apply DictFacts.get_None_keys in N.
  unfold Dict.get_default. rewrite N. reflexivity.
Qed.

End SetFacts.

Lemma allTerms_add_Ok (allTerms : Dict.t Z (list string)) (chip : Z)
  (term : string) :
  allTerms_add allTerms (chip, term)
  = Ok (Dict.set chip (Dict.get_default chip [] allTerms ++ [term]) allTerms).
Proof.
  unfold allTerms_add. cbv zeta.
  rewrite DictFacts.getitem_ensure. simpl.
  rewrite DictFacts.set_ensure. reflexivity.
Qed.

Lemma allTerms_add_inv allTerms ct allTerms' :
  allTerms_inv allTerms -> allTerms_add allTerms ct = Ok allTerms' ->
  allTerms_inv allTerms'.
Proof.
  destruct ct as [chip term]. rewrite allTerms_add_Ok.
  intros [W NE] E; inversion E; subst. split.
  - apply DictFacts.wf_set; exact W.
  - intros c ts I. apply DictFacts.In_set in I. destruct I as [I|I]; eauto.
    inversion I; subst. destruct (Dict.get_default chip [] allTerms); discriminate.
Qed.

Lemma allTerms_of_total (langData : lang_naming) :
  exists allTerms, allTerms_of langData = Ok allTerms /\ allTerms_inv allTerms.
Proof.
  unfold allTerms_of.
  set (body := fun allTerms (spkrData : Dict.t Z string) =>
                 for_each allTerms_add (Dict.items spkrData) allTerms).
  destruct (for_each_total body (Dict.values langData))
    with (s := @Dict.empty Z (list string))
    as [allTerms E].
  { intros s x _. apply for_each_total. intros s' [c t] _.
    rewrite allTerms_add_Ok. eauto. }
  exists allTerms. split; [exact E|].
  apply (for_each_invariant body allTerms_inv (Dict.values langData))
    with (s := @Dict.empty Z (list string)); auto.
  - intros s x s' _ Hs Hx.
    apply (for_each_invariant allTerms_add allTerms_inv (Dict.items x))
      with (s := s);
      auto.
    intros s0 ct s0' _. apply allTerms_add_inv.
  - split; [constructor|intros ? ? []].
Qed.

Lemma modeMap_loop (items : list (Z * list string)) :
  NoDup (map fst items) ->
  (forall chip terms, In (chip, terms) items -> terms <> []) ->
  forall m0, exists m,
    for_each modeMap_add items m0 = Ok m
    /\ (forall chip, ~ In chip (map fst items) ->
          Dict.get chip m = Dict.get chip m0)
    /\ (forall chip terms, In (chip, terms) items ->
          exists mode, findMode terms = Ok mode /\ Dict.get chip m = Some mode).
Proof.
  induction items as [|[c ts] items IH]; intros ND NE m0; simpl.
  - exists m0. repeat split; auto. intros ? ? [].
  - inversion ND as [|? ? Hc ND']; subst.
    destruct (findMode_spec ts) as (mode & Em & _).
    { apply (NE c); left; reflexivity. }
    rewrite Em; simpl.
    destruct (IH ND' (fun chip terms I => NE chip terms (or_intror I))
                 (Dict.set c mode m0)) as (m & E & Hout & Hin).
    exists m. repeat split; auto.
    + intros chip N. rewrite Hout by tauto.
      apply DictFacts.get_set_other. tauto.
    + intros chip terms [I|I]; auto.
      inversion I; subst. exists mode. split; auto.
      rewrite Hout by exact Hc. apply DictFacts.get_set_same.
Qed.

(** C4.  [makeModeMap] always returns, and for every chip the term it gives
    is a mode of the terms accumulated for that chip: no term occurs more
    often, and every term occurring as often first occurs no earlier in the
    accumulated list. *)
Theorem makeModeMap_modal_term (langData : lang_naming) :
  exists allTerms modeMap,
    allTerms_of langData = Ok allTerms
    /\ makeModeMap (without_lang langData) = Ok modeMap
    /\ forall chip terms,
         Dict.get chip allTerms = Some terms ->
         exists mode,
           Dict.get chip modeMap = Some mode
           /\ In mode terms
           /\ (forall t, (count_occ string_dec terms t
                          <= count_occ string_dec terms mode)%nat)
           /\ (forall t, In t terms ->
                 count_occ string_dec terms t = count_occ string_dec terms mode ->
                 (first_index mode terms <= first_index t terms)%nat).
Proof.
  destruct (allTerms_of_total langData) as (allTerms & E & W & NE).
  destruct (modeMap_loop (Dict.items allTerms) W NE Dict.empty)
    as (modeMap & Em & _ & Hin).
  exists allTerms, modeMap. split; [exact E|]. split.
  - unfold makeModeMap. simpl. rewrite E. simpl. exact Em.
  - intros chip terms G.
    apply DictFacts.get_Some_In in G.
    destruct (Hin chip terms G) as (mode & Ef & Eg).
    destruct (findMode_spec terms (NE chip terms G)) as (mode' & Ef' & Hspec).
    rewrite Ef in Ef'. inversion Ef'; subst mode'.
    exists mode. split; auto.
Qed.

(** With a language selector the language's map is looked up first. *)
Remark makeModeMap_with_lang (data : naming) (lang : Z) (langData : lang_naming) :
  Dict.get lang data = Some langData ->
  makeModeMap (with_lang data lang) = makeModeMap (without_lang langData).
Proof.
  intros G. unfold makeModeMap, Dict.getitem. rewrite G. reflexivity.
Qed.

Lemma findMode_singleton (t : string) : findMode [t] = Ok t.
Proof. reflexivity. Qed.

Lemma allTerms_single_speaker (m : Dict.t Z string) :
  forall acc : Dict.t Z (list string),
    NoDup (Dict.keys acc ++ Dict.keys m) ->
    for_each allTerms_add (Dict.items m) acc
    = Ok (acc ++ map (fun ct => (fst ct, [snd ct])) m).
Proof.
  induction m as [|[c t] m IH]; intros acc ND; simpl.
  - rewrite app_nil_r; reflexivity.
  - assert (~ In c (Dict.keys acc)) as Nc.
    { intros I. simpl in ND. apply NoDup_remove_2 in ND. apply ND.
      apply in_or_app; auto. }
    fold (allTerms_add acc (c, t)). rewrite allTerms_add_Ok.
    rewrite get_default_fresh, set_fresh by exact Nc. simpl.
    unfold Dict.items in IH. rewrite IH.
    + rewrite <- app_assoc. reflexivity.
    + unfold Dict.keys in *. rewrite map_app, <- app_assoc. simpl. exact ND.
Qed.

Lemma modeMap_single_speaker (m : Dict.t Z string) :
  forall acc : Dict.t Z string,
    NoDup (Dict.keys acc ++ Dict.keys m) ->
    for_each modeMap_add (map (fun ct => (fst ct, [snd ct])) m) acc
    = Ok (acc ++ m).
Proof.
  induction m as [|[c t] m IH]; intros acc ND.
  - simpl. rewrite app_nil_r; reflexivity.
  - assert (~ In c (Dict.keys acc)) as Nc.
    { intros I. simpl in ND. apply NoDup_remove_2 in ND. apply ND.
      apply in_or_app; auto. }
    cbn [map for_each fst snd]. unfold modeMap_add at 1.
    rewrite findMode_singleton. cbn [bind].
    rewrite set_fresh by exact Nc. rewrite IH.
    + rewrite <- app_assoc. reflexivity.
    + unfold Dict.keys in *. rewrite map_app, <- app_assoc. simpl. exact ND.
Qed.

(** C5.  The mode map of a language with a single speaker is that speaker's
    naming map, chip for chip and in the same order. *)
Theorem makeModeMap_single_speaker (s : Z) (m : Dict.t Z string) :
  Dict.wf m ->
  makeModeMap (without_lang [(s, m)]) = Ok m.
Proof.
  intros W. unfold makeModeMap, allTerms_of. simpl.
  rewrite (allTerms_single_speaker m Dict.empty W). simpl.
  apply (modeMap_single_speaker m Dict.empty W).
Qed.

End ModeMapFacts.

Module ModeExamples.
Import wcsHelper ModeFacts ModeMapFacts Notions Samples.

Example findMode_tie_first_seen : findMode ["b"; "a"; "a"; "b"; "c"] = Ok "b".
Proof. reflexivity. Qed.

Example findMode_tie_not_alphabetic : findMode ["c"; "b"; "b"; "c"; "a"] = Ok "c".
Proof. reflexivity. Qed.

Example findMode_empty : findMode [] = Err IndexError.
Proof. reflexivity. Qed.

Example makeModeMap_three_speakers :
  makeModeMap (without_lang [(1, [(1, "a"); (2, "b")]);
                             (2, [(1, "b"); (2, "b")]);
                             (3, [(1, "b"); (3, "c")])])
  = Ok [(1, "b"); (2, "b"); (3, "c")].
Proof. reflexivity. Qed.

Lemma makeModeMap_single_speaker_witness :
  Dict.wf [(1, "red"); (2, "green")]
  /\ makeModeMap (without_lang [(7, [(1, "red"); (2, "green")])])
     = Ok [(1, "red"); (2, "green")].
Proof.
  assert (Dict.wf [(1, "red"); (2, "green")]) as W.
  { unfold Dict.wf; simpl. constructor.
    - simpl. intros [E|[]]. discriminate E.
    - constructor; [intros []|constructor]. }
  exact (conj W (makeModeMap_single_speaker 7 _ W)).
Defined.

End ModeExamples.

(** ** Naming data *)

Module NamingFacts.
Import PyStr wcsHelper Notions.

Lemma readNamingData_line_Ok (d d' : naming) (l : string) :
  readNamingData_line d l = Ok d' ->
  exists a b c term,
    naming_fields l = Some (a, b, c, term) /\ d' = naming_insert a b c term d.
Proof.
  unfold readNamingData_line, naming_fields.
  destruct (split tab l) as [|lang [|spkr [|chipNum [|term [|? ?]]]]];
    try discriminate.
  intros E. cbv zeta in E. unfold naming in *.
  bind_inv E. rewrite E0.
  rewrite DictFacts.getitem_ensure in E; simpl in E.
  bind_inv E. rewrite E1.
  rewrite DictFacts.getitem_ensure in E; simpl in E.
  bind_inv E. rewrite E2.
  rewrite !DictFacts.set_ensure in E.
  inversion E; subst.
  exists x, x0, x1, term. split; reflexivity.
Qed.

Lemma term_at_insert (a b c a' b' c' : Z) (term : string) (d : naming) :
  term_at (naming_insert a b c term d) a' b' c'
  = if key_eq_dec (a', b', c') (a, b, c) then Some term else term_at d a' b' c'.
Proof.
  unfold term_at, naming_insert.
  rewrite get_default_set.
  destruct (key_eq_dec a' a) as [->|Na].
  - rewrite get_default_set.
    destruct (key_eq_dec b' b) as [->|Nb].
    + rewrite DictFacts.get_set.
      destruct (key_eq_dec c' c) as [->|Nc];
        destruct (key_eq_dec (a, b, _) (a, b, c)); congruence.
    + destruct (key_eq_dec (a, b', c') (a, b, c)); congruence.
  - destruct (key_eq_dec (a', b', c') (a, b, c)); congruence.
Qed.

Lemma get_default_empty_In {K V : Type} `{Hashable K} (k : K)
  (d : Dict.t K (Dict.t Z V)) :
  Dict.get_default k Dict.empty d = Dict.empty
  \/ In (k, Dict.get_default k Dict.empty d) d.
Proof.
  unfold Dict.get_default. destruct (Dict.get k d) eqn:E; auto.
  right. apply DictFacts.get_Some_In; exact E.
Qed.

Lemma wf3_insert (a b c : Z) (term : string) (d : naming) :
  wf3 d -> wf3 (naming_insert a b c term d).
Proof.
  intros [W Hd]. unfold naming_insert; cbv zeta.
  set (ld := Dict.get_default a Dict.empty d).
  set (sd := Dict.get_default b Dict.empty ld).
  assert (Dict.wf ld /\ forall b' sd', In (b', sd') ld -> Dict.wf sd') as [Wl Hl].
  { destruct (get_default_empty_In a d) as [E|I]; fold ld in E || fold ld in I.
    - rewrite E. split; [constructor|intros ? ? []].
    - apply (Hd a ld I). }
  assert (Dict.wf sd) as Ws.
  { destruct (get_default_empty_In b ld) as [E|I]; fold sd in E || fold sd in I.
    - rewrite E. constructor.
    - apply (Hl b sd I). }
  split; [apply DictFacts.wf_set; exact W|].
  intros a' ld' I. apply DictFacts.In_set in I.
  destruct I as [I|I]; [|exact (Hd a' ld' I)].
  inversion I; subst. split; [apply DictFacts.wf_set; exact Wl|].
  intros b' sd' I'. apply DictFacts.In_set in I'. destruct I' as [I'|I']; eauto.
  inversion I'; subst. apply DictFacts.wf_set; exact Ws.
Qed.

Lemma wf3_empty : wf3 Dict.empty.
Proof. split; [constructor|intros ? ? []]. Qed.

Section Keyed.
Context {K V E : Type}.
Variable f : K * V -> list E.
Variable key : E -> K.
Hypothesis f_key : forall kv e, In e (f kv) -> key e = fst kv.

Lemma NoDup_flat_map_keyed (d : list (K * V)) :
  NoDup (map fst d) ->
  (forall kv, In kv d -> NoDup (f kv)) ->
  NoDup (flat_map f d).
Proof.
  induction d as [|kv d IH]; simpl; intros ND Hf; [constructor|].
  inversion ND as [|? ? Hk ND']; subst.
  apply NoDup_app; auto.
  intros e I I'. apply in_flat_map in I'. destruct I' as (kv' & Ikv & Ie).
  apply Hk. rewrite <- (f_key _ _ I), (f_key _ _ Ie).
  apply in_map; exact Ikv.
Qed.

End Keyed.

Lemma entries_NoDup (d : naming) : wf3 d -> NoDup (entries d).
Proof.
  intros [W Hd]. unfold entries.
  apply NoDup_flat_map_keyed with (key := fun e => fst (fst e)); auto.
  - intros [a ld] e I. apply in_flat_map in I. destruct I as (bsd & _ & I).
    apply in_flat_map in I. destruct I as (ct & _ & [<-|[]]). reflexivity.
  - intros [a ld] I. destruct (Hd a ld I) as [Wl Hl]. simpl.
    apply NoDup_flat_map_keyed with (key := fun e => snd (fst e)); auto.
    + intros [b sd] e Ie. apply in_flat_map in Ie.
      destruct Ie as (ct & _ & [<-|[]]). reflexivity.
    + intros [b sd] Ib. simpl.
      apply NoDup_flat_map_keyed with (key := fun e => snd e).
      * intros ct e [<-|[]]. reflexivity.
      * apply (Hl b sd Ib).
      * intros ct _. constructor; [intros []|constructor].
Qed.

Lemma entries_In (d : naming) (a b c : Z) :
  wf3 d ->
  (In (a, b, c) (entries d) <-> exists t, term_at d a b c = Some t).
Proof.
  intros [W Hd]. unfold entries, term_at. split.
  - intros I. apply in_flat_map in I. destruct I as ([a' ld] & Ia & I).
    apply in_flat_map in I. destruct I as ([b' sd] & Ib & I).
    apply in_flat_map in I. destruct I as ([c' t] & Ic & [E|[]]).
    simpl in *. inversion E; subst.
    destruct (Hd a ld Ia) as [Wl Hl].
    unfold Dict.get_default.
    rewrite (DictFacts.In_get a ld d W Ia).
    rewrite (DictFacts.In_get b sd ld Wl Ib).
    exists t. apply DictFacts.In_get; auto. apply (Hl b sd Ib).
  - intros [t E]. unfold Dict.get_default in E.
    destruct (Dict.get a d) as [ld|] eqn:Ea; [|discriminate].
    destruct (Dict.get b ld) as [sd|] eqn:Eb; [|discriminate].
    apply in_flat_map. exists (a, ld). split.
    { apply DictFacts.get_Some_In; exact Ea. }
    apply in_flat_map. exists (b, sd). split.
    { apply DictFacts.get_Some_In; exact Eb. }
    apply in_flat_map. exists (c, t). split.
    { apply DictFacts.get_Some_In; exact E. }
    left; reflexivity.
Qed.

Lemma readNamingData_lines_spec (lines : list string) :
  forall d0 d, for_each readNamingData_line lines d0 = Ok d ->
  exists recs,
    map naming_fields lines = map Some recs
    /\ (wf3 d0 -> wf3 d)
    /\ forall a b c,
         match term_at d a b c with
         | Some t =>
             last_binding recs (a, b, c) t
             \/ (term_at d0 a b c = Some t /\ ~ In (a, b, c) (map fst recs))
         | None => term_at d0 a b c = None /\ ~ In (a, b, c) (map fst recs)
         end.
Proof.
  induction lines as [|l lines IH]; intros d0 d E; simpl in E.
  - inversion E; subst. exists []. split; [reflexivity|]. split; [auto|].
    intros a b c. destruct (term_at d a b c); [right|]; split; auto.
  - bind_inv E.
    destruct (readNamingData_line_Ok _ _ _ E0) as (a & b & c & term & Hf & ->).
    destruct (IH _ _ E) as (recs & Hmap & Hwf & Hat).
    exists ((a, b, c, term) :: recs). split; [|split].
    + simpl. rewrite Hf, Hmap. reflexivity.
    + intros W. apply Hwf, wf3_insert, W.
    + intros a' b' c'. specialize (Hat a' b' c').
      rewrite term_at_insert in Hat.
      destruct (term_at d a' b' c') as [t|].
      * destruct Hat as [(r1 & r2 & -> & N)|[Et N]].
        -- left. exists ((a, b, c, term) :: r1), r2. auto.
        -- destruct (key_eq_dec (a', b', c') (a, b, c)) as [Ek|Nk].
           ++ inversion Ek; subst. inversion Et; subst.
              left. exists [], recs. split; auto.
           ++ right. split; auto. simpl. intros [Ek|I]; auto.
      * destruct Hat as [Et N].
        destruct (key_eq_dec (a', b', c') (a, b, c)) as [Ek|Nk]; [discriminate|].
        split; auto. simpl. intros [Ek|I]; auto.
Qed.

Lemma readNamingData_line_fields (d : naming) (l : string) (a b c : Z)
  (term : string) :
  naming_fields l = Some (a, b, c, term) ->
  readNamingData_line d l = Ok (naming_insert a b c term d).
Proof.
  unfold naming_fields, readNamingData_line.
  destruct (split tab l) as [|lang [|spkr [|chipNum [|term' [|? ?]]]]];
    try discriminate.
  destruct (py_int lang) as [a'|]; [|discriminate].
  destruct (py_int spkr) as [b'|]; [|discriminate].
  destruct (py_int chipNum) as [c'|]; [|discriminate].
  intros E; inversion E; subst. cbv zeta. unfold naming in *. cbn [bind].
  rewrite DictFacts.getitem_ensure. cbn [bind].
  rewrite DictFacts.getitem_ensure. cbn [bind].
  rewrite !DictFacts.set_ensure. reflexivity.
Qed.

(** A file all of whose lines have the four fields, the first three of
    them integers, is read. *)
Lemma readNamingData_accepted (text : string) :
  (forall l, In l (_read_lines text) -> naming_fields l <> None) ->
  exists d, readNamingData text = Ok d.
Proof.
  intros Hall. unfold readNamingData, readNamingData_lines.
  apply for_each_total. intros d l I.
  destruct (naming_fields l) as [[[[a b] c] term]|] eqn:E.
  - rewrite (readNamingData_line_fields d l a b c term E). eauto.
  - exfalso. apply (Hall l I). exact E.
Qed.

(** C10.  When [readNamingData] returns, every line of the file had four
    fields with integer language, speaker and chip; the number of leaves of
    the nested mapping is the number of distinct key triples among the
    lines (the number of lines when no triple is repeated); and the term
    stored for a triple is the term of the last line with that triple. *)
Theorem readNamingData_entries (text : string) (d : naming) :
  readNamingData text = Ok d ->
  exists recs,
    map naming_fields (_read_lines text) = map Some recs
    /\ List.length (entries d) = List.length (nodup key_eq_dec (map fst recs))
    /\ (NoDup (map fst recs) ->
        List.length (entries d) = List.length (_read_lines text))
    /\ (forall a b c t, term_at d a b c = Some t <-> last_binding recs (a, b, c) t)
    /\ (forall a b c, term_at d a b c = None <-> ~ In (a, b, c) (map fst recs)).
Proof.
  unfold readNamingData, readNamingData_lines. intros E.
  destruct (readNamingData_lines_spec _ _ _ E) as (recs & Hmap & Hwf & Hat).
  specialize (Hwf wf3_empty).
  assert (forall a b c t, term_at d a b c = Some t -> last_binding recs (a, b, c) t)
    as Hsome.
  { intros a b c t Et. specialize (Hat a b c). rewrite Et in Hat.
    destruct Hat as [L|[Et0 _]]; [exact L|discriminate]. }
  assert (forall a b c, term_at d a b c = None -> ~ In (a, b, c) (map fst recs))
    as Hnone.
  { intros a b c Et. specialize (Hat a b c). rewrite Et in Hat. tauto. }
  assert (forall a b c t,
             last_binding recs (a, b, c) t -> In (a, b, c) (map fst recs))
    as Hlast.
  { intros a b c t (r1 & r2 & -> & _). rewrite map_app. apply in_or_app.
    right; left; reflexivity. }
  assert (forall k t t', last_binding recs k t -> last_binding recs k t' -> t = t')
    as Huniq.
  { intros k t t' (r1 & r2 & E1 & N1) (r1' & r2' & E2 & N2).
    rewrite E1 in E2. clear - E2 N1 N2.
    revert r1' E2. induction r1 as [|x r1 IH]; intros [|x' r1'] E2; simpl in E2.
    - congruence.
    - inversion E2; subst. exfalso; apply N1. rewrite map_app.
      apply in_or_app; right; left; reflexivity.
    - inversion E2; subst. exfalso; apply N2. rewrite map_app.
      apply in_or_app; right; left; reflexivity.
    - inversion E2; subst. eauto. }
  assert (List.length (entries d) = List.length (nodup key_eq_dec (map fst recs)))
    as Hlen.
  { apply Permutation_length. apply NoDup_Permutation.
    - apply entries_NoDup; exact Hwf.
    - apply NoDup_nodup.
    - intros [[a b] c]. rewrite nodup_In, (entries_In d a b c Hwf). split.
      + intros [t Et]. eapply Hlast, Hsome, Et.
      + intros I. destruct (term_at d a b c) as [t|] eqn:Et; eauto.
        exfalso. eapply Hnone; eauto. }
  exists recs. split; [exact Hmap|]. split; [exact Hlen|]. split; [|split].
  - intros ND. rewrite Hlen, (nodup_fixed_point key_eq_dec ND).
    rewrite length_map. rewrite <- (length_map Some recs), <- Hmap.
    apply length_map.
  - intros a b c t. split; [apply Hsome|].
    intros L. destruct (term_at d a b c) as [t'|] eqn:Et.
    + f_equal. eapply Huniq; eauto.
    + exfalso. eapply Hnone; eauto.
  - intros a b c. split; [apply Hnone|].
    intros N. destruct (term_at d a b c) as [t|] eqn:Et; auto.
    exfalso. apply N. eapply Hlast, Hsome, Et.
Qed.

End NamingFacts.

Module NamingExamples.
Import PyStr wcsHelper NamingFacts Notions Samples.

Example readNamingData_two_chips :
  readNamingData (unlines [tsv ["1"; "1"; "1"; "red"];
                           tsv ["1"; "1"; "2"; "green"]])
  = Ok [(1, [(1, [(1, "red"); (2, "green")])])].
Proof. reflexivity. Qed.

Example readNamingData_three_fields :
  readNamingData (tsv ["1"; "1"; "red"]) = Err ValueError.
Proof. reflexivity. Qed.

Lemma readNamingData_entries_witness :
  let text := unlines [tsv ["1"; "1"; "1"; "red"];
                       tsv ["1"; "1"; "2"; "green"];
                       tsv ["1"; "1"; "1"; "blue"]] in
  let d := [(1, [(1, [(1, "blue"); (2, "green")])])] in
  readNamingData text = Ok d
  /\ exists recs,
       map naming_fields (_read_lines text) = map Some recs
       /\ List.length (entries d) = List.length (nodup key_eq_dec (map fst recs))
       /\ (NoDup (map fst recs) ->
           List.length (entries d) = List.length (_read_lines text))
       /\ (forall a b c t,
             term_at d a b c = Some t <-> last_binding recs (a, b, c) t)
       /\ (forall a b c, term_at d a b c = None <-> ~ In (a, b, c) (map fst recs)).
Proof.
  intros text d. split; [reflexivity|].
  apply (readNamingData_entries text d). reflexivity.
Defined.

End NamingExamples.

(** ** The two Munsell dictionaries *)

Module MunsellFacts.
Import PyStr PySeq wcsHelper Notions.

Section Build.
Context {K V : Type} `{Hashable K}.

Lemma build_cons (k : K) (v : V) (bs : list (K * V)) (d0 : Dict.t K V) :
  build ((k, v) :: bs) d0 = build bs (Dict.set k v d0).
Proof. reflexivity. Qed.

Lemma build_get_out (bs : list (K * V)) (d0 : Dict.t K V) (k : K) :
  ~ In k (map fst bs) -> Dict.get k (build bs d0) = Dict.get k d0.
Proof.
  revert d0. induction bs as [|[k0 v0] bs IH]; intros d0 N; [reflexivity|].
  simpl in N. rewrite build_cons, IH by tauto.
  apply DictFacts.get_set_other. tauto.
Qed.

Lemma build_get_In (bs : list (K * V)) (d0 : Dict.t K V) (k : K) (v : V) :
  NoDup (map fst bs) -> In (k, v) bs -> Dict.get k (build bs d0) = Some v.
Proof.
  revert d0. induction bs as [|[k0 v0] bs IH]; intros d0 ND I.
  - destruct I.
  - rewrite build_cons.
    inversion ND as [|? ? Hk ND']; subst. destruct I as [E|I].
    + inversion E; subst.
      rewrite (build_get_out bs _ k Hk). apply DictFacts.get_set_same.
    + apply IH; auto.
Qed.

Lemma build_get_inv (bs : list (K * V)) (d0 : Dict.t K V) (k : K) (v : V) :
  Dict.get k (build bs d0) = Some v -> In (k, v) bs \/ Dict.get k d0 = Some v.
Proof.
  revert d0. induction bs as [|[k0 v0] bs IH]; intros d0 G; [auto|].
  rewrite build_cons in G.
  destruct (IH _ G) as [I|G']; [left; right; exact I|].
  rewrite DictFacts.get_set in G'.
  destruct (key_eq_dec k k0) as [->|N]; auto.
  inversion G'; subst. left; left; reflexivity.
Qed.

End Build.

Lemma _get_munsell_dicts_row_Ok (m : Dict.t string Z) (c : Dict.t Z (string * Z))
  (row : string) (st : munsell_dicts) :
  _get_munsell_dicts_row (m, c) row = Ok st ->
  exists r,
    munsell_fields row = Some r
    /\ st = (Dict.set (row_key r) (row_index r) m,
             Dict.set (row_index r) (row_L r, row_hue r) c).
Proof.
  unfold _get_munsell_dicts_row, munsell_fields. cbv zeta.
  destruct (py_int (hd EmptyString (split tab row))) as [i|]; simpl;
    [|discriminate].
  destruct (last2 (split tab row)) as [|L [|H [|? ?]]]; try discriminate.
  destruct (py_int H) as [h|]; simpl; [|discriminate].
  intros E; inversion E; subst. eexists; split; reflexivity.
Qed.

Lemma _get_munsell_dicts_build (lines : list string) :
  forall m0 c0 m c,
    for_each _get_munsell_dicts_row lines (m0, c0) = Ok (m, c) ->
    exists recs,
      map munsell_fields lines = map Some recs
      /\ m = build (map (fun r => (row_key r, row_index r)) recs) m0
      /\ c = build (map (fun r => (row_index r, (row_L r, row_hue r))) recs) c0.
Proof.
  induction lines as [|l lines IH]; intros m0 c0 m c E; simpl in E.
  - inversion E; subst. exists []. auto.
  - bind_inv E. destruct (_get_munsell_dicts_row_Ok _ _ _ _ E0) as (r & Hr & ->).
    destruct (IH _ _ _ _ E) as (recs & Hmap & -> & ->).
    exists (r :: recs). simpl. rewrite Hr, Hmap. auto.
Qed.

Lemma NoDup_map_eq {A B : Type} (f : A -> B) (l : list A) (x y : A) :
  NoDup (map f l) -> In x l -> In y l -> f x = f y -> x = y.
Proof.
  induction l as [|a l IH]; simpl; intros ND Ix Iy E; [destruct Ix|].
  inversion ND as [|? ? Ha ND']; subst.
  destruct Ix as [->|Ix], Iy as [->|Iy]; auto.
  - exfalso; apply Ha. rewrite E. apply in_map; exact Iy.
  - exfalso; apply Ha. rewrite <- E. apply in_map; exact Ix.
Qed.

Lemma rows_of_parsed (lines : list string) (recs : list chip_row) :
  map munsell_fields lines = map Some recs -> rows_of lines = recs.
Proof.
  revert recs. induction lines as [|l lines IH]; intros [|r recs] E;
    simpl in E; try discriminate; auto.
  inversion E as [[El Er]]. unfold rows_of; simpl. rewrite El. simpl.
  f_equal. apply IH; exact Er.
Qed.

(** C6.  A chip file is well formed when the parser accepts it and no chip
    index and no concatenated coordinate key occurs on two of its lines.
    For such a file the two dictionaries are inverse to each other on every
    line: the key [L + H] is mapped to the index of the line and the index
    to [(L, int(H))]; and [munsell_to_chip] is a bijection between the
    coordinate keys of the file and its chip indices. *)
Theorem munsell_dicts_inverse (lines : list string)
  (m : Dict.t string Z) (c : Dict.t Z (string * Z)) :
  _get_munsell_dicts lines = Ok (m, c) ->
  NoDup (map row_index (rows_of lines)) ->
  NoDup (map row_key (rows_of lines)) ->
  map munsell_fields lines = map Some (rows_of lines)
  /\ (forall r, In r (rows_of lines) ->
        Dict.get (row_key r) m = Some (row_index r)
        /\ Dict.get (row_index r) c = Some (row_L r, row_hue r))
  /\ (forall k i, Dict.get k m = Some i ->
        exists r, In r (rows_of lines) /\ k = row_key r /\ i = row_index r
                  /\ Dict.get i c = Some (row_L r, row_hue r))
  /\ (forall k k' i, Dict.get k m = Some i -> Dict.get k' m = Some i -> k = k')
  /\ (forall i, In i (Dict.keys c) <-> exists k, Dict.get k m = Some i).
Proof.
  unfold _get_munsell_dicts. intros E.
  destruct (_get_munsell_dicts_build _ _ _ _ _ E) as (recs & Hmap & -> & ->).
  rewrite (rows_of_parsed _ _ Hmap).
  intros NDi NDk. split; [exact Hmap|].
  set (bm := map (fun r => (row_key r, row_index r)) recs).
  set (bc := map (fun r => (row_index r, (row_L r, row_hue r))) recs).
  assert (map fst bm = map row_key recs) as Fm
    by (unfold bm; rewrite map_map; reflexivity).
  assert (map fst bc = map row_index recs) as Fc
    by (unfold bc; rewrite map_map; reflexivity).
  assert (forall r, In r recs ->
            Dict.get (row_key r) (build bm Dict.empty) = Some (row_index r)
            /\ Dict.get (row_index r) (build bc Dict.empty)
               = Some (row_L r, row_hue r)) as Hrow.
  { intros r I. split; apply build_get_In.
    - rewrite Fm; exact NDk.
    - unfold bm. apply (in_map (fun r => (row_key r, row_index r))); exact I.
    - rewrite Fc; exact NDi.
    - unfold bc. apply (in_map (fun r => (row_index r, (row_L r, row_hue r))));
        exact I. }
  assert (forall k i, Dict.get k (build bm Dict.empty) = Some i ->
            exists r, In r recs /\ k = row_key r /\ i = row_index r) as Hinv.
  { intros k i G. apply build_get_inv in G. destruct G as [I|G]; [|discriminate].
    unfold bm in I. apply in_map_iff in I. destruct I as (r & Er & I).
    inversion Er; subst. eauto. }
  split; [exact Hrow|]. split; [|split].
  - intros k i G. destruct (Hinv k i G) as (r & I & -> & ->).
    exists r. repeat split; auto. apply Hrow; exact I.
  - intros k k' i G G'.
    destruct (Hinv k i G) as (r & I & -> & Ei).
    destruct (Hinv k' i G') as (r' & I' & -> & Ei').
    f_equal. apply (NoDup_map_eq row_index recs); congruence.
  - intros i. split.
    + intros I. apply DictFacts.keys_get in I. destruct I as [v G].
      apply build_get_inv in G. destruct G as [I|G]; [|discriminate].
      unfold bc in I. apply in_map_iff in I. destruct I as (r & Er & I).
      inversion Er; subst. exists (row_key r). apply Hrow; exact I.
    + intros [k G]. destruct (Hinv k i G) as (r & I & -> & ->).
      eapply DictFacts.get_Some_keys. apply Hrow; exact I.
Qed.

End MunsellFacts.

Module MunsellExamples.
Import PyStr wcsHelper MunsellFacts Notions Samples.

Example _get_munsell_dicts_two_chips :
  _get_munsell_dicts two_chips
  = Ok ([("A0", 1); ("A1", 2)], [(1, ("A", 0)); (2, ("A", 1))]).
Proof. reflexivity. Qed.

(** Why an index may not be repeated: the file below is accepted, its
    first line gives chip 1 the coordinate (A, 0), and yet chip 1 is mapped
    to (B, 1) while both keys [A0] and [B1] are mapped to chip 1 (the last
    line wins). *)
Example munsell_dicts_repeated_index :
  (exists cd, readChipData (unlines chip_one_twice) = Ok cd
              /\ munsell_to_chip cd = [("A0", 1); ("B1", 1)]
              /\ chip_to_munsell cd = [(1, ("B", 1))])
  /\ munsell_fields (hd EmptyString chip_one_twice)
     = Some {| row_index := 1; row_L := "A"; row_H := "0"; row_hue := 0 |}
  /\ Dict.get 1 [(1, ("B", 1))] <> Some ("A", 0)
  /\ Dict.get "A0" [("A0", 1); ("B1", 1)] = Dict.get "B1" [("A0", 1); ("B1", 1)].
Proof.
  split; [|split; [|split]].
  - eexists. split; [reflexivity|]. split; reflexivity.
  - reflexivity.
  - discriminate.
  - reflexivity.
Qed.

Lemma munsell_dicts_inverse_witness :
  let m := [("A0", 1); ("A1", 2)] in
  let c := [(1, ("A", 0)); (2, ("A", 1))] in
  _get_munsell_dicts two_chips = Ok (m, c)
  /\ NoDup (map row_index (rows_of two_chips))
  /\ NoDup (map row_key (rows_of two_chips))
  /\ (forall r, In r (rows_of two_chips) ->
        Dict.get (row_key r) m = Some (row_index r)
        /\ Dict.get (row_index r) c = Some (row_L r, row_hue r)).
Proof.
  intros m c.
  assert (NoDup (map row_index (rows_of two_chips))) as Ni.
  { vm_compute. constructor; [simpl; intros [E|[]]; discriminate E|].
    constructor; [intros []|constructor]. }
  assert (NoDup (map row_key (rows_of two_chips))) as Nk.
  { vm_compute. constructor; [simpl; intros [E|[]]; discriminate E|].
    constructor; [intros []|constructor]. }
  split; [reflexivity|]. split; [exact Ni|]. split; [exact Nk|].
  exact (proj1 (proj2 (munsell_dicts_inverse two_chips m c eq_refl Ni Nk))).
Defined.

End MunsellExamples.

(** ** Arrays *)

Module ArrayFacts.
Import PySeq.

Section Update.
Context {A : Type}.
Implicit Types (l : list A) (f : A -> A).

Lemma length_update i f l : List.length (update i f l) = List.length l.
Proof.
  revert i; induction l as [|x l IH]; intros [|i]; simpl; auto.
Qed.

Lemma nth_error_update_same i f l :
  nth_error (update i f l) i = option_map f (nth_error l i).
Proof.
  revert i; induction l as [|x l IH]; intros [|i]; simpl; auto.
Qed.

Lemma nth_error_update_other i j f l :
  i <> j -> nth_error (update i f l) j = nth_error l j.
Proof.
  revert i j; induction l as [|x l IH]; intros [|i] [|j] N; simpl; auto.
  congruence.
Qed.

Lemma update_fix i f l x :
  nth_error l i = Some x -> f x = x -> update i f l = l.
Proof.
  revert i; induction l as [|y l IH]; intros [|i] E Fx; simpl in *;
    try discriminate.
  - inversion E; subst. rewrite Fx. reflexivity.
  - f_equal. eauto.
Qed.

End Update.

Lemma np_index_in_range (n : nat) (j : Z) :
  0 <= j < Z.of_nat n -> np_index n j = Ok (Z.to_nat j).
Proof.
  intros R. unfold np_index.
  destruct (Z.leb_spec 0 j), (Z.ltb_spec j (Z.of_nat n)); simpl; auto; lia.
Qed.

Lemma np_index_too_large (n : nat) (j : Z) :
  Z.of_nat n <= j -> np_index n j = Err IndexError.
Proof.
  intros R. unfold np_index.
  destruct (Z.leb_spec 0 j), (Z.ltb_spec j (Z.of_nat n)); simpl; try lia.
  destruct (Z.leb_spec (- Z.of_nat n) j), (Z.ltb_spec j 0); simpl; auto; lia.
Qed.

Lemma np_index_error (n : nat) (j : Z) (e : pyerr) :
  np_index n j = Err e -> e = IndexError.
Proof.
  unfold np_index.
  destruct ((0 <=? j) && (j <? Z.of_nat n)); [discriminate|].
  destruct ((- Z.of_nat n <=? j) && (j <? 0)); congruence.
Qed.

End ArrayFacts.

(** ** Grid colors *)

Module GridFacts.
Import PySeq wcsHelper ArrayFacts Notions.

Lemma where_eq_from (data : Dict.t Z string) (term : string) :
  forall s n pos,
    Dict.keys data = map Z.of_nat (seq s n) -> pos = Z.of_nat s - 1 ->
    map (fun p => p + 1) (where_eq pos term (Dict.values data))
    = chips_with_term data term.
Proof.
  unfold chips_with_term, Dict.keys, Dict.values.
  induction data as [|[k v] data IH]; intros s n pos E Hp; [reflexivity|].
  destruct n as [|n]; [discriminate|].
  cbn [map seq fst] in E. injection E as Ek Ed.
  specialize (IH (S s) n (pos + 1) Ed ltac:(lia)).
  cbn [map snd where_eq filter].
  destruct (string_dec v term); cbn [map fst]; rewrite IH; [|reflexivity].
  f_equal. lia.
Qed.

Lemma where_eq_keys (data : Dict.t Z string) (term : string) (N : nat) :
  Dict.keys data = range1 N ->
  map (fun p => p + 1) (where_eq 0 term (Dict.values data))
  = chips_with_term data term.
Proof. intros E. apply (where_eq_from data term 1 N 0 E). reflexivity. Qed.

Lemma chips_with_term_keys (data : Dict.t Z string) (term : string) (c : Z) :
  In c (chips_with_term data term) -> In c (Dict.keys data).
Proof.
  unfold chips_with_term, Dict.keys. intros I.
  apply in_map_iff in I. destruct I as (ct & <- & I).
  apply filter_In in I. apply in_map. tauto.
Qed.

Lemma get_Some_values {K V : Type} `{Hashable K} (k : K) (v : V)
  (d : Dict.t K V) :
  Dict.get k d = Some v -> In v (Dict.values d).
Proof.
  intros G. apply DictFacts.get_Some_In in G.
  unfold Dict.values. change v with (snd (k, v)). apply in_map; exact G.
Qed.

Lemma getitem_lookup {K V : Type} `{Hashable K} (ks : list K) (d : Dict.t K V)
  (vs : list V) :
  map_result (fun k => Dict.getitem k d) ks = Ok vs
  <-> map (fun k => Dict.get k d) ks = map Some vs.
Proof.
  revert vs. induction ks as [|k ks IH]; intros vs; simpl.
  - split; intros E.
    + inversion E; reflexivity.
    + destruct vs; [reflexivity|discriminate].
  - unfold Dict.getitem at 1. destruct (Dict.get k d) as [v|]; simpl.
    + destruct (map_result _ ks) as [vs'|e] eqn:M; simpl.
      * split; intros E.
        -- inversion E; subst. simpl. f_equal. apply IH; reflexivity.
        -- destruct vs as [|v0 vs0]; simpl in E; [discriminate|].
           inversion E; subst. f_equal. f_equal.
           apply IH in H2. congruence.
      * split; intros E; [discriminate|].
        destruct vs as [|v0 vs0]; simpl in E; [discriminate|].
        inversion E; subst. apply IH in H2. discriminate.
    + split; intros E; [discriminate|].
      destruct vs; simpl in E; discriminate.
Qed.

Section Naming2Grid.
Context {F : Type} `{NumPy F}.

(** One pass of the first loop, when the keys of [data] are [1..N] in
    order: the positions found are the chips named [term]. *)
Lemma term_colors_add_chips (data : Dict.t Z string) (rgb : Dict.t Z (Z * Z * Z))
  (N : nat) (tc : Dict.t string (color F)) (term : string) :
  Dict.keys data = range1 N ->
  term_colors_add data rgb tc term
  = rgbs <- map_result (fun c => Dict.getitem c rgb) (chips_with_term data term) ;;
    Ok (Dict.set term (mean_color rgbs) tc).
Proof.
  intros Hk. unfold term_colors_add; cbv zeta.
  rewrite <- (where_eq_keys data term N Hk).
  rewrite map_result_map. reflexivity.
Qed.

Lemma term_colors_loop (data : Dict.t Z string) (rgb : Dict.t Z (Z * Z * Z))
  (N : nat) (T : list string) :
  Dict.keys data = range1 N ->
  (forall t, In t T ->
     exists rgbs, map_result (fun c => Dict.getitem c rgb)
                             (chips_with_term data t) = Ok rgbs) ->
  forall tc0, exists tc,
    for_each (term_colors_add data rgb) T tc0 = Ok tc
    /\ (forall t rgbs, In t T ->
          map_result (fun c => Dict.getitem c rgb) (chips_with_term data t)
          = Ok rgbs ->
          Dict.get t tc = Some (mean_color rgbs))
    /\ (forall t, ~ In t T -> Dict.get t tc = Dict.get t tc0).
Proof.
  intros Hk. induction T as [|t0 T IH]; intros Hall tc0; simpl.
  - exists tc0. repeat split; auto. intros ? ? [].
  - rewrite (term_colors_add_chips data rgb N tc0 t0 Hk).
    destruct (Hall t0 (or_introl eq_refl)) as [rgbs0 E0]. rewrite E0; simpl.
    destruct (IH (fun t I => Hall t (or_intror I))
                 (Dict.set t0 (mean_color rgbs0) tc0)) as (tc & E & Hin & Hout).
    exists tc. split; [exact E|]. split.
    + intros t rgbs I Et.
      destruct (in_dec string_dec t T) as [I'|I']; [eauto|].
      destruct I as [->|I]; [|tauto].
      rewrite Hout by exact I'. rewrite DictFacts.get_set_same. congruence.
    + intros t N0. rewrite Hout by tauto.
      apply DictFacts.get_set_other. tauto.
Qed.

Lemma grid_colors_loop (data : Dict.t Z string) (tc : Dict.t string (color F))
  (col : nat -> color F) (n : nat) :
  forall (s : nat) (g : list (color F)),
    (1 <= s)%nat -> (s + n <= 331)%nat -> List.length g = 330%nat ->
    (forall k, (s <= k < s + n)%nat ->
       exists term, Dict.get (Z.of_nat k) data = Some term
                    /\ Dict.get term tc = Some (col k)) ->
    exists g',
      for_each (grid_colors_add data tc) (map Z.of_nat (seq s n)) g = Ok g'
      /\ List.length g' = 330%nat
      /\ (forall k, (s <= k < s + n)%nat -> nth_error g' (k - 1) = Some (col k))
      /\ (forall p, (p < s - 1 \/ s + n - 1 <= p)%nat ->
            nth_error g' p = nth_error g p).
Proof.
  induction n as [|n IH]; intros s g Hs Hn Hg Hcol; simpl.
  - exists g. repeat split; auto. intros k Hk; lia.
  - destruct (Hcol s ltac:(lia)) as (term & Gd & Gt).
    unfold grid_colors_add at 1. unfold Dict.getitem. rewrite Gd; simpl.
    rewrite Gt; simpl. unfold set_row.
    rewrite np_index_in_range by lia. simpl.
    replace (Z.to_nat (Z.of_nat s - 1)) with (s - 1)%nat by lia.
    destruct (IH (S s) (update (s - 1) (fun _ => col s) g))
      as (g' & E & Hl & Hin & Hout).
    + lia.
    + lia.
    + rewrite length_update; exact Hg.
    + intros k Hk. apply Hcol; lia.
    + exists g'. split; [exact E|]. split; [exact Hl|]. split.
      * intros k Hk. destruct (Nat.eq_dec k s) as [->|Nk].
        -- rewrite Hout by lia. rewrite nth_error_update_same.
           destruct (nth_error g (s - 1)) eqn:En; [reflexivity|].
           apply nth_error_None in En. lia.
        -- apply Hin; lia.
      * intros p Hp. rewrite Hout by lia.
        apply nth_error_update_other. lia.
Qed.


End Naming2Grid.
End GridFacts.

Module MissingChipFacts.
Import PySeq wcsHelper ArrayFacts GridFacts Notions.

Lemma getitem_error {K V : Type} `{Hashable K} (k : K) (d : Dict.t K V)
  (e : pyerr) :
  Dict.getitem k d = Err e -> e = KeyError.
Proof. unfold Dict.getitem. destruct (Dict.get k d); congruence. Qed.

Section MissingChip.
Context {F : Type} `{NumPy F}.

Lemma term_colors_add_error (data : Dict.t Z string)
  (rgb : Dict.t Z (Z * Z * Z)) (tc : Dict.t string (color F)) (term : string)
  (e : pyerr) :
  term_colors_add data rgb tc term = Err e -> e = KeyError.
Proof.
  unfold term_colors_add; cbv zeta.
  destruct (map_result _ _) as [rgbs|e'] eqn:M; simpl; [discriminate|].
  intros E; inversion E; subst.
  eapply map_result_error; [|exact M].
  intros x e'. apply getitem_error.
Qed.

Lemma grid_colors_add_error (data : Dict.t Z string)
  (tc : Dict.t string (color F)) (g : list (color F)) (i : Z) (e : pyerr) :
  grid_colors_add data tc g i = Err e -> e = KeyError \/ e = IndexError.
Proof.
  unfold grid_colors_add.
  destruct (Dict.getitem i data) as [term|e1] eqn:E1; simpl.
  - destruct (Dict.getitem term tc) as [c|e2] eqn:E2; simpl.
    + unfold set_row. destruct (np_index _ _) as [r|e3] eqn:E3; simpl;
        [discriminate|].
      intros E; inversion E; subst. right. eapply np_index_error; eauto.
    + intros E; inversion E; subst. left. exact (getitem_error _ _ _ E2).
  - intros E; inversion E; subst. left. exact (getitem_error _ _ _ E1).
Qed.

(** The second loop stops at the first chip that [data] lacks, as long as
    that chip is numbered 331 or less. *)
Lemma grid_colors_missing_loop (data : Dict.t Z string)
  (tc : Dict.t string (color F)) (c : nat) (n : nat) :
  forall (s : nat) (g : list (color F)),
    (1 <= s)%nat -> List.length g = 330%nat ->
    (s <= c < s + n)%nat -> (c <= 331)%nat ->
    ~ In (Z.of_nat c) (Dict.keys data) ->
    for_each (grid_colors_add data tc) (map Z.of_nat (seq s n)) g = Err KeyError.
Proof.
  induction n as [|n IH]; intros s g Hs Hg Hc Hmax Habs; [lia|].
  cbn [seq map for_each]. unfold grid_colors_add at 1. unfold Dict.getitem.
  destruct (Dict.get (Z.of_nat s) data) as [term|] eqn:Gd; [|reflexivity].
  cbn [bind].
  destruct (Nat.eq_dec s c) as [->|Ns].
  { apply DictFacts.get_Some_keys in Gd. tauto. }
  destruct (Dict.get term tc) as [v|]; [|reflexivity].
  cbn [bind]. unfold set_row.
  rewrite np_index_in_range by lia. cbn [bind].
  apply IH; auto; try lia.
  rewrite length_update; exact Hg.
Qed.

(** C9.  When some chip number between 1 and [len(chip_to_rgb)] is not a
    key of [data], [naming2grid] does not return a grid: it raises the
    [KeyError] of a failed lookup, or, when the chips 1..331 are all
    there, the [IndexError] of row 330 of the 330-row grid.  If the missing
    chip is numbered 331 or less the exception is the [KeyError]. *)
Theorem naming2grid_missing_chip (data : Dict.t Z string)
  (rgb : Dict.t Z (Z * Z * Z)) (c : Z) :
  1 <= c <= Z.of_nat (List.length rgb) ->
  ~ In c (Dict.keys data) ->
  (@naming2grid F _ data rgb = Err KeyError
   \/ @naming2grid F _ data rgb = Err IndexError)
  /\ (c <= 331 -> @naming2grid F _ data rgb = Err KeyError).
Proof.
  intros Rc Habs. unfold naming2grid, naming2grid_over.
  destruct (for_each (term_colors_add data rgb) _ _) as [tc|e] eqn:E1.
  2:{ assert (e = KeyError) as ->.
      { eapply (for_each_error (term_colors_add data rgb)); [|exact E1].
        intros; eapply term_colors_add_error; eauto. }
      simpl. auto. }
  cbn [bind]. split.
  - destruct (for_each_fails_some (grid_colors_add data tc)
                (range1 (List.length rgb)) c)
      with (s := repeat (@f_zero F _, @f_zero F _, @f_zero F _) 330)
      as [e E2].
    + unfold range1. apply in_map_iff. exists (Z.to_nat c).
      split; [lia|]. apply in_seq. lia.
    + intros g. exists KeyError. unfold grid_colors_add, Dict.getitem.
      destruct (Dict.get c data) eqn:G; [|reflexivity].
      apply DictFacts.get_Some_keys in G. tauto.
    + rewrite E2.
      destruct (for_each_error_in (grid_colors_add data tc)
                  (fun e => e = KeyError \/ e = IndexError)
                  (range1 (List.length rgb))
                  (grid_colors_add_error data tc) _ _ E2) as [->| ->]; auto.
  - intros Hmax. unfold range1.
    apply (grid_colors_missing_loop data tc (Z.to_nat c)); try lia.
    + apply repeat_length.
    + rewrite Z2Nat.id by lia. exact Habs.
Qed.

(** X29.  With more than 330 chips, all of them named and colored, the
    grid has no row for chip 331 and [naming2grid] raises [IndexError]. *)
Lemma naming2grid_too_many_chips (data : Dict.t Z string)
  (rgb : Dict.t Z (Z * Z * Z)) (N : nat) :
  Dict.keys data = range1 N ->
  List.length rgb = N ->
  (forall c, 1 <= c <= Z.of_nat N -> In c (Dict.keys rgb)) ->
  (330 < N)%nat ->
  @naming2grid F _ data rgb = Err IndexError.
Proof.
  intros Hk Hl Hrgb HN.
  assert (forall c, In c (Dict.keys data) <-> 1 <= c <= Z.of_nat N) as Hkeys.
  { intros c. rewrite Hk. unfold range1. rewrite in_map_iff. split.
    - intros (k & <- & I). apply in_seq in I. lia.
    - intros R. exists (Z.to_nat c). split; [lia|]. apply in_seq. lia. }
  assert (forall t, exists rgbs,
             map_result (fun c => Dict.getitem c rgb) (chips_with_term data t)
             = Ok rgbs) as Htot.
  { intros t. apply map_result_Ok. intros c I.
    apply chips_with_term_keys, Hkeys, Hrgb, DictFacts.keys_get in I.
    destruct I as [v G]. exists v. unfold Dict.getitem. rewrite G. reflexivity. }
  destruct (term_colors_loop data rgb N (dedup (Dict.values data)) Hk
              (fun t _ => Htot t) Dict.empty) as (tc & Etc & Hin & _).
  assert (forall k, (1 <= k <= N)%nat ->
            exists term v, Dict.get (Z.of_nat k) data = Some term
                           /\ Dict.get term tc = Some v) as Hcol.
  { intros k Rk.
    destruct (DictFacts.keys_get (Z.of_nat k) data) as [term G].
    { apply Hkeys; lia. }
    destruct (Htot term) as [rgbs Er].
    exists term, (mean_color rgbs). split; [exact G|].
    apply Hin; auto.
    apply ModeFacts.dedup_In. eapply get_Some_values; eauto. }
  set (col := fun k : nat =>
         match Dict.get (Z.of_nat k) data with
         | Some term => Dict.get_default term zero_row tc
         | None => zero_row
         end).
  unfold naming2grid, naming2grid_over. rewrite Etc. cbn [bind]. rewrite Hl.
  unfold range1. replace N with (330 + (N - 330))%nat by lia.
  rewrite seq_app, map_app, for_each_app.
  destruct (grid_colors_loop data tc col 330 1 (repeat zero_row 330))
    as (g & Eg & Hlen & _).
  - lia.
  - lia.
  - apply repeat_length.
  - intros k Rk. destruct (Hcol k ltac:(lia)) as (term & v & G & Gt).
    exists term. split; [exact G|]. unfold col, Dict.get_default.
    rewrite G, Gt. reflexivity.
  - unfold zero_row, color in *. rewrite Eg. cbn [bind].
    destruct (N - 330)%nat as [|m] eqn:Em; [lia|].
    cbn [seq map for_each Nat.add].
    destruct (Hcol 331%nat ltac:(lia)) as (term & v & G & Gt).
    unfold grid_colors_add at 1. unfold Dict.getitem. unfold color in *.
    rewrite G. cbn [bind]. rewrite Gt. cbn [bind]. unfold set_row.
    rewrite np_index_too_large by lia. reflexivity.
Qed.

End MissingChip.
End MissingChipFacts.

(** ** The order of the set of terms *)

Module SetOrderFacts.
Import PySeq wcsHelper Notions MissingChipFacts.

Section SetOrder.
Context {F : Type} `{NumPy F}.
Implicit Types (tc : Dict.t string (color F)) (g : list (color F)).

Lemma term_colors_add_color (data : Dict.t Z string)
  (rgb : Dict.t Z (Z * Z * Z)) tc (term : string) :
  term_colors_add data rgb tc term
  = c <- term_color data rgb term ;; Ok (Dict.set term c tc).
Proof.
  unfold term_colors_add, term_color; cbv zeta.
  destruct (map_result _ _); reflexivity.
Qed.

Lemma term_color_error (data : Dict.t Z string) (rgb : Dict.t Z (Z * Z * Z))
  (term : string) (e : pyerr) :
  @term_color F _ data rgb term = Err e -> e = KeyError.
Proof.
  intros E.
  apply (term_colors_add_error data rgb Dict.empty term).
  rewrite term_colors_add_color, E. reflexivity.
Qed.

Lemma term_colors_all_or_one (data : Dict.t Z string)
  (rgb : Dict.t Z (Z * Z * Z)) (T : list string) :
  (forall t, In t T -> exists c : color F, term_color data rgb t = Ok c)
  \/ (exists t, In t T /\ @term_color F _ data rgb t = Err KeyError).
Proof.
  induction T as [|t T IH]; [left; intros ? []|].
  destruct (@term_color F _ data rgb t) as [c|e] eqn:E.
  - destruct IH as [IH|(t' & I & E')].
    + left. intros t' [<-|I]; eauto.
    + right. exists t'. simpl; auto.
  - right. exists t. split; [left; reflexivity|].
    rewrite E. f_equal. eapply term_color_error; eauto.
Qed.

Lemma term_colors_loop_colors (data : Dict.t Z string)
  (rgb : Dict.t Z (Z * Z * Z)) (T : list string) :
  (forall t, In t T -> exists c : color F, term_color data rgb t = Ok c) ->
  forall tc0, exists tc,
    for_each (term_colors_add data rgb) T tc0 = Ok tc
    /\ (forall t, In t T ->
          exists c, term_color data rgb t = Ok c /\ Dict.get t tc = Some c)
    /\ (forall t, ~ In t T -> Dict.get t tc = Dict.get t tc0).
Proof.
  induction T as [|t0 T IH]; intros Hall tc0.
  - exists tc0. repeat split; auto. intros ? [].
  - destruct (Hall t0 (or_introl eq_refl)) as [c0 E0].
    cbn [for_each]. rewrite term_colors_add_color, E0. cbn [bind].
    destruct (IH (fun t I => Hall t (or_intror I)) (Dict.set t0 c0 tc0))
      as (tc & E & Hin & Hout).
    exists tc. split; [exact E|]. split.
    + intros t I.
      destruct (in_dec string_dec t T) as [I'|I']; [eauto|].
      destruct I as [->|I]; [|tauto].
      exists c0. split; [exact E0|].
      rewrite Hout by exact I'. apply DictFacts.get_set_same.
    + intros t N. rewrite Hout by (simpl in N; tauto).
      apply DictFacts.get_set_other. simpl in N; tauto.
Qed.

Lemma grid_colors_ext (data : Dict.t Z string) tc tc' (xs : list Z) :
  (forall t, Dict.get t tc = Dict.get t tc') ->
  forall g,
    for_each (grid_colors_add data tc) xs g
    = for_each (grid_colors_add data tc') xs g.
Proof.
  intros Hext. induction xs as [|i xs IH]; intros g; [reflexivity|].
  cbn [for_each].
  assert (grid_colors_add data tc g i = grid_colors_add data tc' g i) as ->.
  { unfold grid_colors_add, Dict.getitem.
    destruct (Dict.get i data) as [term|]; [|reflexivity].
    cbn [bind]. rewrite Hext. reflexivity. }
  destruct (grid_colors_add data tc' g i); [apply IH|reflexivity].
Qed.

(** Two orders of the same terms give the same result. *)
Lemma naming2grid_over_order (T T' : list string) (data : Dict.t Z string)
  (rgb : Dict.t Z (Z * Z * Z)) :
  (forall t, In t T <-> In t T') ->
  @naming2grid_over F _ T data rgb = @naming2grid_over F _ T' data rgb.
Proof.
  intros Hsame. unfold naming2grid_over.
  destruct (term_colors_all_or_one data rgb T) as [Hall|(t & I & E)].
  - destruct (term_colors_loop_colors data rgb T Hall Dict.empty)
      as (tc & -> & Hin & Hout).
    destruct (term_colors_loop_colors data rgb T'
                (fun t I => Hall t (proj2 (Hsame t) I)) Dict.empty)
      as (tc' & -> & Hin' & Hout').
    cbn [bind]. apply grid_colors_ext. intros t.
    destruct (in_dec string_dec t T) as [I|I].
    + destruct (Hin t I) as (c & Ec & ->).
      destruct (Hin' t (proj1 (Hsame t) I)) as (c' & Ec' & ->). congruence.
    + rewrite Hout by exact I. rewrite Hout'; [reflexivity|].
      intros I'. apply I, Hsame, I'.
  - assert (forall tc, term_colors_add data rgb tc t = Err KeyError) as Hbad.
    { intros tc. rewrite term_colors_add_color, E. reflexivity. }
    rewrite (for_each_fails _ KeyError T t); auto.
    + rewrite (for_each_fails _ KeyError T' t); auto.
      * intros; eapply term_colors_add_error; eauto.
      * apply Hsame; exact I.
    + intros; eapply term_colors_add_error; eauto.
Qed.

(** X28.  In whatever order the set of the values of [data] is gone
    through, the result, a grid or an exception, is that of
    [naming2grid]. *)
Lemma naming2grid_set_order (terms : list string) (data : Dict.t Z string)
  (rgb : Dict.t Z (Z * Z * Z)) :
  (forall t, In t terms <-> In t (Dict.values data)) ->
  @naming2grid_over F _ terms data rgb = naming2grid data rgb.
Proof.
  intros Hsame. unfold naming2grid. apply naming2grid_over_order.
  intros t. rewrite Hsame. symmetry. apply ModeFacts.dedup_In.
Qed.

End SetOrder.
End SetOrderFacts.

Module GridExamples.
Import PySeq wcsHelper GridFacts MissingChipFacts Notions Samples.



(** Chip 332 has a color and no name, and the exception is the
    [IndexError] raised at chip 331. *)
Lemma naming2grid_missing_332_IndexError :
  1 <= 332 <= Z.of_nat (List.length rgbs_332)
  /\ ~ In 332 (Dict.keys named_331)
  /\ @naming2grid Q _ named_331 rgbs_332 = Err IndexError
  /\ @naming2grid Q _ named_331 rgbs_332 <> Err KeyError.
Proof.
  assert (@naming2grid Q _ named_331 rgbs_332 = Err IndexError) as E
    by (vm_compute; reflexivity).
  split; [vm_compute; split; discriminate|]. split; [|split].
  - unfold named_331, Dict.keys. rewrite map_map. simpl fst. rewrite map_id.
    unfold range1. rewrite in_map_iff. intros (k & Ek & I).
    apply in_seq in I. lia.
  - exact E.
  - rewrite E. discriminate.
Qed.

Lemma naming2grid_missing_chip_witness :
  1 <= 2 <= Z.of_nat (List.length two_rgbs)
  /\ ~ In 2 (Dict.keys [(1, "red")])
  /\ @naming2grid Q _ [(1, "red")] two_rgbs = Err KeyError.
Proof.
  assert (1 <= 2 <= Z.of_nat (List.length two_rgbs)) as R by (simpl; lia).
  assert (~ In 2 (Dict.keys [(1, "red")])) as A.
  { simpl. intros [E|[]]. discriminate E. }
  split; [exact R|]. split; [exact A|].
  apply (proj2 (@naming2grid_missing_chip Q _ [(1, "red")] two_rgbs 2 R A)).
  lia.
Defined.

End GridExamples.

(** ** The image *)

Module ImageFacts.
Import PySeq wcsHelper ArrayFacts Notions.

Lemma index_lt {A : Type} `{Hashable A} (x : A) (l : list A) (r : nat) :
  index x l = Ok r -> (r < List.length l)%nat.
Proof.
  revert r. induction l as [|y l IH]; intros r; simpl; [discriminate|].
  destruct (key_eq_dec x y); [intros E; inversion E; lia|].
  destruct (index x l) as [i|]; simpl; [|discriminate].
  intros E; inversion E; subst. specialize (IH i eq_refl). lia.
Qed.

Lemma index_In {A : Type} `{Hashable A} (x : A) (l : list A) :
  In x l -> exists r, index x l = Ok r.
Proof.
  induction l as [|y l IH]; simpl; [intros []|].
  destruct (key_eq_dec x y); [eauto|].
  intros [E|I]; [congruence|]. destruct (IH I) as [r ->]. simpl; eauto.
Qed.

Lemma Forall_update {A : Type} (P : A -> Prop) (i : nat) (f : A -> A)
  (l : list A) :
  (forall x, P x -> P (f x)) -> Forall P l -> Forall P (update i f l).
Proof.
  intros Hf. revert i. induction l as [|x l IH]; intros [|i] Hl; simpl; auto;
    inversion Hl; subst; constructor; auto.
Qed.

Section Image.
Context {F : Type} `{NumPy F}.
Implicit Types (img : image F) (v : color F) (r col : nat).

Lemma shape_put r col v img : shape_ok img -> shape_ok (put r col v img).
Proof.
  intros [L R]. split.
  - unfold put. rewrite length_update. exact L.
  - apply Forall_update; auto. intros row E. rewrite length_update. exact E.
Qed.

Lemma cell_at_put_same r col v img :
  shape_ok img -> (r < 10)%nat -> (col < 42)%nat ->
  cell_at (put r col v img) r col = Some v.
Proof.
  intros [L R] Hr Hc. unfold cell_at, put.
  rewrite nth_error_update_same.
  destruct (nth_error img r) as [row|] eqn:E.
  - simpl. rewrite nth_error_update_same.
    destruct (nth_error row col) eqn:E'; [reflexivity|].
    apply nth_error_None in E'.
    rewrite Forall_forall in R. rewrite (R row) in E'; [lia|].
    eapply nth_error_In; eauto.
  - apply nth_error_None in E. lia.
Qed.

Lemma cell_at_put_other r col v img r' col' :
  (r, col) <> (r', col') ->
  cell_at (put r col v img) r' col' = cell_at img r' col'.
Proof.
  intros N. unfold cell_at, put.
  destruct (Nat.eq_dec r r') as [->|Nr].
  - rewrite nth_error_update_same.
    destruct (nth_error img r') as [row|]; simpl; [|reflexivity].
    apply nth_error_update_other. congruence.
  - rewrite nth_error_update_other by exact Nr. reflexivity.
Qed.

Lemma put_again r col v img :
  cell_at img r col = Some v -> put r col v img = img.
Proof.
  unfold cell_at, put. destruct (nth_error img r) as [row|] eqn:E;
    [|discriminate].
  intros E'. apply (update_fix r _ img row E).
  apply (update_fix col _ row v E'). reflexivity.
Qed.

(** One iteration of the loop of [_grid2img], for a chip with a row letter
    among A..J and a hue from 0 to 40. *)
Lemma _grid2img_chip_put (grid : list (color F)) (m : Dict.t Z (string * Z))
  (img : image F) (c : Z) (L : string) (h : Z) (r : nat) (v : color F) :
  shape_ok img ->
  Dict.get c m = Some (L, h) -> index L ROWS = Ok r -> 0 <= h <= 40 ->
  1 <= c <= Z.of_nat (List.length grid) ->
  nth_error grid (Z.to_nat (c - 1)) = Some v ->
  _grid2img_chip grid m img c
  = Ok (put r (Z.to_nat (if h >? 0 then h + 1 else h)) v img).
Proof.
  intros Hs G I Hh Hc Hv.
  pose proof (index_lt _ _ _ I) as Hr. change (List.length ROWS) with 10%nat in Hr.
  unfold _grid2img_chip, _chip2ind, Dict.getitem. rewrite G. cbn [bind fst snd].
  rewrite I. cbn [bind].
  set (j := if h >? 0 then h + 1 else h).
  assert (0 <= j < 42) as Hj.
  { unfold j. destruct (Z.gtb_spec h 0); lia. }
  unfold get_row. rewrite np_index_in_range by lia. cbn [bind].
  rewrite Hv. cbn [bind].
  assert (img_set (Z.of_nat r) j v img = Ok (put r (Z.to_nat j) v img)) as Eset.
  { unfold img_set, N_ROWS, N_COLS.
    rewrite np_index_in_range by lia. cbn [bind].
    rewrite np_index_in_range by (simpl; lia). cbn [bind].
    rewrite Nat2Z.id. reflexivity. }
  rewrite Eset. cbn [bind].
  assert (img_get (Z.of_nat r) j (put r (Z.to_nat j) v img) = Ok v) as Eget.
  { unfold img_get, N_ROWS, N_COLS.
    rewrite np_index_in_range by lia. cbn [bind].
    rewrite np_index_in_range by (simpl; lia). cbn [bind].
    rewrite Nat2Z.id.
    pose proof (cell_at_put_same r (Z.to_nat j) v img Hs Hr ltac:(lia)) as Ec.
    unfold cell_at in Ec.
    destruct (nth_error (put r (Z.to_nat j) v img) r); [|discriminate].
    rewrite Ec. reflexivity. }
  rewrite Eget. cbn [bind].
  destruct (eq_50 (fst (fst v))); [|reflexivity].
  unfold img_set, N_ROWS, N_COLS.
  rewrite np_index_in_range by lia. cbn [bind].
  rewrite np_index_in_range by (simpl; lia). cbn [bind].
  rewrite Nat2Z.id. f_equal.
  apply put_again. apply cell_at_put_same; auto. lia.
Qed.

Lemma _grid2img_loop (grid : list (color F)) (m : Dict.t Z (string * Z))
  (n : nat) :
  forall (s : nat) (img0 : image F),
    (1 <= s)%nat -> (s + n <= List.length grid + 1)%nat -> shape_ok img0 ->
    (forall k, (s <= k < s + n)%nat ->
       exists L h, Dict.get (Z.of_nat k) m = Some (L, h)
                   /\ In L ROWS /\ 0 <= h <= 40) ->
    exists img,
      for_each (_grid2img_chip grid m) (map Z.of_nat (seq s n)) img0 = Ok img
      /\ shape_ok img
      /\ (forall k r col,
            (s <= k < s + n)%nat ->
            target m (Z.of_nat k) = Some (r, col) ->
            (forall k', (k < k' < s + n)%nat ->
               target m (Z.of_nat k') <> Some (r, col)) ->
            cell_at img r col = nth_error grid (k - 1))
      /\ (forall r col,
            (forall k, (s <= k < s + n)%nat ->
               target m (Z.of_nat k) <> Some (r, col)) ->
            cell_at img r col = cell_at img0 r col).
Proof.
  induction n as [|n IH]; intros s img0 Hs Hn Hshape Hvalid.
  - exists img0. repeat split; auto; try apply Hshape. intros k r col Hk; lia.
  - destruct (Hvalid s ltac:(lia)) as (L & h & G & IL & Hh).
    destruct (index_In L ROWS IL) as [r0 I0].
    pose proof (index_lt _ _ _ I0) as Hr0.
    change (List.length ROWS) with 10%nat in Hr0.
    destruct (nth_error grid (Z.to_nat (Z.of_nat s - 1))) as [v|] eqn:Ev.
    2:{ apply nth_error_None in Ev. lia. }
    set (col0 := Z.to_nat (if h >? 0 then h + 1 else h)).
    assert (col0 < 42)%nat as Hc0.
    { unfold col0. destruct (Z.gtb_spec h 0); lia. }
    assert (target m (Z.of_nat s) = Some (r0, col0)) as Ts.
    { unfold target. rewrite G, I0. reflexivity. }
    cbn [seq map for_each].
    rewrite (_grid2img_chip_put grid m img0 (Z.of_nat s) L h r0 v Hshape G I0 Hh
               ltac:(lia) Ev).
    cbn [bind]. fold col0.
    destruct (IH (S s) (put r0 col0 v img0)) as (img & E & Hsh & Hin & Hout).
    + lia.
    + lia.
    + apply shape_put; exact Hshape.
    + intros k Hk. apply Hvalid; lia.
    + exists img. split; [exact E|]. split; [exact Hsh|]. split.
      * intros k r col Hk Tk Hlate.
        destruct (Nat.eq_dec k s) as [->|Nk].
        -- rewrite Ts in Tk. inversion Tk; subst r col.
           rewrite Hout.
           ++ rewrite cell_at_put_same by auto.
              replace (s - 1)%nat with (Z.to_nat (Z.of_nat s - 1)) by lia.
              symmetry; exact Ev.
           ++ intros k' Hk'. apply Hlate. lia.
        -- apply Hin; auto; [lia|]. intros k' Hk'. apply Hlate. lia.
      * intros r col Hnone. rewrite Hout.
        -- apply cell_at_put_other. intros E'. inversion E'; subst.
           apply (Hnone s); [lia|exact Ts].
        -- intros k Hk. apply Hnone. lia.
Qed.

Lemma cell_at_white (r col : nat) :
  (r < 10)%nat -> (col < 42)%nat ->
  cell_at (repeat (repeat white (N_COLS + 1)) N_ROWS) r col = Some white.
Proof.
  intros Hr Hc. unfold cell_at, N_ROWS, N_COLS.
  rewrite nth_error_repeat by exact Hr.
  apply nth_error_repeat. simpl; exact Hc.
Qed.

(** C8.  When every chip from 1 to [len(grid)] has a row letter among A..J
    and a hue from 0 to 40, [_grid2img] returns an image of 10 rows of 42
    colors.  The color of a chip of hue [h > 0] is found at column [h + 1]
    of the row of its letter, and that of a chip of hue 0 at column 0,
    unless a later chip is written to the same cell; a cell that no chip
    is written to is white. *)
Theorem _grid2img_layout (grid : list (color F)) (m : Dict.t Z (string * Z)) :
  (forall c, 1 <= c <= Z.of_nat (List.length grid) ->
     exists L h, Dict.get c m = Some (L, h) /\ In L ROWS /\ 0 <= h <= 40) ->
  exists img,
    _grid2img grid m = Ok img
    /\ List.length img = 10%nat
    /\ (forall row, In row img -> List.length row = 42%nat)
    /\ (forall c L h r v,
          1 <= c <= Z.of_nat (List.length grid) ->
          Dict.get c m = Some (L, h) ->
          index L ROWS = Ok r ->
          nth_error grid (Z.to_nat (c - 1)) = Some v ->
          (forall c', c < c' <= Z.of_nat (List.length grid) ->
             target m c' <> target m c) ->
          (h > 0 -> cell_at img r (Z.to_nat (h + 1)) = Some v)
          /\ (h = 0 -> cell_at img r 0 = Some v))
    /\ (forall r col,
          (r < 10)%nat -> (col < 42)%nat ->
          (forall c, 1 <= c <= Z.of_nat (List.length grid) ->
             target m c <> Some (r, col)) ->
          cell_at img r col = Some white).
Proof.
  intros Hvalid.
  destruct (_grid2img_loop grid m (List.length grid) 1
              (repeat (repeat white (N_COLS + 1)) N_ROWS))
    as (img & E & [Hl Hrows] & Hin & Hout).
  - lia.
  - lia.
  - split; [apply repeat_length|].
    apply Forall_forall. intros row I. apply repeat_spec in I. subst.
    apply repeat_length.
  - intros k Hk. apply Hvalid. lia.
  - exists img. split; [exact E|]. split; [exact Hl|]. split; [|split].
    + apply Forall_forall; exact Hrows.
    + intros c L h r v Hc G I Hv Hlate.
      assert (cell_at img r (Z.to_nat (if h >? 0 then h + 1 else h)) = Some v)
        as Hcell.
      { rewrite (Hin (Z.to_nat c) r (Z.to_nat (if h >? 0 then h + 1 else h))).
        - rewrite <- Hv. f_equal. lia.
        - lia.
        - rewrite Z2Nat.id by lia. unfold target. rewrite G, I. reflexivity.
        - intros k' Hk'. rewrite <- (Z2Nat.id c) in Hlate by lia.
          specialize (Hlate (Z.of_nat k') ltac:(lia)).
          rewrite Z2Nat.id in Hlate by lia.
          intros T. apply Hlate. rewrite T. unfold target. rewrite G, I.
          reflexivity. }
      split; intros Hh.
      * destruct (Z.gtb_spec h 0); [exact Hcell|lia].
      * subst h. exact Hcell.
    + intros r col Hr Hcol Hnone. rewrite Hout.
      * apply cell_at_white; assumption.
      * intros k Hk. apply Hnone. lia.
Qed.

End Image.
End ImageFacts.

Module ImageExamples.
Import PySeq wcsHelper ImageFacts Notions Samples.

Example _grid2img_two_chips :
  exists img,
    @_grid2img Q _ [grey; dark] [(1, ("A", 0)); (2, ("B", 3))] = Ok img
    /\ cell_at img 0 0 = Some grey
    /\ cell_at img 1 4 = Some dark
    /\ cell_at img 1 3 = Some white
    /\ cell_at img 0 1 = Some white.
Proof. eexists. split; [vm_compute; reflexivity|]. repeat split. Qed.

Example _grid2img_unknown_letter :
  @_grid2img Q _ [grey] [(1, ("K", 0))] = Err ValueError.
Proof. reflexivity. Qed.

Example _grid2img_negative_hue :
  exists img,
    @_grid2img Q _ [grey] [(1, ("A", -1))] = Ok img
    /\ cell_at img 0 41 = Some grey.
Proof. eexists. split; [vm_compute; reflexivity|]. reflexivity. Qed.

(** A chip of hue 41 has no column in the image, and of two chips with the
    same coordinate only the later one leaves its color. *)
Lemma _grid2img_hue_41_or_shared_cell :
  Dict.get 1 [(1, ("A", 41))] = Some ("A", 41)
  /\ @_grid2img Q _ [grey] [(1, ("A", 41))] = Err IndexError
  /\ exists img,
       @_grid2img Q _ [grey; dark] [(1, ("A", 0)); (2, ("A", 0))] = Ok img
       /\ cell_at img 0 0 = Some dark
       /\ cell_at img 0 0 <> Some grey.
Proof.
  split; [reflexivity|]. split; [reflexivity|].
  eexists. split; [vm_compute; reflexivity|].
  split; [reflexivity|]. vm_compute. discriminate.
Qed.

Lemma _grid2img_layout_witness :
  let m := [(1, ("A", 0)); (2, ("B", 3))] in
  (forall c, 1 <= c <= Z.of_nat (List.length [grey; dark]) ->
     exists L h, Dict.get c m = Some (L, h) /\ In L ROWS /\ 0 <= h <= 40)
  /\ exists img,
       @_grid2img Q _ [grey; dark] m = Ok img /\ List.length img = 10%nat.
Proof.
  intros m.
  assert (forall c, 1 <= c <= Z.of_nat (List.length [grey; dark]) ->
            exists L h, Dict.get c m = Some (L, h) /\ In L ROWS /\ 0 <= h <= 40)
    as Hm.
  { intros c R. simpl in R.
    destruct (Z.eq_dec c 1) as [->|N1].
    - exists "A", 0. split; [reflexivity|]. split; [simpl; auto|lia].
    - assert (c = 2) as -> by lia.
      exists "B", 3. split; [reflexivity|]. split; [simpl; auto|lia]. }
  split; [exact Hm|].
  destruct (@_grid2img_layout Q _ [grey; dark] m Hm) as (img & E & L & _).
  exists img. split; assumption.
Defined.

End ImageExamples.

(** * The table helper, and more on the readers *)

(** ** Sorting *)

Module SortFacts.
Import Notions.

Section Sort.
Context {K : Type} `{PyOrd K}.

Lemma insert_asc_perm (x : K) (l : list K) :
  Permutation (PySorted.insert_asc x l) (x :: l).
Proof.
  induction l as [|y l IH]; simpl; [reflexivity|].
  destruct (py_le x y); [reflexivity|].
  rewrite IH. apply perm_swap.
Qed.

Lemma sorted_perm (l : list K) : Permutation (PySorted.sorted l) l.
Proof.
  induction l as [|x l IH]; simpl; [reflexivity|].
  rewrite insert_asc_perm. constructor; exact IH.
Qed.

Lemma insert_asc_ascending (x : K) (l : list K) :
  total_order K -> ascending l -> ascending (PySorted.insert_asc x l).
Proof.
  intros T. unfold ascending.
  induction l as [|y l IH]; simpl; intros S.
  - repeat constructor.
  - destruct (py_le x y) eqn:E.
    + constructor; [exact S|]. constructor; exact E.
    + inversion S as [|? ? S' Hd]; subst.
      constructor; [apply IH; exact S'|].
      destruct l as [|z l]; simpl.
      * constructor. destruct (T x y) as [L|L]; congruence.
      * destruct (py_le x z).
        -- constructor. destruct (T x y) as [L|L]; congruence.
        -- constructor. inversion Hd; subst; assumption.
Qed.

Lemma sorted_ascending (l : list K) :
  total_order K -> ascending (PySorted.sorted l).
Proof.
  intros T. induction l as [|x l IH]; simpl.
  - constructor.
  - apply insert_asc_ascending; assumption.
Qed.

End Sort.

Lemma total_order_Z : total_order Z.
Proof.
  intros a b. unfold py_le, PyOrd_Z.
  destruct (Z.leb_spec a b); [auto|right; apply Z.leb_le; lia].
Qed.

Lemma total_order_string : total_order string.
Proof.
  intros a b. unfold py_le, PyOrd_string.
  destruct (String.leb_total a b); auto.
Qed.

End SortFacts.

(** ** Rows of a dictionary, and the chip tables *)

Module RowFacts.
Import Notions.

Section Rows.
Context {K V : Type} `{Hashable K}.
Implicit Types (d : Dict.t K V) (ks : list K) (vs : list V).

Lemma lookup_rows_cons_out (k : K) (v : V) d ks :
  ~ In k ks -> lookup_rows ((k, v) :: d) ks = lookup_rows d ks.
Proof.
  unfold lookup_rows. induction ks as [|k' ks IH]; intros N; [reflexivity|].
  cbn [flat_map]. rewrite IH by (simpl in N; tauto).
  cbn [Dict.get]. destruct (key_eq_dec k' k) as [->|Nk]; [|reflexivity].
  exfalso; apply N; left; reflexivity.
Qed.

(** Looking the keys of a dictionary up gives back its bindings. *)
Lemma lookup_rows_keys d : Dict.wf d -> lookup_rows d (Dict.keys d) = d.
Proof.
  unfold Dict.wf, Dict.keys.
  induction d as [|[k v] d IH]; simpl; intros W; [reflexivity|].
  inversion W as [|? ? Hk W']; subst.
  change (lookup_rows ((k, v) :: d) (k :: map fst d))
    with (match Dict.get k ((k, v) :: d) with
          | Some v' => [(k, v')]
          | None => []
          end ++ lookup_rows ((k, v) :: d) (map fst d)).
  cbn [Dict.get]. destruct (key_eq_dec k k); [|congruence].
  rewrite lookup_rows_cons_out by exact Hk. rewrite IH by exact W'.
  reflexivity.
Qed.

Lemma lookup_rows_combine d ks vs :
  map (fun k => Dict.get k d) ks = map Some vs ->
  lookup_rows d ks = combine ks vs /\ map fst (combine ks vs) = ks
  /\ map snd (combine ks vs) = vs.
Proof.
  unfold lookup_rows. revert vs.
  induction ks as [|k ks IH]; intros [|v vs] E; simpl in E; try discriminate.
  - repeat split.
  - injection E as Ek E. destruct (IH vs E) as (E1 & E2 & E3).
    simpl. rewrite Ek, E1, E2, E3. repeat split.
Qed.

Lemma lookup_rows_perm d ks ks' :
  Permutation ks ks' -> Permutation (lookup_rows d ks) (lookup_rows d ks').
Proof.
  intros P. unfold lookup_rows. induction P; simpl.
  - reflexivity.
  - apply Permutation_app_head; assumption.
  - rewrite !app_assoc. apply Permutation_app_tail. apply Permutation_app_comm.
  - etransitivity; eassumption.
Qed.

(** Every key of a dictionary is found in it. *)
Lemma getitem_keys d ks :
  (forall k, In k ks -> In k (Dict.keys d)) ->
  exists vs, map_result (fun k => Dict.getitem k d) ks = Ok vs.
Proof.
  intros Hin. apply map_result_Ok. intros k I.
  destruct (DictFacts.keys_get k d (Hin k I)) as [v G].
  exists v. unfold Dict.getitem. rewrite G. reflexivity.
Qed.

End Rows.

Section SortedRows.
Context {K V : Type} `{Hashable K} `{PyOrd K}.

Lemma _get_sorted_keys_and_values_lookup (d : Dict.t K V) :
  total_order K ->
  exists ks vs,
    wcs_table_helper._get_sorted_keys_and_values d = Ok (ks, vs)
    /\ Permutation ks (Dict.keys d)
    /\ ascending ks
    /\ map (fun k => Dict.get k d) ks = map Some vs.
Proof.
  intros T. unfold wcs_table_helper._get_sorted_keys_and_values. cbv zeta.
  destruct (getitem_keys d (PySorted.sorted (Dict.keys d))) as [vs E].
  { intros k I. eapply Permutation_in; [apply SortFacts.sorted_perm|exact I]. }
  rewrite E. cbn [bind]. exists (PySorted.sorted (Dict.keys d)), vs.
  split; [reflexivity|]. split; [apply SortFacts.sorted_perm|].
  split; [apply SortFacts.sorted_ascending; exact T|].
  apply GridFacts.getitem_lookup; exact E.
Qed.

(** The sorted keys and the values found for them, as rows. *)
Lemma _get_sorted_keys_and_values_rows (d : Dict.t K V) :
  Dict.wf d -> total_order K ->
  exists rows,
    wcs_table_helper._get_sorted_keys_and_values d
    = Ok (map fst rows, map snd rows)
    /\ Permutation rows d /\ ascending_rows rows.
Proof.
  intros W T. unfold wcs_table_helper._get_sorted_keys_and_values. cbv zeta.
  destruct (getitem_keys d (PySorted.sorted (Dict.keys d))) as [vs E].
  { intros k I. eapply Permutation_in; [apply SortFacts.sorted_perm|exact I]. }
  rewrite E. cbn [bind].
  pose proof (proj1 (GridFacts.getitem_lookup _ _ _) E) as L.
  destruct (lookup_rows_combine d _ vs L) as (E1 & E2 & E3).
  exists (combine (PySorted.sorted (Dict.keys d)) vs).
  rewrite E2, E3. split; [reflexivity|]. split.
  - rewrite <- E1.
    pose proof (lookup_rows_perm d _ _ (SortFacts.sorted_perm (Dict.keys d)))
      as P.
    rewrite (lookup_rows_keys d W) in P. exact P.
  - unfold ascending_rows. rewrite E2. apply SortFacts.sorted_ascending; exact T.
Qed.

End SortedRows.

End RowFacts.

Module TableFacts.
Import wcsHelper wcs_table_helper Notions RowFacts.

(** X2.  [_get_sorted_keys_and_values] never raises: it returns the keys of
    the dictionary in ascending order, each once, and beside each key the
    value the dictionary holds for it. *)
Theorem _get_sorted_keys_and_values_sorted {K V : Type} `{Hashable K} `{PyOrd K}
  (d : Dict.t K V) :
  total_order K ->
  exists ks vs,
    _get_sorted_keys_and_values d = Ok (ks, vs)
    /\ Permutation ks (Dict.keys d)
    /\ ascending ks
    /\ map (fun k => Dict.get k d) ks = map Some vs.
Proof. apply _get_sorted_keys_and_values_lookup. Qed.

Lemma unzip_pairs_rows (rows : list (Z * (string * Z))) :
  rows <> [] ->
  unzip_pairs (map snd rows)
  = Ok (map (fun r => fst (snd r)) rows, map (fun r => snd (snd r)) rows).
Proof.
  destruct rows as [|r rows]; [congruence|]. intros _.
  unfold unzip_pairs. cbn [map]. rewrite !map_map. reflexivity.
Qed.

Lemma loadChipTables_dicts_rows (coord_to_index : Dict.t string Z)
  (index_to_coord : Dict.t Z (string * Z)) :
  Dict.wf coord_to_index -> Dict.wf index_to_coord -> index_to_coord <> [] ->
  exists rows1 rows2,
    loadChipTables_dicts coord_to_index index_to_coord
    = Ok (coordToIndexTable rows1, indexToCoordTable rows2)
    /\ Permutation rows1 coord_to_index /\ ascending_rows rows1
    /\ Permutation rows2 index_to_coord /\ ascending_rows rows2.
Proof.
  intros W1 W2 N.
  destruct (_get_sorted_keys_and_values_rows coord_to_index W1
              SortFacts.total_order_string) as (rows1 & E1 & P1 & A1).
  destruct (_get_sorted_keys_and_values_rows index_to_coord W2
              SortFacts.total_order_Z) as (rows2 & E2 & P2 & A2).
  assert (rows2 <> []) as N2.
  { intros ->. apply Permutation_nil in P2. congruence. }
  exists rows1, rows2. split; [|repeat split; assumption].
  unfold loadChipTables_dicts. rewrite E1. cbn [bind]. rewrite E2. cbn [bind].
  rewrite (unzip_pairs_rows rows2 N2). cbn [bind].
  unfold coordToIndexTable, indexToCoordTable. rewrite !map_map. reflexivity.
Qed.

(** X3.  With the two dictionaries, the second of them not empty,
    [loadChipTables] returns two tables that list the bindings of the
    dictionaries, each once, in ascending order of the keys: coordinate and
    index in the first, index, lightness and hue in the second.  A single
    tuple holding the dictionaries gives the same tables. *)
Theorem loadChipTables_rows (coord_to_index : Dict.t string Z)
  (index_to_coord : Dict.t Z (string * Z)) :
  Dict.wf coord_to_index -> Dict.wf index_to_coord -> index_to_coord <> [] ->
  exists rows1 rows2,
    loadChipTables (two_dicts coord_to_index index_to_coord)
    = Ok (coordToIndexTable rows1, indexToCoordTable rows2)
    /\ loadChipTables (one_tuple coord_to_index index_to_coord)
       = Ok (coordToIndexTable rows1, indexToCoordTable rows2)
    /\ Permutation rows1 coord_to_index /\ ascending_rows rows1
    /\ Permutation rows2 index_to_coord /\ ascending_rows rows2.
Proof.
  intros W1 W2 N.
  destruct (loadChipTables_dicts_rows coord_to_index index_to_coord W1 W2 N)
    as (rows1 & rows2 & E & P).
  exists rows1, rows2. split; [exact E|]. split; [exact E|exact P].
Qed.

(** X4.  [loadChipTables] without argument returns two empty tables, with
    more than two arguments it raises [ValueError], and with an empty
    second dictionary it raises the [ValueError] of unpacking no column
    into lightness and hue; otherwise it returns. *)
Theorem loadChipTables_edge_cases (coord_to_index : Dict.t string Z)
  (index_to_coord : Dict.t Z (string * Z)) :
  loadChipTables no_argument = Ok ([], [])
  /\ loadChipTables more_arguments = Err ValueError
  /\ (index_to_coord = [] ->
      loadChipTables (two_dicts coord_to_index index_to_coord) = Err ValueError
      /\ loadChipTables (one_tuple coord_to_index index_to_coord)
         = Err ValueError)
  /\ (index_to_coord <> [] ->
      exists tables,
        loadChipTables (two_dicts coord_to_index index_to_coord) = Ok tables
        /\ loadChipTables (one_tuple coord_to_index index_to_coord) = Ok tables).
Proof.
  split; [reflexivity|]. split; [reflexivity|].
  destruct (_get_sorted_keys_and_values_lookup coord_to_index
              SortFacts.total_order_string) as (ks1 & vs1 & E1 & _).
  destruct (_get_sorted_keys_and_values_lookup index_to_coord
              SortFacts.total_order_Z) as (ks2 & vs2 & E2 & P2 & _ & L2).
  cbn [loadChipTables]. unfold loadChipTables_dicts.
  rewrite E1. cbn [bind]. rewrite E2. cbn [bind]. split.
  - intros ->. apply Permutation_sym, Permutation_nil in P2. subst ks2.
    destruct vs2; [|discriminate]. split; reflexivity.
  - intros N. destruct vs2 as [|v vs2].
    + destruct ks2; [|discriminate]. apply Permutation_nil in P2.
      destruct index_to_coord; [congruence|discriminate].
    + cbn [unzip_pairs bind]. eexists. split; reflexivity.
Qed.

End TableFacts.

(** ** The CIELAB table *)

Module ClabTableFacts.
Import wcsHelper wcs_table_helper Notions RowFacts.

Lemma tuple_item_error {A : Type} (i : nat) (v : list A) (e : pyerr) :
  tuple_item i v = Err e -> e = IndexError.
Proof. unfold tuple_item. destruct (nth_error v i); congruence. Qed.

Lemma lab_of_None (v : list pyfloat) :
  lab_of v = None -> tuple_item 2 v = Err IndexError.
Proof.
  unfold tuple_item. destruct v as [|l [|a [|b v]]]; simpl; congruence.
Qed.

(** The three columns read off rows that all have three components. *)
Lemma clab_columns (rows0 : list (Z * list pyfloat)) :
  (forall r, In r rows0 -> lab_of (snd r) <> None) ->
  exists rows,
    map fst rows = map fst rows0
    /\ Forall2 (fun r0 r => fst r = fst r0 /\ lab_of (snd r0) = Some (snd r))
               rows0 rows
    /\ map_result (tuple_item 0) (map snd rows0)
       = Ok (map (fun r => fst (fst (snd r))) rows)
    /\ map_result (tuple_item 1) (map snd rows0)
       = Ok (map (fun r => snd (fst (snd r))) rows)
    /\ map_result (tuple_item 2) (map snd rows0)
       = Ok (map (fun r => snd (snd r)) rows).
Proof.
  induction rows0 as [|[k v] rows0 IH]; intros Hall.
  - exists []. repeat split; constructor.
  - destruct IH as (rows & Ek & F & E0 & E1 & E2).
    { intros r I. apply Hall. right; exact I. }
    pose proof (Hall (k, v) (or_introl eq_refl)) as Hv. simpl in Hv.
    destruct v as [|l [|a [|b v]]]; simpl in Hv; try congruence.
    exists ((k, (l, a, b)) :: rows). cbn [map fst snd map_result].
    rewrite Ek, E0, E1, E2. repeat split. constructor; auto.
Qed.

Lemma Forall2_In_r {A B : Type} (P : A -> B -> Prop) (l : list A) (l' : list B)
  (y : B) :
  Forall2 P l l' -> In y l' -> exists x, In x l /\ P x y.
Proof.
  induction 1 as [|x y' l l' HP F IH]; simpl; [intros []|].
  intros [->|I]; [eauto|]. destruct (IH I) as (x' & I' & HP'). eauto.
Qed.

Lemma Forall2_In_l {A B : Type} (P : A -> B -> Prop) (l : list A) (l' : list B)
  (x : A) :
  Forall2 P l l' -> In x l -> exists y, In y l' /\ P x y.
Proof.
  induction 1 as [|x' y l l' HP F IH]; simpl; [intros []|].
  intros [->|I]; [eauto|]. destruct (IH I) as (y' & I' & HP'). eauto.
Qed.

Lemma loadClabTable_complete (index_to_clab : Dict.t Z (list pyfloat)) :
  Dict.wf index_to_clab ->
  (forall k v, In (k, v) index_to_clab -> lab_of v <> None) ->
  exists rows,
    loadClabTable index_to_clab = Ok (clabTable rows)
    /\ ascending_rows rows
    /\ Permutation (map fst rows) (Dict.keys index_to_clab)
    /\ forall k lab,
         In (k, lab) rows
         <-> exists v, Dict.get k index_to_clab = Some v /\ lab_of v = Some lab.
Proof.
  intros W Hall.
  destruct (_get_sorted_keys_and_values_rows index_to_clab W
              SortFacts.total_order_Z) as (rows0 & E & P & A).
  destruct (clab_columns rows0) as (rows & Ek & F & E0 & E1 & E2).
  { intros [k v] I. apply (Hall k v). eapply Permutation_in; eauto. }
  exists rows. split; [|split; [|split]].
  - unfold loadClabTable. rewrite E. cbn [bind].
    rewrite E0. cbn [bind]. rewrite E1. cbn [bind]. rewrite E2. cbn [bind].
    unfold clabTable. rewrite <- Ek, !map_map. reflexivity.
  - unfold ascending_rows in *. rewrite Ek. exact A.
  - rewrite Ek. unfold Dict.keys. apply Permutation_map. exact P.
  - intros k lab. split.
    + intros I. destruct (Forall2_In_r _ _ _ _ F I) as ([k0 v] & I0 & Ef & El).
      simpl in Ef, El. subst k0. exists v. split; [|exact El].
      apply DictFacts.In_get; [exact W|]. eapply Permutation_in; eauto.
    + intros (v & G & El). apply DictFacts.get_Some_In in G.
      apply (Permutation_in _ (Permutation_sym P)) in G.
      destruct (Forall2_In_l _ _ _ _ F G) as ([k' lab'] & I' & Ef & El').
      simpl in Ef, El'. subst k'. congruence.
Qed.

Lemma loadClabTable_incomplete (index_to_clab : Dict.t Z (list pyfloat))
  (k : Z) (v : list pyfloat) :
  Dict.get k index_to_clab = Some v -> lab_of v = None ->
  loadClabTable index_to_clab = Err IndexError.
Proof.
  intros G Hv.
  destruct (_get_sorted_keys_and_values_lookup index_to_clab
              SortFacts.total_order_Z) as (ks & vs & E & P & _ & L).
  assert (In v vs) as Iv.
  { assert (In (Some v) (map Some vs)) as I.
    { rewrite <- L, <- G. apply (in_map (fun k => Dict.get k index_to_clab)).
      apply (Permutation_in _ (Permutation_sym P)).
      eapply DictFacts.get_Some_keys; eauto. }
    apply in_map_iff in I. destruct I as (v' & Ev & I). congruence. }
  unfold loadClabTable. rewrite E. cbn [bind].
  destruct (map_result (tuple_item 0) vs) as [l|e] eqn:E0; cbn [bind].
  2:{ assert (e = IndexError) as ->; [|reflexivity].
      eapply map_result_error; [|exact E0].
      intros x e'. apply tuple_item_error. }
  destruct (map_result (tuple_item 1) vs) as [a|e] eqn:E1; cbn [bind].
  2:{ assert (e = IndexError) as ->; [|reflexivity].
      eapply map_result_error; [|exact E1].
      intros x e'. apply tuple_item_error. }
  rewrite (map_result_fails (tuple_item 2) IndexError vs v); [reflexivity| |auto|].
  - intros x e'. apply tuple_item_error.
  - apply lab_of_None; exact Hv.
Qed.

(** X5.  When every tuple of the dictionary has at least three components,
    [loadClabTable] returns a table with one row for each index, in
    ascending order, holding the first three components of its tuple. *)
Theorem loadClabTable_rows (index_to_clab : Dict.t Z (list pyfloat)) :
  Dict.wf index_to_clab ->
  (forall k v, In (k, v) index_to_clab -> lab_of v <> None) ->
  exists rows,
    loadClabTable index_to_clab = Ok (clabTable rows)
    /\ ascending_rows rows
    /\ Permutation (map fst rows) (Dict.keys index_to_clab)
    /\ forall k lab,
         In (k, lab) rows
         <-> exists v, Dict.get k index_to_clab = Some v /\ lab_of v = Some lab.
Proof. apply loadClabTable_complete. Qed.

(** X6.  When some index is mapped to a tuple of fewer than three
    components, [loadClabTable] raises [IndexError]. *)
Theorem loadClabTable_short_tuple (index_to_clab : Dict.t Z (list pyfloat))
  (k : Z) (v : list pyfloat) :
  Dict.get k index_to_clab = Some v -> lab_of v = None ->
  loadClabTable index_to_clab = Err IndexError.
Proof. apply loadClabTable_incomplete. Qed.

End ClabTableFacts.

(** ** Nested loops, and the naming table *)

Module NestedFacts.
Import wcs_table_helper Notions RowFacts.

Section RowLoops.
Context {X R C : Type}.
Variables c1 c2 c3 c4 : R -> C.
Variable body : list C * list C * list C * list C -> X
                -> result (list C * list C * list C * list C).
Variable f : X -> list R.

(** A loop each of whose iterations appends rows appends them all, in
    order. *)
Lemma for_each_rows (xs : list X) :
  (forall rows x, In x xs ->
     body (cols4_of c1 c2 c3 c4 rows) x
     = Ok (cols4_of c1 c2 c3 c4 (rows ++ f x))) ->
  forall rows,
    for_each body xs (cols4_of c1 c2 c3 c4 rows)
    = Ok (cols4_of c1 c2 c3 c4 (rows ++ flat_map f xs)).
Proof.
  induction xs as [|x xs IH]; intros Hbody rows; cbn [for_each flat_map].
  - rewrite app_nil_r. reflexivity.
  - rewrite Hbody by (left; reflexivity). cbn [bind].
    rewrite IH by (intros; apply Hbody; right; assumption).
    rewrite app_assoc. reflexivity.
Qed.

Lemma cols4_of_snoc (rows : list R) (r : R) :
  cols4_of c1 c2 c3 c4 (rows ++ [r])
  = (map c1 rows ++ [c1 r], map c2 rows ++ [c2 r], map c3 rows ++ [c3 r],
     map c4 rows ++ [c4 r]).
Proof. unfold cols4_of. rewrite !map_app. reflexivity. Qed.

End RowLoops.

Section Keys.
Context {K V R : Type} `{Hashable K}.

(** Going through the keys and looking each up is going through the
    bindings. *)
Lemma flat_map_keys (g : K -> V -> list R) (d : Dict.t K V) :
  Dict.wf d ->
  flat_map (fun k => match Dict.get k d with
                     | Some v => g k v
                     | None => []
                     end) (Dict.keys d)
  = flat_map (fun kv => g (fst kv) (snd kv)) d.
Proof.
  intros W. rewrite <- (lookup_rows_keys d W) at 2.
  unfold lookup_rows. induction (Dict.keys d) as [|k ks IH]; [reflexivity|].
  cbn [flat_map]. rewrite flat_map_app, <- IH.
  destruct (Dict.get k d); simpl; rewrite ?app_nil_r; reflexivity.
Qed.

(** The rows of a nested structure after an assignment, when the new value
    holds the rows of the old one and some more. *)
Lemma flat_map_set_perm (g : K * V -> list R) (k : K) (v dflt : V)
  (extra : list R) (d : Dict.t K V) :
  g (k, dflt) = [] ->
  Permutation (g (k, v)) (g (k, Dict.get_default k dflt d) ++ extra) ->
  Permutation (flat_map g (Dict.set k v d)) (flat_map g d ++ extra).
Proof.
  intros Hd. unfold Dict.get_default.
  induction d as [|[k0 v0] d IH]; cbn [Dict.set Dict.get flat_map].
  - rewrite Hd, app_nil_r. auto.
  - destruct (key_eq_dec k k0) as [->|N]; cbn [flat_map]; intros P.
    + rewrite P, <- !app_assoc. apply Permutation_app_head.
      apply Permutation_app_comm.
    + rewrite <- app_assoc. apply Permutation_app_head. apply IH; exact P.
Qed.

End Keys.

Lemma flat_map_singleton {A B : Type} (f : A -> B) (l : list A) :
  flat_map (fun x => [f x]) l = map f l.
Proof. induction l as [|x l IH]; simpl; [|rewrite IH]; reflexivity. Qed.

End NestedFacts.

Module NamingTableFacts.
Import PyStr wcsHelper wcs_table_helper Notions RowFacts NestedFacts.

Lemma getitem_get {K V : Type} `{Hashable K} (k : K) (v : V) (d : Dict.t K V) :
  Dict.get k d = Some v -> Dict.getitem k d = Ok v.
Proof. unfold Dict.getitem. intros ->. reflexivity. Qed.

Lemma loadNamingTable_spkr_rows (d : naming) (lang spkr : Z)
  (ld : Dict.t Z (Dict.t Z string)) (sd : Dict.t Z string)
  (rows : list (Z * Z * Z * string)) :
  Dict.get lang d = Some ld -> Dict.get spkr ld = Some sd -> Dict.wf sd ->
  loadNamingTable_spkr d lang (naming_cols rows) spkr
  = Ok (naming_cols
          (rows ++ map (fun ct => (lang, spkr, fst ct, snd ct)) sd)).
Proof.
  intros Gl Gs W. unfold loadNamingTable_spkr. unfold naming in *.
  rewrite (getitem_get _ _ _ Gl). cbn [bind].
  rewrite (getitem_get _ _ _ Gs). cbn [bind].
  unfold naming_cols, cols4.
  rewrite (for_each_rows _ _ _ _ _
             (fun i => match Dict.get i sd with
                       | Some t => [(lang, spkr, i, t)]
                       | None => []
                       end)).
  - rewrite (flat_map_keys (fun i t => [(lang, spkr, i, t)]) sd W).
    rewrite (flat_map_singleton (fun ct => (lang, spkr, fst ct, snd ct))).
    reflexivity.
  - intros rows' i I. destruct (DictFacts.keys_get i sd I) as [t G].
    rewrite G, cols4_of_snoc. unfold loadNamingTable_index, cols4_of.
    rewrite (getitem_get _ _ _ Gl). cbn [bind].
    rewrite (getitem_get _ _ _ Gs). cbn [bind].
    rewrite (getitem_get _ _ _ G). reflexivity.
Qed.

Lemma loadNamingTable_lang_rows (d : naming) (lang : Z)
  (ld : Dict.t Z (Dict.t Z string)) (rows : list (Z * Z * Z * string)) :
  Dict.get lang d = Some ld -> Dict.wf ld ->
  (forall b sd, In (b, sd) ld -> Dict.wf sd) ->
  loadNamingTable_lang d (naming_cols rows) lang
  = Ok (naming_cols
          (rows ++ flat_map (fun bsd =>
                     map (fun ct => (lang, fst bsd, fst ct, snd ct)) (snd bsd))
                     ld)).
Proof.
  intros Gl W Hsd. unfold loadNamingTable_lang. unfold naming in *.
  rewrite (getitem_get _ _ _ Gl). cbn [bind].
  unfold naming_cols, cols4.
  rewrite (for_each_rows _ _ _ _ _
             (fun b => match Dict.get b ld with
                       | Some sd => map (fun ct => (lang, b, fst ct, snd ct)) sd
                       | None => []
                       end)).
  - rewrite (flat_map_keys
               (fun b sd => map (fun ct => (lang, b, fst ct, snd ct)) sd) ld W).
    reflexivity.
  - intros rows' b I. destruct (DictFacts.keys_get b ld I) as [sd G].
    rewrite G. apply (loadNamingTable_spkr_rows d lang b ld sd rows' Gl G).
    apply (Hsd b). apply DictFacts.get_Some_In; exact G.
Qed.

Lemma loadNamingTable_loop (d : naming) (rows : list (Z * Z * Z * string)) :
  wf3 d ->
  for_each (loadNamingTable_lang d) (Dict.keys d) (naming_cols rows)
  = Ok (naming_cols (rows ++ naming_rows d)).
Proof.
  intros [W Hd]. unfold naming_cols, cols4, naming in *.
  rewrite (for_each_rows _ _ _ _ _
             (fun a => match Dict.get a d with
                       | Some ld =>
                           flat_map (fun bsd =>
                             map (fun ct => (a, fst bsd, fst ct, snd ct)) (snd bsd))
                             ld
                       | None => []
                       end)).
  - rewrite (flat_map_keys
               (fun a ld =>
                  flat_map (fun bsd =>
                    map (fun ct => (a, fst bsd, fst ct, snd ct)) (snd bsd)) ld)
               d W).
    reflexivity.
  - intros rows' a I. destruct (DictFacts.keys_get a d I) as [ld G].
    rewrite G. pose proof (DictFacts.get_Some_In _ _ _ G) as Il.
    destruct (Hd a ld Il) as [Wl Hl].
    apply (loadNamingTable_lang_rows d a ld rows' G Wl Hl).
Qed.

(** X7.  [loadNamingTable] never raises on a nested dictionary: the table
    it returns has one row for each (language, speaker, chip) leaf, in the
    order of iteration, holding the term stored there. *)
Theorem loadNamingTable_rows (namingData : naming) :
  wf3 namingData ->
  loadNamingTable namingData = Ok (namingTable (naming_rows namingData)).
Proof.
  intros W. unfold loadNamingTable.
  change ([], [], [], []) with (naming_cols (@nil (Z * Z * Z * string))).
  rewrite (loadNamingTable_loop namingData [] W). reflexivity.
Qed.

Lemma naming_rows_keys (d : naming) : map fst (naming_rows d) = entries d.
Proof.
  unfold naming_rows, entries.
  induction d as [|[a ld] d IH]; [reflexivity|].
  cbn [flat_map]. rewrite map_app, IH. f_equal. cbn [fst snd]. clear IH.
  induction ld as [|[b sd] ld IH]; [reflexivity|].
  cbn [flat_map]. rewrite map_app, IH. f_equal. cbn [fst snd].
  rewrite map_map. cbn [fst]. symmetry. apply flat_map_singleton.
Qed.

Lemma naming_rows_In (d : naming) (a b c : Z) (t : string) :
  wf3 d -> (In (a, b, c, t) (naming_rows d) <-> term_at d a b c = Some t).
Proof.
  intros [W Hd]. unfold naming_rows, term_at. split.
  - intros I. apply in_flat_map in I. destruct I as ([a' ld] & Ia & I).
    apply in_flat_map in I. destruct I as ([b' sd] & Ib & I).
    apply in_map_iff in I. destruct I as ([c' t'] & E & Ic).
    simpl in *. inversion E; subst.
    destruct (Hd a ld Ia) as [Wl Hl].
    unfold Dict.get_default.
    rewrite (DictFacts.In_get a ld d W Ia).
    rewrite (DictFacts.In_get b sd ld Wl Ib).
    apply DictFacts.In_get; auto. apply (Hl b sd Ib).
  - intros E. unfold Dict.get_default in E.
    destruct (Dict.get a d) as [ld|] eqn:Ea; [|discriminate].
    destruct (Dict.get b ld) as [sd|] eqn:Eb; [|discriminate].
    apply in_flat_map. exists (a, ld). split.
    { apply DictFacts.get_Some_In; exact Ea. }
    apply in_flat_map. exists (b, sd). split.
    { apply DictFacts.get_Some_In; exact Eb. }
    apply in_map_iff. exists (c, t). split; [reflexivity|].
    apply DictFacts.get_Some_In; exact E.
Qed.

Lemma last_binding_In (recs : list (Z * Z * Z * string)) (k : Z * Z * Z)
  (t : string) :
  last_binding recs k t -> In k (map fst recs).
Proof.
  intros (r1 & r2 & -> & _). rewrite map_app. apply in_or_app.
  right; left; reflexivity.
Qed.

Lemma last_binding_unique (recs : list (Z * Z * Z * string)) (k : Z * Z * Z)
  (t t' : string) :
  last_binding recs k t -> last_binding recs k t' -> t = t'.
Proof.
  intros (r1 & r2 & E1 & N1) (r1' & r2' & E2 & N2).
  rewrite E1 in E2. clear - E2 N1 N2.
  revert r1' E2. induction r1 as [|x r1 IH]; intros [|x' r1'] E2; simpl in E2.
  - congruence.
  - inversion E2; subst. exfalso; apply N1. rewrite map_app.
    apply in_or_app; right; left; reflexivity.
  - inversion E2; subst. exfalso; apply N2. rewrite map_app.
    apply in_or_app; right; left; reflexivity.
  - inversion E2; subst. eauto.
Qed.

(** X8.  From the dictionary that [readNamingData] returns for a file,
    [loadNamingTable] builds a table with one row for each distinct
    (language, speaker, chip) triple of the file; the term of the row is
    that of the last line with the triple. *)
Theorem readNamingData_then_loadNamingTable (text : string) (d : naming) :
  readNamingData text = Ok d ->
  exists recs rows,
    map naming_fields (_read_lines text) = map Some recs
    /\ loadNamingTable d = Ok (namingTable rows)
    /\ NoDup (map fst rows)
    /\ forall k t, In (k, t) rows <-> last_binding recs k t.
Proof.
  unfold readNamingData, readNamingData_lines. intros E.
  destruct (NamingFacts.readNamingData_lines_spec _ _ _ E)
    as (recs & Hmap & Hwf & Hat).
  specialize (Hwf NamingFacts.wf3_empty).
  exists recs, (naming_rows d). split; [exact Hmap|].
  split.
  { unfold loadNamingTable.
    change ([], [], [], []) with (naming_cols (@nil (Z * Z * Z * string))).
    rewrite (loadNamingTable_loop d [] Hwf). reflexivity. }
  split.
  - rewrite naming_rows_keys. apply NamingFacts.entries_NoDup; exact Hwf.
  - intros [[a b] c] t. rewrite (naming_rows_In d a b c t Hwf).
    specialize (Hat a b c). split.
    + intros Et. rewrite Et in Hat.
      destruct Hat as [L|[Et0 _]]; [exact L|discriminate].
    + intros L. destruct (term_at d a b c) as [t'|].
      * destruct Hat as [L'|[_ N]].
        -- f_equal. eapply last_binding_unique; eauto.
        -- exfalso. apply N. eapply last_binding_In; eauto.
      * exfalso. apply (proj2 Hat). eapply last_binding_In; eauto.
Qed.

End NamingTableFacts.

(** ** The foci table *)

Module FociTableFacts.
Import PyStr wcsHelper wcs_table_helper Notions RowFacts NestedFacts.
Import NamingTableFacts.

Lemma loadFociTable_term_rows (d : foci_data) (lang spkr : Z) (term : string)
  (ld : Dict.t Z (Dict.t string (list string)))
  (sd : Dict.t string (list string)) (fl : list string)
  (rows : list (Z * Z * string * string)) :
  Dict.get lang d = Some ld -> Dict.get spkr ld = Some sd ->
  Dict.get term sd = Some fl ->
  loadFociTable_term d lang spkr (foci_cols rows) term
  = Ok (foci_cols (rows ++ map (fun x => (lang, spkr, term, x)) fl)).
Proof.
  intros Gl Gs Gt. unfold loadFociTable_term. unfold foci_data in *.
  rewrite (getitem_get _ _ _ Gl). cbn [bind].
  rewrite (getitem_get _ _ _ Gs). cbn [bind].
  rewrite (getitem_get _ _ _ Gt). cbn [bind].
  unfold foci_cols, cols4.
  rewrite (for_each_rows _ _ _ _ _ (fun x => [(lang, spkr, term, x)])).
  - rewrite (flat_map_singleton (fun x => (lang, spkr, term, x))). reflexivity.
  - intros rows' x _. rewrite cols4_of_snoc. reflexivity.
Qed.

Lemma loadFociTable_spkr_rows (d : foci_data) (lang spkr : Z)
  (ld : Dict.t Z (Dict.t string (list string)))
  (sd : Dict.t string (list string))
  (rows : list (Z * Z * string * string)) :
  Dict.get lang d = Some ld -> Dict.get spkr ld = Some sd -> Dict.wf sd ->
  loadFociTable_spkr d lang (foci_cols rows) spkr
  = Ok (foci_cols
          (rows ++ flat_map (fun tl =>
                     map (fun x => (lang, spkr, fst tl, x)) (snd tl)) sd)).
Proof.
  intros Gl Gs W. unfold loadFociTable_spkr. unfold foci_data in *.
  rewrite (getitem_get _ _ _ Gl). cbn [bind].
  rewrite (getitem_get _ _ _ Gs). cbn [bind].
  unfold foci_cols, cols4.
  rewrite (for_each_rows _ _ _ _ _
             (fun t => match Dict.get t sd with
                       | Some fl => map (fun x => (lang, spkr, t, x)) fl
                       | None => []
                       end)).
  - rewrite (flat_map_keys
               (fun t fl => map (fun x => (lang, spkr, t, x)) fl) sd W).
    reflexivity.
  - intros rows' t I. destruct (DictFacts.keys_get t sd I) as [fl G].
    rewrite G. apply (loadFociTable_term_rows d lang spkr t ld sd fl rows' Gl Gs G).
Qed.

Lemma loadFociTable_lang_rows (d : foci_data) (lang : Z)
  (ld : Dict.t Z (Dict.t string (list string)))
  (rows : list (Z * Z * string * string)) :
  Dict.get lang d = Some ld -> Dict.wf ld ->
  (forall b sd, In (b, sd) ld -> Dict.wf sd) ->
  loadFociTable_lang d (foci_cols rows) lang
  = Ok (foci_cols
          (rows ++ flat_map (fun bsd =>
                     flat_map (fun tl =>
                       map (fun x => (lang, fst bsd, fst tl, x)) (snd tl))
                       (snd bsd)) ld)).
Proof.
  intros Gl W Hsd. unfold loadFociTable_lang. unfold foci_data in *.
  rewrite (getitem_get _ _ _ Gl). cbn [bind].
  unfold foci_cols, cols4.
  rewrite (for_each_rows _ _ _ _ _
             (fun b => match Dict.get b ld with
                       | Some sd =>
                           flat_map (fun tl =>
                             map (fun x => (lang, b, fst tl, x)) (snd tl)) sd
                       | None => []
                       end)).
  - rewrite (flat_map_keys
               (fun b sd =>
                  flat_map (fun tl =>
                    map (fun x => (lang, b, fst tl, x)) (snd tl)) sd) ld W).
    reflexivity.
  - intros rows' b I. destruct (DictFacts.keys_get b ld I) as [sd G].
    rewrite G. apply (loadFociTable_spkr_rows d lang b ld sd rows' Gl G).
    apply (Hsd b). apply DictFacts.get_Some_In; exact G.
Qed.

Lemma loadFociTable_loop (d : foci_data) (rows : list (Z * Z * string * string)) :
  foci_wf d ->
  for_each (loadFociTable_lang d) (Dict.keys d) (foci_cols rows)
  = Ok (foci_cols (rows ++ foci_rows d)).
Proof.
  intros [W Hd]. unfold foci_cols, cols4, foci_data in *.
  rewrite (for_each_rows _ _ _ _ _
             (fun a => match Dict.get a d with
                       | Some ld =>
                           flat_map (fun bsd =>
                             flat_map (fun tl =>
                               map (fun x => (a, fst bsd, fst tl, x)) (snd tl))
                               (snd bsd)) ld
                       | None => []
                       end)).
  - rewrite (flat_map_keys
               (fun a ld =>
                  flat_map (fun bsd =>
                    flat_map (fun tl =>
                      map (fun x => (a, fst bsd, fst tl, x)) (snd tl))
                      (snd bsd)) ld) d W).
    reflexivity.
  - intros rows' a I. destruct (DictFacts.keys_get a d I) as [ld G].
    rewrite G. pose proof (DictFacts.get_Some_In _ _ _ G) as Il.
    destruct (Hd a ld Il) as [Wl Hl].
    apply (loadFociTable_lang_rows d a ld rows' G Wl Hl).
Qed.

(** X9.  [loadFociTable] never raises on a nested dictionary: the table it
    returns has one row for each focus of each (language, speaker, term),
    in the order of iteration. *)
Theorem loadFociTable_rows (fociData : foci_data) :
  foci_wf fociData ->
  loadFociTable fociData = Ok (fociTable (foci_rows fociData)).
Proof.
  intros W. unfold loadFociTable.
  change ([], [], [], []) with (foci_cols (@nil (Z * Z * string * string))).
  rewrite (loadFociTable_loop fociData [] W). reflexivity.
Qed.

Lemma foci_wf_empty : foci_wf Dict.empty.
Proof. split; [constructor|intros ? ? []]. Qed.

Lemma foci_wf_insert (a b : Z) (term x : string) (d : foci_data) :
  foci_wf d -> foci_wf (foci_insert a b term x d).
Proof.
  intros [W Hd]. unfold foci_insert; cbv zeta.
  set (ld := Dict.get_default a Dict.empty d).
  set (sd := Dict.get_default b Dict.empty ld).
  assert (Dict.wf ld /\ forall b' sd', In (b', sd') ld -> Dict.wf sd') as [Wl Hl].
  { unfold ld, Dict.get_default. destruct (Dict.get a d) as [ld'|] eqn:E.
    - apply (Hd a). apply DictFacts.get_Some_In; exact E.
    - split; [constructor|intros ? ? []]. }
  assert (Dict.wf sd) as Ws.
  { unfold sd, Dict.get_default. destruct (Dict.get b ld) as [sd'|] eqn:E.
    - apply (Hl b). apply DictFacts.get_Some_In; exact E.
    - constructor. }
  split; [apply DictFacts.wf_set; exact W|].
  intros a' ld' I. apply DictFacts.In_set in I.
  destruct I as [I|I]; [|exact (Hd a' ld' I)].
  inversion I; subst. split; [apply DictFacts.wf_set; exact Wl|].
  intros b' sd' I'. apply DictFacts.In_set in I'. destruct I' as [I'|I']; eauto.
  inversion I'; subst. apply DictFacts.wf_set; exact Ws.
Qed.

(** An accepted line adds one row. *)
Lemma foci_rows_insert (a b : Z) (term x : string) (d : foci_data) :
  Permutation (foci_rows (foci_insert a b term x d))
              (foci_rows d ++ [(a, b, term, x)]).
Proof.
  unfold foci_rows, foci_insert; cbv zeta.
  apply flat_map_set_perm with (dflt := Dict.empty); [reflexivity|].
  cbn [fst snd].
  apply flat_map_set_perm with (dflt := Dict.empty); [reflexivity|].
  cbn [fst snd].
  apply flat_map_set_perm with (dflt := []); [reflexivity|].
  cbn [fst snd]. rewrite map_app. reflexivity.
Qed.

Lemma readFociData_lines_rows (lines : list string) :
  forall d0 d, for_each readFociData_line lines d0 = Ok d ->
  exists recs,
    map foci_fields lines = map Some recs
    /\ (foci_wf d0 -> foci_wf d)
    /\ Permutation (foci_rows d) (foci_rows d0 ++ map stored_row recs).
Proof.
  induction lines as [|l lines IH]; intros d0 d E; simpl in E.
  - inversion E; subst. exists []. split; [reflexivity|]. split; [auto|].
    simpl. rewrite app_nil_r. reflexivity.
  - bind_inv E.
    destruct (FociFacts.readFociData_line_Ok _ _ _ E0)
      as (a & b & term & c & rest & Hf & ->).
    destruct (IH _ _ E) as (recs & Hmap & Hwf & Hperm).
    exists ((a, b, term, String c rest) :: recs). split; [|split].
    + simpl. rewrite Hf, Hmap. reflexivity.
    + intros W. apply Hwf, foci_wf_insert, W.
    + rewrite Hperm, foci_rows_insert, <- app_assoc. reflexivity.
Qed.

(** X10.  From the dictionary that [readFociData] returns for a file,
    [loadFociTable] builds a table with one row for each line of the file:
    its language, speaker and term, and its focus in the stored form.  The
    rows are grouped by language, speaker and term, so they are the lines
    up to their order. *)
Theorem readFociData_then_loadFociTable (text : string) (d : foci_data) :
  readFociData text = Ok d ->
  exists recs rows,
    map foci_fields (_read_lines text) = map Some recs
    /\ loadFociTable d = Ok (fociTable rows)
    /\ Permutation rows (map stored_row recs)
    /\ List.length rows = List.length (_read_lines text).
Proof.
  unfold readFociData, readFociData_lines. intros E.
  destruct (readFociData_lines_rows _ _ _ E) as (recs & Hmap & Hwf & Hperm).
  specialize (Hwf foci_wf_empty). simpl in Hperm.
  exists recs, (foci_rows d). split; [exact Hmap|]. split; [|split].
  - unfold loadFociTable.
    change ([], [], [], []) with (foci_cols (@nil (Z * Z * string * string))).
    rewrite (loadFociTable_loop d [] Hwf). reflexivity.
  - exact Hperm.
  - rewrite (Permutation_length Hperm), length_map.
    rewrite <- (length_map Some recs), <- Hmap. apply length_map.
Qed.

End FociTableFacts.

(** ** Later bindings overwrite earlier ones *)

Module LastFacts.
Import Notions.

Section Last.
Context {K V : Type} `{Hashable K}.

Lemma last_value_cons (k0 k : K) (v0 v : V) (bs : list (K * V)) :
  last_value ((k0, v0) :: bs) k v
  <-> last_value bs k v \/ ((k0, v0) = (k, v) /\ ~ In k (map fst bs)).
Proof.
  unfold last_value. split.
  - intros (b1 & b2 & E & N). destruct b1 as [|x b1]; simpl in E.
    + inversion E; subst. right. auto.
    + inversion E; subst. left. eauto.
  - intros [(b1 & b2 & -> & N)|[E N]].
    + exists ((k0, v0) :: b1), b2. auto.
    + inversion E; subst. exists [], bs. auto.
Qed.

Lemma last_value_In (bs : list (K * V)) (k : K) (v : V) :
  last_value bs k v -> In (k, v) bs.
Proof.
  intros (b1 & b2 & -> & _). apply in_or_app. right; left; reflexivity.
Qed.

Lemma last_value_exists (bs : list (K * V)) (k : K) :
  In k (map fst bs) -> exists v, last_value bs k v.
Proof.
  induction bs as [|[k0 v0] bs IH]; simpl; [intros []|]. intros I.
  destruct (in_dec key_eq_dec k (map fst bs)) as [I'|N].
  - destruct (IH I') as [v L]. exists v. apply last_value_cons. auto.
  - destruct I as [->|I]; [|tauto]. exists v0. apply last_value_cons. auto.
Qed.

(** A store filled by successive assignments holds, under every key, the
    value of the last assignment to it. *)
Section Store.
Context {D : Type}.
Variable lookup : D -> K -> option V.
Variable assign : K -> V -> D -> D.
Hypothesis lookup_assign : forall k v d k',
  lookup (assign k v d) k' = if key_eq_dec k' k then Some v else lookup d k'.

Lemma fold_assign_last (bs : list (K * V)) :
  forall d0 k v,
    lookup (fold_left (fun d kv => assign (fst kv) (snd kv) d) bs d0) k = Some v
    <-> last_value bs k v \/ (~ In k (map fst bs) /\ lookup d0 k = Some v).
Proof.
  induction bs as [|[k0 v0] bs IH]; intros d0 k v; cbn [fold_left fst snd map].
  - split; [auto|]. intros [(b1 & b2 & E & _)|[_ E]]; [|exact E].
    destruct b1; discriminate.
  - rewrite IH, lookup_assign, last_value_cons.
    destruct (key_eq_dec k k0) as [->|N]; simpl; split.
    + intros [L|[N E]]; [auto|]. inversion E; subst. left; right. auto.
    + intros [[L|[E N]]|[N _]]; [auto| |].
      * inversion E; subst. auto.
      * exfalso. apply N. left; reflexivity.
    + intros [L|[N' E]]; [auto|]. right. split; [|exact E].
      intros [E'|I]; [congruence|tauto].
    + intros [[L|[E _]]|[N' E]]; [auto|congruence|]. right. split; [tauto|exact E].
Qed.

End Store.

Lemma build_get_last (bs : list (K * V)) (d0 : Dict.t K V) (k : K) (v : V) :
  Dict.get k (build bs d0) = Some v
  <-> last_value bs k v \/ (~ In k (map fst bs) /\ Dict.get k d0 = Some v).
Proof.
  apply (fold_assign_last (fun d k => Dict.get k d) Dict.set).
  intros k1 v1 d k'. apply DictFacts.get_set.
Qed.

Lemma build_wf (bs : list (K * V)) (d0 : Dict.t K V) :
  Dict.wf d0 -> Dict.wf (build bs d0).
Proof.
  revert d0. induction bs as [|[k v] bs IH]; intros d0 W; [exact W|].
  rewrite MunsellFacts.build_cons. apply IH, DictFacts.wf_set, W.
Qed.

End Last.
End LastFacts.

Module ChipDictFacts.
Import PyStr PySeq wcsHelper wcs_table_helper Notions RowFacts LastFacts.

Lemma _get_rgb_dict_build (lines : list string) :
  forall d0 d,
    for_each _get_rgb_dict_row lines d0 = Ok d ->
    exists recs, map rgb_fields lines = map Some recs /\ d = build recs d0.
Proof.
  induction lines as [|l lines IH]; intros d0 d E; simpl in E.
  - inversion E; subst. exists []. auto.
  - bind_inv E. unfold _get_rgb_dict_row in E0. cbv zeta in E0.
    bind_inv E0. bind_inv E0. inversion E0; subst.
    destruct (IH _ _ E) as (recs & Hmap & ->).
    exists ((x0, x1) :: recs). split; [|reflexivity].
    simpl. unfold rgb_fields at 1. cbv zeta. rewrite E1, E2, Hmap. reflexivity.
Qed.

Lemma _get_clab_dict_build (lines : list string) :
  forall d0 d,
    for_each _get_clab_dict_row lines d0 = Ok d ->
    exists recs, map clab_fields lines = map Some recs /\ d = build recs d0.
Proof.
  induction lines as [|l lines IH]; intros d0 d E; simpl in E.
  - inversion E; subst. exists []. auto.
  - bind_inv E. unfold _get_clab_dict_row in E0. cbv zeta in E0.
    bind_inv E0. bind_inv E0. inversion E0; subst.
    destruct (IH _ _ E) as (recs & Hmap & ->).
    exists ((x0, x1) :: recs). split; [|reflexivity].
    simpl. unfold clab_fields at 1. cbv zeta. rewrite E1, E2, Hmap. reflexivity.
Qed.

(** What [readChipData] returns, as dictionaries filled row by row. *)
Lemma readChipData_lines_build (lines : list string) (cd : chip_data) :
  readChipData_lines lines = Ok cd ->
  exists rgbs clabs,
    map rgb_fields lines = map Some rgbs
    /\ map clab_fields lines = map Some clabs
    /\ map munsell_fields lines = map Some (rows_of lines)
    /\ chip_to_rgb cd = build rgbs Dict.empty
    /\ chip_to_clab cd = build clabs Dict.empty
    /\ chip_to_munsell cd
       = build (map (fun r => (row_index r, (row_L r, row_hue r))) (rows_of lines))
               Dict.empty
    /\ munsell_to_chip cd
       = build (map (fun r => (row_key r, row_index r)) (rows_of lines))
               Dict.empty.
Proof.
  unfold readChipData_lines, _get_munsell_dicts, _get_clab_dict, _get_rgb_dict.
  intros E. bind_inv E. bind_inv E. bind_inv E. inversion E; subst; clear E.
  destruct x as [m c].
  destruct (MunsellFacts._get_munsell_dicts_build _ _ _ _ _ E0)
    as (recs & Hmap & -> & ->).
  rewrite (MunsellFacts.rows_of_parsed _ _ Hmap).
  destruct (_get_clab_dict_build _ _ _ E1) as (clabs & Hc & ->).
  destruct (_get_rgb_dict_build _ _ _ E2) as (rgbs & Hr & ->).
  exists rgbs, clabs. cbn [chip_to_rgb chip_to_clab chip_to_munsell
                           munsell_to_chip fst snd].
  repeat split; auto.
Qed.

Lemma get_empty_last {K V : Type} `{Hashable K} (bs : list (K * V)) (k : K)
  (v : V) :
  Dict.get k (build bs Dict.empty) = Some v <-> last_value bs k v.
Proof.
  rewrite build_get_last. split; [|auto].
  intros [L|[_ E]]; [exact L|discriminate].
Qed.

(** X11.  Each of the four dictionaries of [readChipData] holds, under a
    key, what the last row of the file with that key gives: a row with an
    index or a coordinate already seen overwrites the earlier entry. *)
Theorem readChipData_last_row_wins (lines : list string) (cd : chip_data) :
  readChipData_lines lines = Ok cd ->
  exists rgbs clabs,
    map rgb_fields lines = map Some rgbs
    /\ map clab_fields lines = map Some clabs
    /\ map munsell_fields lines = map Some (rows_of lines)
    /\ (forall i v, Dict.get i (chip_to_rgb cd) = Some v <-> last_value rgbs i v)
    /\ (forall i v, Dict.get i (chip_to_clab cd) = Some v <-> last_value clabs i v)
    /\ (forall i m,
          Dict.get i (chip_to_munsell cd) = Some m
          <-> last_value (map (fun r => (row_index r, (row_L r, row_hue r)))
                              (rows_of lines)) i m)
    /\ (forall k i,
          Dict.get k (munsell_to_chip cd) = Some i
          <-> last_value (map (fun r => (row_key r, row_index r))
                              (rows_of lines)) k i).
Proof.
  intros E.
  destruct (readChipData_lines_build lines cd E)
    as (rgbs & clabs & Hr & Hc & Hm & -> & -> & -> & ->).
  exists rgbs, clabs. repeat split; auto; try apply get_empty_last;
    apply get_empty_last.
Qed.

Lemma readChipData_lines_error (lines : list string) (e : pyerr) :
  readChipData_lines lines = Err e -> e = ValueError.
Proof.
  unfold readChipData_lines, _get_munsell_dicts, _get_clab_dict, _get_rgb_dict.
  destruct (for_each _get_munsell_dicts_row lines _) as [md|e1] eqn:E1;
    cbn [bind].
  2:{ intros E; inversion E; subst.
      eapply (for_each_error _get_munsell_dicts_row); [|exact E1].
      intros; eapply ChipFacts._get_munsell_dicts_row_error; eauto. }
  destruct (for_each _get_clab_dict_row lines _) as [clab|e2] eqn:E2;
    cbn [bind].
  2:{ intros E; inversion E; subst.
      eapply (for_each_error _get_clab_dict_row); [|exact E2].
      intros; eapply ChipFacts._get_clab_dict_row_error; eauto. }
  destruct (for_each _get_rgb_dict_row lines _) as [rgb|e3] eqn:E3;
    cbn [bind]; [discriminate|].
  intros E; inversion E; subst.
  eapply (for_each_error _get_rgb_dict_row); [|exact E3].
  intros; eapply ChipFacts._get_rgb_dict_row_error; eauto.
Qed.

Lemma rejected_row_not_read (lines : list string) (row : string)
  (cd : chip_data) :
  In row lines -> rejected_row row -> readChipData_lines lines <> Ok cd.
Proof.
  intros I R E.
  unfold readChipData_lines, _get_munsell_dicts, _get_clab_dict, _get_rgb_dict
    in E.
  bind_inv E. bind_inv E. bind_inv E.
  destruct (ChipFacts.rejected_row_fails row R) as [F|[F|F]].
  - rewrite (for_each_fails _ ValueError lines row) in E0; auto; [discriminate|].
    apply ChipFacts._get_munsell_dicts_row_error.
  - rewrite (for_each_fails _ ValueError lines row) in E1; auto; [discriminate|].
    apply ChipFacts._get_clab_dict_row_error.
  - rewrite (for_each_fails _ ValueError lines row) in E2; auto; [discriminate|].
    apply ChipFacts._get_rgb_dict_row_error.
Qed.

(** X12.  [readChipData] returns exactly when no row of the file is a
    rejected row, and when it does not return the exception is
    [ValueError]. *)
Theorem readChipData_returns_iff (lines : list string) :
  ((exists cd, readChipData_lines lines = Ok cd)
   <-> forall row, In row lines -> ~ rejected_row row)
  /\ (forall e, readChipData_lines lines = Err e -> e = ValueError).
Proof.
  split; [split|].
  - intros [cd E] row I R. exact (rejected_row_not_read lines row cd I R E).
  - apply ChipFacts.readChipData_accepted.
  - apply readChipData_lines_error.
Qed.

(** X13.  On a file that [readChipData] reads, [get_chip_to_rgb] and
    [get_chip_to_munsell] return the dictionaries that [readChipData]
    returns in fourth and second place; an argument that is neither a path
    nor a data frame gives an empty dictionary. *)
Theorem chip_getters_agree (text : string) (cd : chip_data) :
  readChipData text = Ok cd ->
  get_chip_to_rgb (a_filename text) = Ok (chip_to_rgb cd)
  /\ get_chip_to_munsell (a_filename text) = Ok (chip_to_munsell cd)
  /\ get_chip_to_rgb another = Ok Dict.empty
  /\ get_chip_to_munsell another = Ok Dict.empty.
Proof.
  unfold readChipData, readChipData_lines. intros E.
  bind_inv E. bind_inv E. bind_inv E. inversion E; subst; clear E.
  cbn [get_chip_to_rgb get_chip_to_munsell chip_to_rgb chip_to_munsell].
  rewrite E0, E2. destruct x as [m c]. repeat split.
Qed.

End ChipDictFacts.

(** ** From the chip file to its tables *)

Module ChipTableFacts.
Import PyStr PySeq wcsHelper wcs_table_helper Notions RowFacts LastFacts.
Import ChipDictFacts TableFacts ClabTableFacts.

Lemma _read_lines_nonempty (text : string) : _read_lines text <> [].
Proof.
  unfold _read_lines. pose proof (ChipFacts.split_length newline (rstrip text)).
  destruct (split newline (rstrip text)); [simpl in *; lia|discriminate].
Qed.

Lemma build_nonempty {K V : Type} `{Hashable K} (bs : list (K * V))
  (d0 : Dict.t K V) :
  bs <> [] \/ d0 <> [] -> build bs d0 <> [].
Proof.
  revert d0. induction bs as [|[k v] bs IH]; intros d0 N.
  - destruct N as [N|N]; [congruence|exact N].
  - rewrite MunsellFacts.build_cons. apply IH. right.
    apply SpeakerFacts.set_nonempty.
Qed.

Lemma map_Some_nonempty {A B : Type} (f : A -> option B) (l : list A)
  (recs : list B) :
  map f l = map Some recs -> l <> [] -> recs <> [].
Proof. destruct l, recs; simpl; congruence. Qed.

(** X14.  From what [readChipData] returns for a file, [loadChipTables]
    always builds its two tables (the file has at least one row, so the
    second dictionary is not empty): they list the bindings of
    [munsell_to_chip] and of [chip_to_munsell] in ascending order of the
    keys. *)
Theorem readChipData_then_loadChipTables (text : string) (cd : chip_data) :
  readChipData text = Ok cd ->
  exists rows1 rows2,
    loadChipTables (one_tuple (munsell_to_chip cd) (chip_to_munsell cd))
    = Ok (coordToIndexTable rows1, indexToCoordTable rows2)
    /\ Permutation rows1 (munsell_to_chip cd) /\ ascending_rows rows1
    /\ Permutation rows2 (chip_to_munsell cd) /\ ascending_rows rows2
    /\ rows2 <> [].
Proof.
  unfold readChipData. intros E.
  destruct (readChipData_lines_build _ cd E)
    as (rgbs & clabs & Hr & Hc & Hm & _ & _ & Ec & Em).
  assert (rows_of (_read_lines text) <> []) as N.
  { apply (map_Some_nonempty _ _ _ Hm), _read_lines_nonempty. }
  destruct (loadChipTables_dicts_rows (munsell_to_chip cd) (chip_to_munsell cd))
    as (rows1 & rows2 & E' & P1 & A1 & P2 & A2).
  - rewrite Em. apply build_wf, DictFacts.wf_empty.
  - rewrite Ec. apply build_wf, DictFacts.wf_empty.
  - rewrite Ec. apply build_nonempty. left.
    destruct (rows_of (_read_lines text)); [congruence|discriminate].
  - exists rows1, rows2. split; [exact E'|]. repeat split; auto.
    intros ->. apply Permutation_nil in P2. revert P2. rewrite Ec.
    apply build_nonempty. left.
    destruct (rows_of (_read_lines text)); [congruence|discriminate].
Qed.

Lemma map_result_length {X Y : Type} (f : X -> result Y) (xs : list X)
  (ys : list Y) :
  map_result f xs = Ok ys -> List.length ys = List.length xs.
Proof.
  revert ys. induction xs as [|x xs IH]; simpl; intros ys E.
  - inversion E; reflexivity.
  - bind_inv E. bind_inv E. inversion E; subst. simpl. f_equal. auto.
Qed.

Lemma clab_fields_length (row : string) (i : Z) (v : list pyfloat) :
  clab_fields row = Some (i, v) ->
  py_int (hd EmptyString (split tab row)) = Ok i
  /\ List.length v = Nat.min 3 (List.length (split tab row) - 4).
Proof.
  unfold clab_fields; cbv zeta.
  destruct (py_int _) as [i'|]; [|discriminate].
  destruct (map_result _ _) as [v'|] eqn:M; [|discriminate].
  intros E; inversion E; subst. split; [reflexivity|].
  rewrite (map_result_length _ _ _ M). unfold slice.
  rewrite length_firstn, length_skipn. reflexivity.
Qed.

Lemma lab_of_length (v : list pyfloat) :
  lab_of v <> None <-> (3 <= List.length v)%nat.
Proof.
  destruct v as [|l [|a [|b v]]]; simpl; split; intros; try lia; congruence.
Qed.

Lemma map_Some_In {A B : Type} (f : A -> option B) (l : list A) (recs : list B)
  (y : B) :
  map f l = map Some recs -> In y recs -> exists x, In x l /\ f x = Some y.
Proof.
  revert recs. induction l as [|x l IH]; intros [|r recs] E I; simpl in E;
    try discriminate; [destruct I|].
  injection E as Ex E. destruct I as [->|I]; [exists x; simpl; auto|].
  destruct (IH recs E I) as (x' & I' & E'). exists x'. simpl; auto.
Qed.

Lemma map_Some_split {A B : Type} (f : A -> option B) (l1 l2 : list A) (x : A)
  (recs : list B) :
  map f (l1 ++ x :: l2) = map Some recs ->
  exists c1 y c2,
    recs = c1 ++ y :: c2 /\ map f l1 = map Some c1 /\ f x = Some y
    /\ map f l2 = map Some c2.
Proof.
  revert recs. induction l1 as [|a l1 IH]; intros [|r recs] E; simpl in E;
    try discriminate.
  - injection E as Ex E. exists [], r, recs. auto.
  - injection E as Ea E. destruct (IH recs E) as (c1 & y & c2 & -> & E1 & Ey & E2).
    exists (r :: c1), y, c2. simpl. rewrite Ea, E1. auto.
Qed.

(** X15.  On the CIELAB dictionary that [readChipData] returns,
    [loadClabTable] builds its table when every row of the file has at
    least seven fields; when the last row with some index has fewer than
    seven fields, a file that [readChipData] accepts all the same, it
    raises [IndexError]. *)
Theorem readChipData_then_loadClabTable (lines : list string) (cd : chip_data) :
  readChipData_lines lines = Ok cd ->
  ((forall row, In row lines -> (7 <= List.length (split tab row))%nat) ->
   exists rows,
     loadClabTable (chip_to_clab cd) = Ok (clabTable rows)
     /\ ascending_rows rows
     /\ Permutation (map fst rows) (Dict.keys (chip_to_clab cd)))
  /\ (forall l1 row l2,
        lines = l1 ++ row :: l2 ->
        (List.length (split tab row) < 7)%nat ->
        (forall row', In row' l2 ->
           py_int (hd EmptyString (split tab row'))
           <> py_int (hd EmptyString (split tab row))) ->
        loadClabTable (chip_to_clab cd) = Err IndexError).
Proof.
  intros E.
  destruct (readChipData_lines_build _ cd E)
    as (rgbs & clabs & _ & Hc & _ & _ & Ec & _).
  split.
  - intros Hall.
    destruct (loadClabTable_complete (chip_to_clab cd))
      as (rows & Et & A & P & _).
    + rewrite Ec. apply build_wf, DictFacts.wf_empty.
    + intros k v I. rewrite Ec in I.
      apply DictFacts.In_get in I; [|apply build_wf, DictFacts.wf_empty].
      apply get_empty_last, last_value_In in I.
      destruct (map_Some_In _ _ _ _ Hc I) as (row & Ir & Ef).
      apply clab_fields_length in Ef. destruct Ef as [_ El].
      apply lab_of_length. specialize (Hall row Ir). lia.
    + exists rows. auto.
  - intros l1 row l2 -> Hshort Hlater.
    destruct (map_Some_split _ _ _ _ _ Hc)
      as (c1 & [i v] & c2 & -> & E1 & Ev & E2).
    destruct (clab_fields_length _ _ _ Ev) as [Ei El].
    apply (loadClabTable_incomplete (chip_to_clab cd) i v).
    + rewrite Ec. apply get_empty_last. exists c1, c2. split; [reflexivity|].
      intros I. apply in_map_iff in I. destruct I as ([i' v'] & Ei' & I).
      simpl in Ei'. subst i'.
      destruct (map_Some_In _ _ _ _ E2 I) as (row' & Ir' & Ef').
      apply clab_fields_length in Ef'. destruct Ef' as [Ei' _].
      apply (Hlater row' Ir'). congruence.
    + destruct (lab_of v) eqn:L; [|reflexivity].
      assert (lab_of v <> None) as N by congruence.
      apply lab_of_length in N. lia.
Qed.

End ChipTableFacts.

(** ** Speaker records and the speaker table *)

Module SpeakerTableFacts.
Import PyStr wcsHelper wcs_table_helper Notions RowFacts NestedFacts LastFacts.
Import NamingTableFacts.

Lemma readSpeakerData_line_Ok (d d' : speaker_data) (l : string) :
  readSpeakerData_line d l = Ok d' ->
  exists k rec, speaker_fields l = Some (k, rec) /\ d' = speaker_insert k rec d.
Proof.
  unfold readSpeakerData_line, speaker_fields.
  destruct (split tab l) as [|lang [|spkr [|age [|gender [|? ?]]]]];
    try discriminate.
  intros E. cbv zeta in E. unfold speaker_data in *.
  bind_inv E. rewrite E0.
  rewrite DictFacts.getitem_ensure in E; simpl in E.
  bind_inv E. rewrite E1. bind_inv E. rewrite E2.
  rewrite DictFacts.set_ensure in E. inversion E; subst.
  exists (x, x0), (PTuple [PInt x1; PStr gender]). split; reflexivity.
Qed.

Lemma readSpeakerData_line_fields (d : speaker_data) (l : string) (k : Z * Z)
  (rec : pyval) :
  speaker_fields l = Some (k, rec) ->
  readSpeakerData_line d l = Ok (speaker_insert k rec d).
Proof.
  unfold speaker_fields, readSpeakerData_line.
  destruct (split tab l) as [|lang [|spkr [|age [|gender [|? ?]]]]];
    try discriminate.
  destruct (py_int lang) as [a|]; [|discriminate].
  destruct (py_int spkr) as [b|]; [|discriminate].
  destruct (py_int age) as [c|]; [|discriminate].
  intros E; inversion E; subst. cbv zeta. unfold speaker_data in *. cbn [bind].
  rewrite DictFacts.getitem_ensure. cbn [bind].
  rewrite DictFacts.set_ensure. reflexivity.
Qed.

Lemma readSpeakerData_line_error (d : speaker_data) (l : string) (e : pyerr) :
  readSpeakerData_line d l = Err e -> e = ValueError.
Proof.
  unfold readSpeakerData_line.
  destruct (split tab l) as [|lang [|spkr [|age [|gender [|? ?]]]]];
    try congruence.
  cbv zeta. unfold speaker_data in *.
  destruct (py_int lang) as [a|e1] eqn:E1; cbn [bind].
  2:{ intros E; inversion E; subst. eapply ChipFacts.py_int_error; eauto. }
  rewrite DictFacts.getitem_ensure. cbn [bind].
  destruct (py_int spkr) as [b|e2] eqn:E2; cbn [bind].
  2:{ intros E; inversion E; subst. eapply ChipFacts.py_int_error; eauto. }
  destruct (py_int age) as [c|e3] eqn:E3; cbn [bind]; [discriminate|].
  intros E; inversion E; subst. eapply ChipFacts.py_int_error; eauto.
Qed.

Lemma speaker_at_insert (k k' : Z * Z) (rec : pyval) (d : speaker_data) :
  speaker_at (speaker_insert k rec d) k'
  = if key_eq_dec k' k then Some rec else speaker_at d k'.
Proof.
  destruct k as [a b], k' as [a' b']. unfold speaker_at, speaker_insert.
  cbn [fst snd]. rewrite get_default_set.
  destruct (key_eq_dec a' a) as [->|Na].
  - rewrite DictFacts.get_set.
    destruct (key_eq_dec b' b) as [->|Nb];
      destruct (key_eq_dec (a, _) (a, b)); congruence.
  - destruct (key_eq_dec (a', b') (a, b)); congruence.
Qed.

Lemma readSpeakerData_lines_fold (lines : list string) :
  forall d0 d, for_each readSpeakerData_line lines d0 = Ok d ->
  exists recs,
    map speaker_fields lines = map Some recs
    /\ d = fold_left (fun d kv => speaker_insert (fst kv) (snd kv) d) recs d0.
Proof.
  induction lines as [|l lines IH]; intros d0 d E; simpl in E.
  - inversion E; subst. exists []. auto.
  - bind_inv E.
    destruct (readSpeakerData_line_Ok _ _ _ E0) as (k & rec & Hf & ->).
    destruct (IH _ _ E) as (recs & Hmap & ->).
    exists ((k, rec) :: recs). simpl. rewrite Hf, Hmap. auto.
Qed.

(** X16.  [readSpeakerData] returns exactly when every line of the file
    has four fields of which the language, the speaker and the age are
    integers, and otherwise raises [ValueError].  The record it keeps for a
    language and a speaker is the pair (age, gender) of the last line for
    them. *)
Theorem readSpeakerData_records (text : string) :
  ((exists d, readSpeakerData text = Ok d)
   <-> forall l, In l (_read_lines text) -> speaker_fields l <> None)
  /\ (forall e, readSpeakerData text = Err e -> e = ValueError)
  /\ (forall d, readSpeakerData text = Ok d ->
      exists recs,
        map speaker_fields (_read_lines text) = map Some recs
        /\ forall k rec, speaker_at d k = Some rec <-> last_value recs k rec).
Proof.
  unfold readSpeakerData, readSpeakerData_lines.
  assert (forall d, for_each readSpeakerData_line (_read_lines text) Dict.empty
                    = Ok d ->
          exists recs,
            map speaker_fields (_read_lines text) = map Some recs
            /\ forall k rec, speaker_at d k = Some rec <-> last_value recs k rec)
    as Hrecs.
  { intros d E.
    destruct (readSpeakerData_lines_fold _ _ _ E) as (recs & Hmap & ->).
    exists recs. split; [exact Hmap|]. intros k rec.
    rewrite (fold_assign_last speaker_at speaker_insert
               (fun k v d k' => speaker_at_insert k k' v d)).
    split; [|auto]. intros [L|[_ E']]; [exact L|discriminate]. }
  split; [split|split].
  - intros [d E] l I. destruct (Hrecs d E) as (recs & Hmap & _).
    assert (In (speaker_fields l) (map Some recs)) as I'.
    { rewrite <- Hmap. apply in_map; exact I. }
    apply in_map_iff in I'. destruct I' as (r & <- & _). discriminate.
  - intros Hall. apply for_each_total. intros d l I.
    destruct (speaker_fields l) as [[k rec]|] eqn:E.
    + rewrite (readSpeakerData_line_fields d l k rec E). eauto.
    + exfalso. apply (Hall l I). exact E.
  - intros e. apply (for_each_error readSpeakerData_line).
    intros s y e'. apply readSpeakerData_line_error.
  - exact Hrecs.
Qed.

Lemma loadSpeakerTable_spkr_row (d : Dict.t Z (Dict.t Z pyval)) (lang spkr : Z)
  (ld : Dict.t Z pyval) (rec : pyval) (ag : pyval * pyval)
  (rows : list (Z * Z * (pyval * pyval))) :
  Dict.get lang d = Some ld -> Dict.get spkr ld = Some rec ->
  first_pair rec = Ok ag ->
  loadSpeakerTable_spkr d lang (speaker_cols rows) spkr
  = Ok (speaker_cols (rows ++ [(lang, spkr, ag)])).
Proof.
  intros Gl Gs. unfold first_pair, loadSpeakerTable_spkr, speaker_cols.
  rewrite cols4_of_snoc. unfold cols4_of.
  rewrite (getitem_get _ _ _ Gl). cbn [bind].
  rewrite (getitem_get _ _ _ Gs). cbn [bind].
  destruct (PyVal.subscript0 rec) as [rec0|]; cbn [bind]; [|discriminate].
  intros ->. destruct ag as [a g]. reflexivity.
Qed.

Lemma loadSpeakerTable_spkr_bad (d : Dict.t Z (Dict.t Z pyval)) (lang spkr : Z)
  (ld : Dict.t Z pyval) (rec : pyval) (e : pyerr) (cols : columns4) :
  Dict.get lang d = Some ld -> Dict.get spkr ld = Some rec ->
  first_pair rec = Err e ->
  loadSpeakerTable_spkr d lang cols spkr = Err e.
Proof.
  intros Gl Gs. unfold first_pair, loadSpeakerTable_spkr.
  destruct cols as [[[language speaker] age] gender].
  rewrite (getitem_get _ _ _ Gl). cbn [bind].
  rewrite (getitem_get _ _ _ Gs). cbn [bind].
  destruct (PyVal.subscript0 rec) as [rec0|]; cbn [bind].
  - intros ->. reflexivity.
  - intros E; inversion E; reflexivity.
Qed.

Lemma loadSpeakerTable_lang_rows (d : Dict.t Z (Dict.t Z pyval)) (lang : Z)
  (ld : Dict.t Z pyval) (rows : list (Z * Z * (pyval * pyval))) :
  Dict.get lang d = Some ld -> Dict.wf ld ->
  (forall spkr rec, In (spkr, rec) ld -> exists ag, first_pair rec = Ok ag) ->
  loadSpeakerTable_lang d (speaker_cols rows) lang
  = Ok (speaker_cols
          (rows ++ flat_map (fun br => match first_pair (snd br) with
                                       | Ok ag => [(lang, fst br, ag)]
                                       | Err _ => []
                                       end) ld)).
Proof.
  intros Gl W Hrec. unfold loadSpeakerTable_lang.
  rewrite (getitem_get _ _ _ Gl). cbn [bind].
  unfold speaker_cols, columns4.
  rewrite (for_each_rows _ _ _ _ _
             (fun b => match Dict.get b ld with
                       | Some rec => match first_pair rec with
                                     | Ok ag => [(lang, b, ag)]
                                     | Err _ => []
                                     end
                       | None => []
                       end)).
  - rewrite (flat_map_keys
               (fun b rec => match first_pair rec with
                             | Ok ag => [(lang, b, ag)]
                             | Err _ => []
                             end) ld W).
    reflexivity.
  - intros rows' b I. destruct (DictFacts.keys_get b ld I) as [rec G].
    rewrite G. destruct (Hrec b rec (DictFacts.get_Some_In _ _ _ G)) as [ag Ea].
    rewrite Ea.
    apply (loadSpeakerTable_spkr_row d lang b ld rec ag rows' Gl G Ea).
Qed.

Lemma loadSpeakerTable_loop (d : Dict.t Z (Dict.t Z pyval))
  (rows : list (Z * Z * (pyval * pyval))) :
  speaker_wf d ->
  (forall lang ld spkr rec,
     In (lang, ld) d -> In (spkr, rec) ld -> exists ag, first_pair rec = Ok ag) ->
  for_each (loadSpeakerTable_lang d) (Dict.keys d) (speaker_cols rows)
  = Ok (speaker_cols (rows ++ speaker_rows d)).
Proof.
  intros [W Hd] Hrec. unfold speaker_cols, columns4.
  rewrite (for_each_rows _ _ _ _ _
             (fun a => match Dict.get a d with
                       | Some ld =>
                           flat_map (fun br => match first_pair (snd br) with
                                               | Ok ag => [(a, fst br, ag)]
                                               | Err _ => []
                                               end) ld
                       | None => []
                       end)).
  - rewrite (flat_map_keys
               (fun a ld =>
                  flat_map (fun br => match first_pair (snd br) with
                                      | Ok ag => [(a, fst br, ag)]
                                      | Err _ => []
                                      end) ld) d W).
    reflexivity.
  - intros rows' a I. destruct (DictFacts.keys_get a d I) as [ld G].
    rewrite G. pose proof (DictFacts.get_Some_In _ _ _ G) as Il.
    apply (loadSpeakerTable_lang_rows d a ld rows' G (Hd a ld Il)).
    intros spkr rec Ir. apply (Hrec a ld spkr rec Il Ir).
Qed.

Lemma loadSpeakerTable_bad_record (d : Dict.t Z (Dict.t Z pyval))
  (lang spkr : Z) (ld : Dict.t Z pyval) (rec : pyval) (e : pyerr) :
  Dict.get lang d = Some ld -> Dict.get spkr ld = Some rec ->
  first_pair rec = Err e ->
  exists e', loadSpeakerTable d = Err e'.
Proof.
  intros Gl Gs Ef. unfold loadSpeakerTable.
  destruct (for_each_fails_some (loadSpeakerTable_lang d) (Dict.keys d) lang)
    with (s := (@nil pyval, @nil pyval, @nil pyval, @nil pyval)) as [e' E'].
  - eapply DictFacts.get_Some_keys; eauto.
  - intros cols. unfold loadSpeakerTable_lang.
    rewrite (getitem_get _ _ _ Gl). cbn [bind].
    apply for_each_fails_some with (x := spkr).
    + eapply DictFacts.get_Some_keys; eauto.
    + intros cols'. exists e.
      apply (loadSpeakerTable_spkr_bad d lang spkr ld rec e cols' Gl Gs Ef).
  - exists e'. rewrite E'. reflexivity.
Qed.

(** X17.  [loadSpeakerTable] returns exactly when element 0 of every
    record unpacks into two values, and then the table has one row for each
    language and speaker, in the order of iteration, with these two values
    as age and gender. *)
Theorem loadSpeakerTable_returns_iff (speakerData : Dict.t Z (Dict.t Z pyval)) :
  speaker_wf speakerData ->
  ((exists t, loadSpeakerTable speakerData = Ok t)
   <-> forall lang ld spkr rec,
         In (lang, ld) speakerData -> In (spkr, rec) ld ->
         exists ag, first_pair rec = Ok ag)
  /\ ((exists t, loadSpeakerTable speakerData = Ok t) ->
      loadSpeakerTable speakerData
      = Ok (speakerTable (speaker_rows speakerData))).
Proof.
  intros W.
  assert ((forall lang ld spkr rec,
             In (lang, ld) speakerData -> In (spkr, rec) ld ->
             exists ag, first_pair rec = Ok ag) ->
          loadSpeakerTable speakerData
          = Ok (speakerTable (speaker_rows speakerData))) as Hall.
  { intros Hrec. unfold loadSpeakerTable.
    change ([], [], [], [])
      with (speaker_cols (@nil (Z * Z * (pyval * pyval)))).
    rewrite (loadSpeakerTable_loop speakerData [] W Hrec). reflexivity. }
  assert ((exists t, loadSpeakerTable speakerData = Ok t) ->
          forall lang ld spkr rec,
            In (lang, ld) speakerData -> In (spkr, rec) ld ->
            exists ag, first_pair rec = Ok ag) as Hret.
  { intros [t E] lang ld spkr rec Il Ir.
    destruct (first_pair rec) as [ag|e] eqn:Ef; [eauto|].
    destruct W as [W Hd].
    destruct (loadSpeakerTable_bad_record speakerData lang spkr ld rec e)
      as [e' E']; auto.
    - apply DictFacts.In_get; assumption.
    - apply DictFacts.In_get; [apply (Hd lang ld Il)|assumption].
    - congruence. }
  split; [split|].
  - exact Hret.
  - intros Hrec. eexists. apply Hall; exact Hrec.
  - intros R. apply Hall, Hret, R.
Qed.

End SpeakerTableFacts.

(** ** What the readers accept *)

Section LoopFailure.
Context {St X : Type}.
Variable body : St -> X -> result St.

(** A loop that fails fails at one of its elements. *)
Lemma for_each_error_at (xs : list X) :
  forall s e, for_each body xs s = Err e ->
  exists x s', In x xs /\ body s' x = Err e.
Proof.
  induction xs as [|y xs IH]; intros s e E; simpl in E; [discriminate|].
  destruct (body s y) as [s1|e1] eqn:E1; simpl in E.
  - destruct (IH _ _ E) as (x & s' & I & Ex). exists x, s'. simpl; auto.
  - inversion E; subst. exists y, s. simpl; auto.
Qed.

End LoopFailure.

Module ReaderFacts.
Import PyStr wcsHelper Notions Samples.

Lemma map_Some_not_None {A B : Type} (f : A -> option B) (l : list A)
  (recs : list B) (x : A) :
  map f l = map Some recs -> In x l -> f x <> None.
Proof.
  intros Hmap I.
  assert (In (f x) (map Some recs)) as I'.
  { rewrite <- Hmap. apply in_map; exact I. }
  apply in_map_iff in I'. destruct I' as (r & <- & _). discriminate.
Qed.

Lemma readNamingData_line_error (d : naming) (l : string) (e : pyerr) :
  readNamingData_line d l = Err e -> e = ValueError.
Proof.
  unfold readNamingData_line.
  destruct (split tab l) as [|lang [|spkr [|chipNum [|term [|? ?]]]]];
    try congruence.
  cbv zeta. unfold naming in *.
  destruct (py_int lang) as [a|e1] eqn:E1; cbn [bind].
  2:{ intros E; inversion E; subst. eapply ChipFacts.py_int_error; eauto. }
  rewrite DictFacts.getitem_ensure. cbn [bind].
  destruct (py_int spkr) as [b|e2] eqn:E2; cbn [bind].
  2:{ intros E; inversion E; subst. eapply ChipFacts.py_int_error; eauto. }
  rewrite DictFacts.getitem_ensure. cbn [bind].
  destruct (py_int chipNum) as [c|e3] eqn:E3; cbn [bind]; [discriminate|].
  intros E; inversion E; subst. eapply ChipFacts.py_int_error; eauto.
Qed.

(** X18.  [readNamingData] returns exactly when every line of the file has
    four fields of which the first three are integers; otherwise it raises
    [ValueError]. *)
Theorem readNamingData_returns_iff (text : string) :
  ((exists d, readNamingData text = Ok d)
   <-> forall l, In l (_read_lines text) -> naming_fields l <> None)
  /\ (forall e, readNamingData text = Err e -> e = ValueError).
Proof.
  split; [split|].
  - intros [d E] l I. unfold readNamingData, readNamingData_lines in E.
    destruct (NamingFacts.readNamingData_lines_spec _ _ _ E) as (recs & Hmap & _).
    eapply map_Some_not_None; eauto.
  - apply NamingFacts.readNamingData_accepted.
  - intros e. unfold readNamingData, readNamingData_lines.
    apply (for_each_error readNamingData_line).
    intros s y e'. apply readNamingData_line_error.
Qed.

(** Why a line of the foci file is refused: its fields are not those of a
    foci line, or they are and the focus is empty. *)
Lemma readFociData_line_error (d : foci_data) (l : string) (e : pyerr) :
  readFociData_line d l = Err e ->
  (e = ValueError /\ foci_fields l = None)
  \/ (e = IndexError
      /\ exists a b term, foci_fields l = Some (a, b, term, EmptyString)).
Proof.
  unfold readFociData_line, foci_fields.
  destruct (split tab l) as [|lang [|spkr [|tn [|term [|foci [|? ?]]]]]];
    try (intros E; inversion E; auto; fail).
  cbv zeta. unfold foci_data in *.
  destruct (py_int lang) as [a|e1] eqn:E1; cbn [bind].
  2:{ intros E; inversion E; subst. left. split; [|reflexivity].
      eapply ChipFacts.py_int_error; eauto. }
  rewrite DictFacts.getitem_ensure. cbn [bind].
  destruct (py_int spkr) as [b|e2] eqn:E2; cbn [bind].
  2:{ intros E; inversion E; subst. left. split; [|reflexivity].
      eapply ChipFacts.py_int_error; eauto. }
  rewrite DictFacts.getitem_ensure. cbn [bind].
  destruct foci as [|c rest].
  - rewrite FociFacts.newFoci_empty. cbn [bind].
    intros E; inversion E; subst. right. split; [reflexivity|]. eauto.
  - rewrite FociFacts.newFoci_normal_form. cbn [bind].
    rewrite DictFacts.getitem_ensure. cbn [bind]. discriminate.
Qed.

(** X19.  [readFociData] returns exactly when every line of the file has
    five fields with an integer language and speaker and a focus that is
    not empty.  Otherwise it raises [ValueError], or [IndexError], and the
    latter only for a line whose focus field is empty. *)
Theorem readFociData_returns_iff (text : string) :
  ((exists d, readFociData text = Ok d)
   <-> forall l, In l (_read_lines text) ->
         exists a b term c rest,
           foci_fields l = Some (a, b, term, String c rest))
  /\ (forall e, readFociData text = Err e -> e = ValueError \/ e = IndexError)
  /\ (readFociData text = Err IndexError ->
      exists l a b term,
        In l (_read_lines text)
        /\ foci_fields l = Some (a, b, term, EmptyString)).
Proof.
  unfold readFociData, readFociData_lines.
  split; [split|split].
  - intros [d E] l I.
    destruct (FociFacts.readFociData_lines_spec _ _ _ E) as (Hnew & _).
    destruct (Hnew l I) as (a & b & term & c & rest & Hf & _). eauto 6.
  - apply FociFacts.readFociData_accepted.
  - intros e E. destruct (for_each_error_at _ _ _ _ E) as (l & d & _ & El).
    destruct (readFociData_line_error _ _ _ El) as [[-> _]|[-> _]]; auto.
  - intros E. destruct (for_each_error_at _ _ _ _ E) as (l & d & I & El).
    destruct (readFociData_line_error _ _ _ El) as [[Ee _]|[_ (a & b & term & Ef)]];
      [discriminate|].
    exists l, a, b, term. auto.
Qed.

(** *** The lines of a file *)

Lemma concat_split (sep : ascii) (s : string) :
  String.concat (String sep EmptyString) (split sep s) = s.
Proof.
  induction s as [|c s IH]; [reflexivity|]. cbn [split].
  destruct (Ascii.eqb c sep) eqn:E.
  - apply Ascii.eqb_eq in E. subst c.
    destruct (split sep s) as [|f fs] eqn:Es.
    + pose proof (ChipFacts.split_length sep s) as L. rewrite Es in L.
      simpl in L. lia.
    + cbn [String.concat]. cbn [String.concat] in IH. rewrite IH. reflexivity.
  - destruct (split sep s) as [|f fs] eqn:Es.
    + pose proof (ChipFacts.split_length sep s) as L. rewrite Es in L.
      simpl in L. lia.
    + cbn [String.concat] in *. destruct fs as [|g fs].
      * rewrite IH. reflexivity.
      * simpl. simpl in IH. rewrite IH. reflexivity.
Qed.

Lemma split_no_sep (sep : ascii) (s f : string) :
  In f (split sep s) -> ~ In sep (list_ascii_of_string f).
Proof.
  revert f. induction s as [|c s IH]; intros f; cbn [split].
  - intros [<-|[]]. simpl. tauto.
  - destruct (Ascii.eqb c sep) eqn:E.
    + intros [<-|I]; [simpl; tauto|]. apply IH; exact I.
    + destruct (split sep s) as [|g gs].
      * intros [<-|[]]. simpl. intros [->|[]].
        rewrite Ascii.eqb_refl in E. discriminate.
      * intros [<-|I].
        -- simpl. intros [->|I'].
           ++ rewrite Ascii.eqb_refl in E. discriminate.
           ++ apply (IH g); [left; reflexivity|exact I'].
        -- apply IH. right; exact I.
Qed.

(** X20.  The lines that [_read_lines] returns, joined by newlines, are
    the text without its trailing whitespace; there is at least one line,
    and no line contains a newline. *)
Theorem _read_lines_unlines (text : string) :
  unlines (_read_lines text) = rstrip text
  /\ _read_lines text <> []
  /\ forall l, In l (_read_lines text) -> ~ In newline (list_ascii_of_string l).
Proof.
  split; [apply concat_split|]. split.
  - apply ChipTableFacts._read_lines_nonempty.
  - intros l. apply split_no_sep.
Qed.

Lemma rstrip_spaces (ws : string) :
  (forall c, In c (list_ascii_of_string ws) -> is_space c = true) ->
  rstrip ws = EmptyString.
Proof.
  induction ws as [|c ws IH]; intros Hall; [reflexivity|].
  cbn [rstrip]. rewrite IH.
  - rewrite (Hall c); [reflexivity|]. left; reflexivity.
  - intros c' I. apply Hall. right; exact I.
Qed.

Lemma rstrip_app_spaces (text ws : string) :
  (forall c, In c (list_ascii_of_string ws) -> is_space c = true) ->
  rstrip (text ++ ws) = rstrip text.
Proof.
  intros Hall. induction text as [|c text IH].
  - simpl. apply rstrip_spaces; exact Hall.
  - cbn [append rstrip]. rewrite IH. reflexivity.
Qed.

(** X21.  Whitespace at the end of the file, blank lines included, leaves
    the lines unchanged. *)
Theorem _read_lines_trailing_whitespace (text ws : string) :
  (forall c, In c (list_ascii_of_string ws) -> is_space c = true) ->
  _read_lines (text ++ ws) = _read_lines text.
Proof.
  intros Hall. unfold _read_lines. rewrite rstrip_app_spaces by exact Hall.
  reflexivity.
Qed.

(** X22.  A file that is empty or holds only whitespace is refused by the
    four readers with [ValueError]: its only line is the empty string. *)
Theorem readers_blank_file (text : string) :
  (forall c, In c (list_ascii_of_string text) -> is_space c = true) ->
  _read_lines text = [EmptyString]
  /\ readChipData text = Err ValueError
  /\ readNamingData text = Err ValueError
  /\ readFociData text = Err ValueError
  /\ readSpeakerData text = Err ValueError.
Proof.
  intros Hall.
  assert (_read_lines text = [EmptyString]) as E.
  { unfold _read_lines. rewrite rstrip_spaces by exact Hall. reflexivity. }
  unfold readChipData, readNamingData, readFociData, readSpeakerData.
  rewrite E. repeat split.
Qed.

End ReaderFacts.

(** ** Mode maps, continued *)

Module ModeMapMoreFacts.
Import PySeq wcsHelper Notions ModeFacts ModeMapFacts.

(** The terms gathered for a chip by one speaker's pass. *)
Lemma allTerms_add_loop (items : list (Z * string)) :
  forall acc acc',
    for_each allTerms_add items acc = Ok acc' ->
    forall chip t,
      In t (Dict.get_default chip [] acc')
      <-> In t (Dict.get_default chip [] acc) \/ In (chip, t) items.
Proof.
  induction items as [|[c0 t0] items IH]; intros acc acc' E chip t;
    cbn [for_each] in E.
  - inversion E; subst. simpl. tauto.
  - rewrite allTerms_add_Ok in E. cbn [bind] in E.
    rewrite (IH _ _ E chip t), get_default_set.
    destruct (key_eq_dec chip c0) as [->|N]; simpl.
    + rewrite in_app_iff. simpl. split.
      * intros [[I|[<-|[]]]|I]; auto.
      * intros [I|[E'|I]]; auto. inversion E'; subst. auto.
    + split; [tauto|]. intros [I|[E'|I]]; auto. inversion E'; congruence.
Qed.

Lemma allTerms_of_loop (vals : list (Dict.t Z string)) :
  forall acc acc',
    for_each (fun allTerms spkrData =>
                for_each allTerms_add (Dict.items spkrData) allTerms)
             vals acc = Ok acc' ->
    forall chip t,
      In t (Dict.get_default chip [] acc')
      <-> In t (Dict.get_default chip [] acc)
          \/ exists sd, In sd vals /\ In (chip, t) sd.
Proof.
  induction vals as [|sd vals IH]; intros acc acc' E chip t; cbn [for_each] in E.
  - inversion E; subst. split; [auto|]. intros [I|(sd & [] & _)]; exact I.
  - bind_inv E. rewrite (IH _ _ E chip t), (allTerms_add_loop _ _ _ E0 chip t).
    unfold Dict.items. split.
    + intros [[I|I]|(sd' & I & I')]; auto.
      * right. exists sd. simpl; auto.
      * right. exists sd'. simpl; auto.
    + intros [I|(sd' & [<-|I] & I')]; auto. right. eauto.
Qed.

(** The terms gathered for a chip are those that the speakers gave it. *)
Lemma allTerms_of_terms (langData : lang_naming)
  (allTerms : Dict.t Z (list string)) :
  allTerms_of langData = Ok allTerms ->
  forall chip t,
    In t (Dict.get_default chip [] allTerms)
    <-> exists s sd, In (s, sd) langData /\ In (chip, t) sd.
Proof.
  unfold allTerms_of. intros E chip t.
  rewrite (allTerms_of_loop _ _ _ E chip t). unfold Dict.values. split.
  - intros [[]|(sd & I & I')]. apply in_map_iff in I.
    destruct I as ([s sd'] & <- & I). eauto.
  - intros (s & sd & I & I'). right. exists sd. split; [|exact I'].
    change sd with (snd (s, sd)). apply in_map; exact I.
Qed.

Lemma modeMap_add_wf (m m' : Dict.t Z string) (ct : Z * list string) :
  Dict.wf m -> modeMap_add m ct = Ok m' -> Dict.wf m'.
Proof.
  destruct ct as [c ts]. unfold modeMap_add. intros W E. bind_inv E.
  inversion E; subst. apply DictFacts.wf_set; exact W.
Qed.

(** X23.  [makeModeMap] has an entry for a chip exactly when some speaker
    of the language named that chip, and the term of the entry is a term
    that some speaker gave to the chip. *)
Theorem makeModeMap_chips (langData : lang_naming) (modeMap : Dict.t Z string) :
  makeModeMap (without_lang langData) = Ok modeMap ->
  Dict.wf modeMap
  /\ (forall chip,
        In chip (Dict.keys modeMap)
        <-> exists s sd t, In (s, sd) langData /\ In (chip, t) sd)
  /\ (forall chip t,
        Dict.get chip modeMap = Some t ->
        exists s sd, In (s, sd) langData /\ In (chip, t) sd).
Proof.
  intros E.
  destruct (allTerms_of_total langData) as (allTerms & Ea & W & NE).
  pose proof (allTerms_of_terms langData allTerms Ea) as Hterms.
  destruct (modeMap_loop (Dict.items allTerms) W NE Dict.empty)
    as (m & Em & Hout & Hin).
  assert (modeMap = m) as ->.
  { unfold makeModeMap in E. cbn [bind] in E. rewrite Ea in E. cbn [bind] in E.
    congruence. }
  assert (forall chip t, Dict.get chip m = Some t ->
            exists terms, Dict.get chip allTerms = Some terms /\ In t terms)
    as Hget.
  { intros chip t G.
    destruct (Dict.get chip allTerms) as [terms|] eqn:Gt.
    - exists terms. split; [reflexivity|].
      destruct (Hin chip terms (DictFacts.get_Some_In _ _ _ Gt))
        as (mode & Ef & Eg).
      destruct (findMode_spec terms) as (mode' & Ef' & Im & _).
      { apply (NE chip). apply DictFacts.get_Some_In; exact Gt. }
      congruence.
    - apply DictFacts.get_None_keys in Gt. rewrite (Hout chip Gt) in G.
      discriminate. }
  split; [|split].
  - apply (for_each_invariant modeMap_add (fun d : Dict.t Z string => Dict.wf d)
             (Dict.items allTerms)) with (s := Dict.empty); auto.
    + intros s x s' _. apply modeMap_add_wf.
    + constructor.
  - intros chip. split.
    + intros I. apply DictFacts.keys_get in I. destruct I as [t G].
      destruct (Hget chip t G) as (terms & Gt & It).
      destruct (proj1 (Hterms chip t)) as (s & sd & I1 & I2); [|eauto].
      unfold Dict.get_default. rewrite Gt. exact It.
    + intros (s & sd & t & I1 & I2).
      assert (In t (Dict.get_default chip [] allTerms)) as It.
      { apply Hterms. eauto. }
      unfold Dict.get_default in It.
      destruct (Dict.get chip allTerms) as [terms|] eqn:Gt; [|destruct It].
      destruct (Hin chip terms (DictFacts.get_Some_In _ _ _ Gt))
        as (mode & _ & Eg).
      eapply DictFacts.get_Some_keys; eauto.
  - intros chip t G. destruct (Hget chip t G) as (terms & Gt & It).
    apply Hterms. unfold Dict.get_default. rewrite Gt. exact It.
Qed.

(** X24.  With a language selector, [makeModeMap] returns when the
    language is a key of the naming data, with the map of that language,
    and raises [KeyError] when it is not. *)
Theorem makeModeMap_lang_lookup (data : naming) (lang : Z) :
  (forall langData,
     Dict.get lang data = Some langData ->
     exists modeMap,
       makeModeMap (with_lang data lang) = Ok modeMap
       /\ makeModeMap (without_lang langData) = Ok modeMap)
  /\ (~ In lang (Dict.keys data) ->
      makeModeMap (with_lang data lang) = Err KeyError).
Proof.
  split.
  - intros langData G.
    destruct (allTerms_of_total langData) as (allTerms & Ea & W & NE).
    destruct (modeMap_loop (Dict.items allTerms) W NE Dict.empty)
      as (m & Em & _).
    exists m. unfold makeModeMap, Dict.getitem. rewrite G. cbn [bind].
    rewrite Ea. cbn [bind]. split; exact Em.
  - intros N. apply DictFacts.get_None_keys in N.
    unfold makeModeMap, Dict.getitem. rewrite N. reflexivity.
Qed.

Lemma count_occ_two (l : list string) (a b : string) :
  a <> b ->
  (count_occ string_dec l a + count_occ string_dec l b <= List.length l)%nat.
Proof.
  intros N. induction l as [|x l IH]; simpl; [lia|].
  destruct (string_dec x a), (string_dec x b); try congruence; lia.
Qed.

(** X25.  A term that makes up more than half of a list is its mode. *)
Theorem findMode_majority (aList : list string) (t : string) :
  (List.length aList < 2 * count_occ string_dec aList t)%nat ->
  findMode aList = Ok t.
Proof.
  intros Hmaj.
  destruct (findMode_spec aList) as (mode & E & _ & Hmax & _).
  { intros ->. simpl in Hmaj. lia. }
  rewrite E. f_equal.
  destruct (string_dec t mode) as [->|N]; [reflexivity|].
  pose proof (count_occ_two aList t mode N). specialize (Hmax t). lia.
Qed.

End ModeMapMoreFacts.

(** ** Grid and image, continued *)

Section LoopTotal.
Context {St X : Type}.
Variable body : St -> X -> result St.
Variable P : St -> Prop.

(** A loop whose iterations succeed from every state satisfying an
    invariant, and keep it, succeeds from such a state. *)
Lemma for_each_total_inv (xs : list X) :
  (forall s x, In x xs -> P s -> exists s', body s x = Ok s' /\ P s') ->
  forall s, P s -> exists s', for_each body xs s = Ok s' /\ P s'.
Proof.
  induction xs as [|x xs IH]; intros Hstep s Hs; simpl.
  - exists s. auto.
  - destruct (Hstep s x (or_introl eq_refl) Hs) as (s1 & -> & H1). simpl.
    apply IH; auto. intros; apply Hstep; simpl; auto.
Qed.

End LoopTotal.

Module GridMoreFacts.
Import PySeq wcsHelper ArrayFacts GridFacts MissingChipFacts Notions.

Section MissingRgb.
Context {F : Type} `{NumPy F}.

Lemma chips_with_term_In (data : Dict.t Z string) (term : string) (c : Z) :
  In (c, term) data -> In c (chips_with_term data term).
Proof.
  intros I. unfold chips_with_term. apply in_map_iff. exists (c, term).
  split; [reflexivity|]. apply filter_In. split; [exact I|]. simpl.
  destruct (string_dec term term); congruence.
Qed.

(** X26.  When the keys of [data] are the chip numbers 1..N in order and
    one of these chips has no entry in [chip_to_rgb], [naming2grid] raises
    [KeyError]: the color of the term of that chip cannot be computed. *)
Theorem naming2grid_missing_rgb (data : Dict.t Z string)
  (rgb : Dict.t Z (Z * Z * Z)) (N : nat) (c : Z) :
  Dict.keys data = range1 N ->
  In c (Dict.keys data) -> ~ In c (Dict.keys rgb) ->
  @naming2grid F _ data rgb = Err KeyError.
Proof.
  intros Hk Ic Nc.
  destruct (DictFacts.keys_get c data Ic) as [term G].
  assert (forall tc, term_colors_add data rgb tc term = Err KeyError) as Hbad.
  { intros tc. rewrite (term_colors_add_chips data rgb N tc term Hk).
    rewrite (map_result_fails _ KeyError _ c); [reflexivity| | |].
    - intros y e'. apply getitem_error.
    - apply chips_with_term_In, DictFacts.get_Some_In, G.
    - apply DictFacts.get_None_keys in Nc. unfold Dict.getitem.
      rewrite Nc. reflexivity. }
  unfold naming2grid, naming2grid_over.
  rewrite (for_each_fails _ KeyError (dedup (Dict.values data)) term);
    [reflexivity| | |exact Hbad].
  - intros s y e'. apply term_colors_add_error.
  - apply ModeFacts.dedup_In. eapply get_Some_values; eauto.
Qed.

End MissingRgb.
End GridMoreFacts.

Module ImageMoreFacts.
Import PySeq wcsHelper ArrayFacts ImageFacts Notions.

Lemma np_index_valid (n : nat) (j : Z) :
  - Z.of_nat n <= j < Z.of_nat n ->
  exists r, np_index n j = Ok r /\ (r < n)%nat.
Proof.
  intros R. unfold np_index.
  destruct (Z.leb_spec 0 j), (Z.ltb_spec j (Z.of_nat n)); simpl; try lia.
  - exists (Z.to_nat j). split; [reflexivity|lia].
  - destruct (Z.leb_spec (- Z.of_nat n) j), (Z.ltb_spec j 0); simpl; try lia.
    exists (Z.to_nat (j + Z.of_nat n)). split; [reflexivity|lia].
Qed.

Lemma np_index_invalid (n : nat) (j : Z) :
  j < - Z.of_nat n \/ Z.of_nat n <= j -> np_index n j = Err IndexError.
Proof.
  intros R. unfold np_index.
  destruct (Z.leb_spec 0 j), (Z.ltb_spec j (Z.of_nat n)); simpl; try lia;
    destruct (Z.leb_spec (- Z.of_nat n) j), (Z.ltb_spec j 0); simpl;
    try lia; reflexivity.
Qed.

Lemma index_Ok_In {A : Type} `{Hashable A} (x : A) (l : list A) (r : nat) :
  index x l = Ok r -> In x l.
Proof.
  revert r. induction l as [|y l IH]; intros r; simpl; [discriminate|].
  destruct (key_eq_dec x y) as [->|N]; [auto|].
  destruct (index x l) as [i|]; simpl; [|discriminate]. eauto.
Qed.

Section Image.
Context {F : Type} `{NumPy F}.
Implicit Types (img : image F) (v : color F).

Lemma img_set_put (i j : Z) v img img' :
  img_set i j v img = Ok img' ->
  exists r c, (r < 10)%nat /\ (c < 42)%nat /\ img' = put r c v img.
Proof.
  unfold img_set. intros E. bind_inv E. bind_inv E. inversion E; subst.
  exists x, x0. split; [|split; [|reflexivity]].
  - unfold np_index, N_ROWS in E0.
    destruct ((0 <=? i) && (i <? Z.of_nat 10)) eqn:C.
    + apply andb_prop in C. destruct C as [C1 C2].
      apply Z.leb_le in C1. apply Z.ltb_lt in C2. inversion E0; subst. lia.
    + destruct ((- Z.of_nat 10 <=? i) && (i <? 0)) eqn:C'; [|discriminate].
      apply andb_prop in C'. destruct C' as [C1 C2].
      apply Z.leb_le in C1. apply Z.ltb_lt in C2. inversion E0; subst. lia.
  - unfold np_index, N_COLS in E1.
    destruct ((0 <=? j) && (j <? Z.of_nat (41 + 1))) eqn:C.
    + apply andb_prop in C. destruct C as [C1 C2].
      apply Z.leb_le in C1. apply Z.ltb_lt in C2. inversion E1; subst. lia.
    + destruct ((- Z.of_nat (41 + 1) <=? j) && (j <? 0)) eqn:C'; [|discriminate].
      apply andb_prop in C'. destruct C' as [C1 C2].
      apply Z.leb_le in C1. apply Z.ltb_lt in C2. inversion E1; subst. lia.
Qed.

Lemma _grid2img_chip_shape (grid : list (color F)) (m : Dict.t Z (string * Z))
  img img' (c : Z) :
  shape_ok img -> _grid2img_chip grid m img c = Ok img' -> shape_ok img'.
Proof.
  intros Hs E. unfold _grid2img_chip in E. bind_inv E. destruct x as [i j].
  cbv zeta in E. bind_inv E. bind_inv E. bind_inv E.
  destruct (img_set_put _ _ _ _ _ E2) as (r & cj & _ & _ & ->).
  pose proof (shape_put r cj x img Hs) as Hs1.
  destruct (eq_50 (fst (fst x1))).
  - destruct (img_set_put _ _ _ _ _ E) as (r' & cj' & _ & _ & ->).
    apply shape_put; exact Hs1.
  - inversion E; subst. exact Hs1.
Qed.

(** One iteration for a chip with a row letter among A..J and a hue from
    -42 to 40. *)
Lemma _grid2img_chip_valid (grid : list (color F)) (m : Dict.t Z (string * Z))
  img (c : Z) (L : string) (h : Z) :
  shape_ok img ->
  Dict.get c m = Some (L, h) -> In L ROWS -> -42 <= h <= 40 ->
  1 <= c <= Z.of_nat (List.length grid) ->
  exists img', _grid2img_chip grid m img c = Ok img' /\ shape_ok img'.
Proof.
  intros Hs G IL Hh Hc.
  destruct (index_In L ROWS IL) as [r I].
  pose proof (index_lt _ _ _ I) as Hr. change (List.length ROWS) with 10%nat in Hr.
  destruct (nth_error grid (Z.to_nat (c - 1))) as [v|] eqn:Ev.
  2:{ apply nth_error_None in Ev. lia. }
  set (j := if h >? 0 then h + 1 else h).
  destruct (np_index_valid 42 j) as (cj & Ej & Hcj).
  { unfold j. destruct (Z.gtb_spec h 0); lia. }
  assert (forall w img0, img_set (Z.of_nat r) j w img0 = Ok (put r cj w img0))
    as Eset.
  { intros w img0. unfold img_set, N_ROWS, N_COLS.
    rewrite np_index_in_range by lia. cbn [bind].
    change (41 + 1)%nat with 42%nat. rewrite Ej. cbn [bind].
    rewrite Nat2Z.id. reflexivity. }
  assert (img_get (Z.of_nat r) j (put r cj v img) = Ok v) as Eget.
  { unfold img_get, N_ROWS, N_COLS.
    rewrite np_index_in_range by lia. cbn [bind].
    change (41 + 1)%nat with 42%nat. rewrite Ej. cbn [bind].
    rewrite Nat2Z.id.
    pose proof (cell_at_put_same r cj v img Hs Hr Hcj) as Ec.
    unfold cell_at in Ec.
    destruct (nth_error (put r cj v img) r); [|discriminate].
    rewrite Ec. reflexivity. }
  unfold _grid2img_chip, _chip2ind, Dict.getitem. rewrite G. cbn [bind fst snd].
  rewrite I. cbn [bind]. fold j.
  unfold get_row. rewrite np_index_in_range by lia. cbn [bind].
  rewrite Ev. cbn [bind]. rewrite Eset. cbn [bind]. rewrite Eget. cbn [bind].
  destruct (eq_50 (fst (fst v))).
  - rewrite Eset. eexists. split; [reflexivity|].
    apply shape_put, shape_put, Hs.
  - eexists. split; [reflexivity|]. apply shape_put, Hs.
Qed.

(** One iteration for a chip without coordinates, with a row letter
    outside A..J or with a hue outside -42..40 fails. *)
Lemma _grid2img_chip_invalid (grid : list (color F)) (m : Dict.t Z (string * Z))
  (c : Z) :
  1 <= c <= Z.of_nat (List.length grid) ->
  ~ (exists L h, Dict.get c m = Some (L, h) /\ In L ROWS /\ -42 <= h <= 40) ->
  forall img, exists e, _grid2img_chip grid m img c = Err e.
Proof.
  intros Hc Hbad img. unfold _grid2img_chip, _chip2ind, Dict.getitem.
  destruct (Dict.get c m) as [[L h]|] eqn:G; cbn [bind fst snd]; [|eauto].
  destruct (index L ROWS) as [r|e] eqn:I; cbn [bind]; [|eauto].
  pose proof (index_lt _ _ _ I) as Hr. change (List.length ROWS) with 10%nat in Hr.
  assert (~ -42 <= h <= 40) as Hh.
  { intros Hh. apply Hbad. exists L, h. split; [reflexivity|].
    split; [eapply index_Ok_In; eauto|exact Hh]. }
  destruct (nth_error grid (Z.to_nat (c - 1))) as [v|] eqn:Ev.
  2:{ apply nth_error_None in Ev. lia. }
  unfold get_row. rewrite np_index_in_range by lia. cbn [bind].
  rewrite Ev. cbn [bind]. unfold img_set, N_ROWS, N_COLS.
  rewrite np_index_in_range by lia. cbn [bind].
  change (41 + 1)%nat with 42%nat.
  rewrite np_index_invalid; [cbn [bind]; eauto|].
  destruct (Z.gtb_spec h 0); lia.
Qed.

Lemma shape_ok_white :
  shape_ok (repeat (repeat (@white F _) (N_COLS + 1)) N_ROWS).
Proof.
  split; [apply repeat_length|].
  apply Forall_forall. intros row I. apply repeat_spec in I. subst.
  apply repeat_length.
Qed.

Lemma range1_In (n : nat) (c : Z) : In c (range1 n) <-> 1 <= c <= Z.of_nat n.
Proof.
  unfold range1. rewrite in_map_iff. split.
  - intros (k & <- & I). apply in_seq in I. lia.
  - intros R. exists (Z.to_nat c). split; [lia|]. apply in_seq. lia.
Qed.

Lemma chip_valid_dec (m : Dict.t Z (string * Z)) (c : Z) :
  (exists L h, Dict.get c m = Some (L, h) /\ In L ROWS /\ -42 <= h <= 40)
  \/ ~ (exists L h, Dict.get c m = Some (L, h) /\ In L ROWS /\ -42 <= h <= 40).
Proof.
  destruct (Dict.get c m) as [[L h]|].
  - destruct (in_dec string_dec L ROWS) as [IL|NL].
    + destruct (Z_le_dec (-42) h) as [H1|H1].
      * destruct (Z_le_dec h 40) as [H2|H2].
        -- left. exists L, h. auto.
        -- right. intros (L' & h' & E & _ & Hh). inversion E; subst. lia.
      * right. intros (L' & h' & E & _ & Hh). inversion E; subst. lia.
    + right. intros (L' & h' & E & IL & _). inversion E; subst. tauto.
  - right. intros (L' & h' & E & _). discriminate.
Qed.

Lemma _grid2img_total (grid : list (color F)) (m : Dict.t Z (string * Z)) :
  (forall c, 1 <= c <= Z.of_nat (List.length grid) ->
     exists L h, Dict.get c m = Some (L, h) /\ In L ROWS /\ -42 <= h <= 40) ->
  exists img, _grid2img grid m = Ok img.
Proof.
  intros Hvalid. unfold _grid2img.
  destruct (for_each_total_inv (_grid2img_chip grid m) shape_ok
              (range1 (List.length grid)))
    with (s := repeat (repeat (@white F _) (N_COLS + 1)) N_ROWS)
    as (img & E & _).
  - intros img c Ic Hs. apply range1_In in Ic.
    destruct (Hvalid c Ic) as (L & h & G & IL & Hh).
    apply (_grid2img_chip_valid grid m img c L h); assumption.
  - apply shape_ok_white.
  - exists img. exact E.
Qed.

Lemma _grid2img_partial (grid : list (color F)) (m : Dict.t Z (string * Z))
  (img : image F) (c : Z) :
  _grid2img grid m = Ok img ->
  1 <= c <= Z.of_nat (List.length grid) ->
  exists L h, Dict.get c m = Some (L, h) /\ In L ROWS /\ -42 <= h <= 40.
Proof.
  unfold _grid2img. intros E Hc.
  destruct (chip_valid_dec m c) as [V|NV]; [exact V|]. exfalso.
  destruct (for_each_fails_some (_grid2img_chip grid m)
              (range1 (List.length grid)) c)
    with (s := repeat (repeat (@f_one F _, @f_one F _, @f_one F _)
                              (N_COLS + 1)) N_ROWS) as [e E'].
  - apply range1_In; exact Hc.
  - apply (_grid2img_chip_invalid grid m c Hc NV).
  - congruence.
Qed.

(** X27.  [_grid2img] returns exactly when every chip from 1 to
    [len(grid)] has coordinates with a row letter among A..J and a hue
    from -42 to 40 (a negative hue counts columns from the right); the
    image it returns has 10 rows of 42 colors. *)
Theorem _grid2img_returns_iff (grid : list (color F))
  (m : Dict.t Z (string * Z)) :
  ((exists img, _grid2img grid m = Ok img)
   <-> forall c, 1 <= c <= Z.of_nat (List.length grid) ->
         exists L h, Dict.get c m = Some (L, h) /\ In L ROWS /\ -42 <= h <= 40)
  /\ (forall img, _grid2img grid m = Ok img -> shape_ok img).
Proof.
  split; [split|].
  - intros [img E] c Hc. exact (_grid2img_partial grid m img c E Hc).
  - apply _grid2img_total.
  - intros img E. unfold _grid2img in E.
    apply (for_each_invariant (_grid2img_chip grid m) shape_ok
             (range1 (List.length grid)))
      with (s := repeat (repeat (@white F _) (N_COLS + 1)) N_ROWS).
    + intros s x s' _ Hs Es. eapply _grid2img_chip_shape; eauto.
    + apply shape_ok_white.
    + exact E.
Qed.

Lemma grid_colors_add_length (data : Dict.t Z string)
  (tc : Dict.t string (color F)) (g g' : list (color F)) (i : Z) :
  grid_colors_add data tc g i = Ok g' -> List.length g' = List.length g.
Proof.
  unfold grid_colors_add, set_row. intros E.
  bind_inv E. bind_inv E. bind_inv E. inversion E; subst.
  apply length_update.
Qed.

(** X30.  Every grid that [naming2grid] returns has 330 rows, however
    few chips are named; so [_grid2img] builds the image of such a grid
    exactly when [chip_to_munsell] gives each of the chips 1 to 330
    coordinates with a row letter among A..J and a hue from -42 to 40. *)
Theorem naming2grid_then_grid2img (data : Dict.t Z string)
  (rgb : Dict.t Z (Z * Z * Z)) (grid : list (color F))
  (m : Dict.t Z (string * Z)) :
  naming2grid data rgb = Ok grid ->
  List.length grid = 330%nat
  /\ ((exists img, _grid2img grid m = Ok img)
      <-> forall c, 1 <= c <= 330 ->
            exists L h,
              Dict.get c m = Some (L, h) /\ In L ROWS /\ -42 <= h <= 40).
Proof.
  intros E. unfold naming2grid, naming2grid_over in E. bind_inv E.
  assert (List.length grid = 330%nat) as Hlen.
  { apply (for_each_invariant (grid_colors_add data x)
             (fun g => List.length g = 330%nat)
             (range1 (List.length rgb)))
      with (s := repeat (@f_zero F _, @f_zero F _, @f_zero F _) 330).
    - intros g i g' _ Hg Eg.
      rewrite (grid_colors_add_length data x g g' i Eg). exact Hg.
    - apply repeat_length.
    - exact E. }
  split; [exact Hlen|]. split.
  - intros [img Ei] c Hc. apply (_grid2img_partial grid m img c Ei).
    rewrite Hlen. exact Hc.
  - intros Hvalid. apply _grid2img_total. rewrite Hlen. exact Hvalid.
Qed.

End Image.
End ImageMoreFacts.

(** ** Examples for the tables and the readers *)

(** Distinct keys of a dictionary written out. *)
Ltac distinct_keys :=
  repeat (constructor; [simpl; intuition (discriminate || lia)|]); constructor.

Module TableExamples.
Import PyStr PySeq wcsHelper wcs_table_helper Notions Samples.
Import SortFacts RowFacts TableFacts ClabTableFacts NamingTableFacts.
Import FociTableFacts ChipDictFacts ChipTableFacts SpeakerTableFacts.

Example loadChipTables_two_chips :
  loadChipTables (two_dicts two_coords two_indices)
  = Ok (coordToIndexTable [("A0", 1); ("B1", 2)],
        indexToCoordTable [(1, ("A", 0)); (2, ("B", 1))]).
Proof. reflexivity. Qed.

Lemma readSpeakerData_then_loadSpeakerTable_witness :
  exists d,
    readSpeakerData speaker_lines = Ok d /\ loadSpeakerTable d = Err TypeError.
Proof.
  eexists. split; [reflexivity|].
  apply (SpeakerFacts.readSpeakerData_then_loadSpeakerTable speaker_lines).
  reflexivity.
Defined.

Lemma _get_sorted_keys_and_values_sorted_witness :
  total_order Z
  /\ exists ks vs,
       _get_sorted_keys_and_values two_indices = Ok (ks, vs)
       /\ Permutation ks (Dict.keys two_indices)
       /\ ascending ks
       /\ map (fun k => Dict.get k two_indices) ks = map Some vs.
Proof.
  split; [exact total_order_Z|].
  apply (_get_sorted_keys_and_values_sorted two_indices total_order_Z).
Defined.

Lemma loadChipTables_rows_witness :
  Dict.wf two_coords /\ Dict.wf two_indices /\ two_indices <> []
  /\ exists rows1 rows2,
       loadChipTables (two_dicts two_coords two_indices)
       = Ok (coordToIndexTable rows1, indexToCoordTable rows2)
       /\ loadChipTables (one_tuple two_coords two_indices)
          = Ok (coordToIndexTable rows1, indexToCoordTable rows2)
       /\ Permutation rows1 two_coords /\ ascending_rows rows1
       /\ Permutation rows2 two_indices /\ ascending_rows rows2.
Proof.
  assert (Dict.wf two_coords) as W1 by distinct_keys.
  assert (Dict.wf two_indices) as W2 by distinct_keys.
  assert (two_indices <> []) as N by discriminate.
  split; [exact W1|]. split; [exact W2|]. split; [exact N|].
  exact (loadChipTables_rows two_coords two_indices W1 W2 N).
Defined.

Lemma loadClabTable_rows_witness :
  Dict.wf two_clabs
  /\ (forall k v, In (k, v) two_clabs -> lab_of v <> None)
  /\ exists rows,
       loadClabTable two_clabs = Ok (clabTable rows) /\ ascending_rows rows.
Proof.
  assert (Dict.wf two_clabs) as W by distinct_keys.
  assert (forall k v, In (k, v) two_clabs -> lab_of v <> None) as Hall.
  { intros k v [E|[E|[]]]; inversion E; subst; discriminate. }
  split; [exact W|]. split; [exact Hall|].
  destruct (loadClabTable_rows two_clabs W Hall) as (rows & E & A & _).
  exists rows. split; assumption.
Defined.

Lemma loadClabTable_short_tuple_witness :
  Dict.get 1 short_clab = Some [FDec false 532 (-1); FDec false 801 (-1)]
  /\ lab_of [FDec false 532 (-1); FDec false 801 (-1)] = None
  /\ loadClabTable short_clab = Err IndexError.
Proof.
  split; [reflexivity|]. split; [reflexivity|].
  exact (loadClabTable_short_tuple short_clab 1 _ eq_refl eq_refl).
Defined.

Lemma wf3_one_speaker_naming : wf3 one_speaker_naming.
Proof.
  split; [distinct_keys|]. intros a ld [E|[]]. inversion E; subst.
  split; [distinct_keys|]. intros b sd [E'|[]]. inversion E'; subst.
  distinct_keys.
Qed.

Lemma loadNamingTable_rows_witness :
  wf3 one_speaker_naming
  /\ loadNamingTable one_speaker_naming
     = Ok (namingTable [(1, 1, 1, "blue"); (1, 1, 2, "green")]).
Proof.
  split; [exact wf3_one_speaker_naming|].
  exact (loadNamingTable_rows one_speaker_naming wf3_one_speaker_naming).
Defined.

Lemma readNamingData_then_loadNamingTable_witness :
  readNamingData naming_lines = Ok one_speaker_naming
  /\ exists recs rows,
       map naming_fields (_read_lines naming_lines) = map Some recs
       /\ loadNamingTable one_speaker_naming = Ok (namingTable rows)
       /\ NoDup (map fst rows)
       /\ forall k t, In (k, t) rows <-> last_binding recs k t.
Proof.
  split; [reflexivity|].
  exact (readNamingData_then_loadNamingTable naming_lines one_speaker_naming
           eq_refl).
Defined.

Lemma foci_wf_two_languages : foci_wf two_languages_foci.
Proof.
  split; [distinct_keys|].
  intros a ld [E|[E|[]]]; inversion E; subst;
    (split; [distinct_keys|]); intros b sd [E'|[]]; inversion E'; subst;
    distinct_keys.
Qed.

Lemma loadFociTable_rows_witness :
  foci_wf two_languages_foci
  /\ loadFociTable two_languages_foci
     = Ok (fociTable [(1, 1, "bu", "G:29"); (1, 1, "bu", "J:0");
                      (2, 1, "wa", "A:0")]).
Proof.
  split; [exact foci_wf_two_languages|].
  exact (loadFociTable_rows two_languages_foci foci_wf_two_languages).
Defined.

Lemma readFociData_then_loadFociTable_witness :
  readFociData foci_lines = Ok two_languages_foci
  /\ exists recs rows,
       map foci_fields (_read_lines foci_lines) = map Some recs
       /\ loadFociTable two_languages_foci = Ok (fociTable rows)
       /\ Permutation rows (map stored_row recs)
       /\ List.length rows = List.length (_read_lines foci_lines).
Proof.
  split; [reflexivity|].
  exact (readFociData_then_loadFociTable foci_lines two_languages_foci eq_refl).
Defined.

Lemma readChipData_last_row_wins_witness :
  exists cd,
    readChipData_lines chip_one_twice = Ok cd
    /\ exists rgbs clabs,
         map rgb_fields chip_one_twice = map Some rgbs
         /\ map clab_fields chip_one_twice = map Some clabs
         /\ (forall i v, Dict.get i (chip_to_rgb cd) = Some v
                         <-> last_value rgbs i v)
         /\ (forall i v, Dict.get i (chip_to_clab cd) = Some v
                         <-> last_value clabs i v).
Proof.
  eexists. split; [reflexivity|].
  destruct (readChipData_last_row_wins chip_one_twice _ eq_refl)
    as (rgbs & clabs & Hr & Hc & _ & Lr & Lc & _).
  exists rgbs, clabs. auto.
Defined.

Lemma chip_getters_agree_witness :
  exists cd,
    readChipData (unlines two_chips) = Ok cd
    /\ get_chip_to_rgb (a_filename (unlines two_chips)) = Ok (chip_to_rgb cd)
    /\ get_chip_to_munsell (a_filename (unlines two_chips))
       = Ok (chip_to_munsell cd).
Proof.
  eexists. split; [reflexivity|].
  destruct (chip_getters_agree (unlines two_chips) _ eq_refl) as (E1 & E2 & _).
  split; assumption.
Defined.

Lemma readChipData_then_loadChipTables_witness :
  exists cd,
    readChipData (unlines two_chips) = Ok cd
    /\ exists rows1 rows2,
         loadChipTables (one_tuple (munsell_to_chip cd) (chip_to_munsell cd))
         = Ok (coordToIndexTable rows1, indexToCoordTable rows2)
         /\ rows2 <> [].
Proof.
  eexists. split; [reflexivity|].
  destruct (readChipData_then_loadChipTables (unlines two_chips) _ eq_refl)
    as (rows1 & rows2 & E & _ & _ & _ & _ & N).
  exists rows1, rows2. split; assumption.
Defined.

Lemma readChipData_then_loadClabTable_witness :
  exists cd,
    readChipData_lines two_chips = Ok cd
    /\ (forall row, In row two_chips -> (7 <= List.length (split tab row))%nat)
    /\ exists rows,
         loadClabTable (chip_to_clab cd) = Ok (clabTable rows)
         /\ ascending_rows rows.
Proof.
  eexists. split; [reflexivity|].
  assert (forall row, In row two_chips -> (7 <= List.length (split tab row))%nat)
    as Hall.
  { intros row [<-|[<-|[]]]; vm_compute; lia. }
  split; [exact Hall|].
  destruct (proj1 (readChipData_then_loadClabTable two_chips _ eq_refl) Hall)
    as (rows & E & A & _).
  exists rows. split; assumption.
Defined.

(** A chip file of three-field rows is read, and the table of its CIELAB
    dictionary cannot be built. *)
Example readChipData_three_fields_no_clab_table :
  exists cd,
    readChipData_lines [tsv ["1"; "2"; "3"]] = Ok cd
    /\ loadClabTable (chip_to_clab cd) = Err IndexError.
Proof. eexists. split; reflexivity. Qed.

Lemma speaker_wf_listed : speaker_wf listed_speakers.
Proof.
  split; [distinct_keys|]. intros a ld [E|[]]. inversion E; subst.
  distinct_keys.
Qed.

Lemma loadSpeakerTable_returns_iff_witness :
  speaker_wf listed_speakers
  /\ loadSpeakerTable listed_speakers
     = Ok (speakerTable [(1, 1, (PInt 30, PStr "M"));
                         (1, 2, (PInt 41, PStr "F"))]).
Proof.
  split; [exact speaker_wf_listed|].
  apply (proj2 (loadSpeakerTable_returns_iff listed_speakers speaker_wf_listed)).
  eexists. reflexivity.
Defined.

End TableExamples.

Module ReaderExamples.
Import PyStr PySeq wcsHelper Notions Samples ReaderFacts.

(** An empty focus field on a line that is not the last one (at the end
    of the file the tab before it is stripped, and the line has four
    fields). *)
Example readFociData_empty_focus :
  readFociData (unlines [tsv ["1"; "1"; "3"; "bu"; ""];
                         tsv ["1"; "1"; "3"; "bu"; "G29"]]) = Err IndexError
  /\ readFociData (tsv ["1"; "1"; "3"; "bu"; ""]) = Err ValueError.
Proof. split; reflexivity. Qed.

Example readSpeakerData_last_line :
  readSpeakerData speaker_lines
  = Ok [(1, [(1, PTuple [PInt 31; PStr "M"]); (2, PTuple [PInt 41; PStr "F"])])].
Proof. reflexivity. Qed.

Lemma _read_lines_trailing_whitespace_witness :
  let ws := String " " (String newline (String newline EmptyString)) in
  (forall c, In c (list_ascii_of_string ws) -> is_space c = true)
  /\ _read_lines (naming_lines ++ ws) = _read_lines naming_lines.
Proof.
  intros ws.
  assert (forall c, In c (list_ascii_of_string ws) -> is_space c = true) as Hall.
  { intros c [<-|[<-|[<-|[]]]]; reflexivity. }
  split; [exact Hall|].
  exact (_read_lines_trailing_whitespace naming_lines ws Hall).
Defined.

Lemma readers_blank_file_witness :
  let text := String newline (String " " (String tab EmptyString)) in
  (forall c, In c (list_ascii_of_string text) -> is_space c = true)
  /\ readChipData text = Err ValueError
  /\ readNamingData text = Err ValueError
  /\ readFociData text = Err ValueError
  /\ readSpeakerData text = Err ValueError.
Proof.
  intros text.
  assert (forall c, In c (list_ascii_of_string text) -> is_space c = true)
    as Hall.
  { intros c [<-|[<-|[<-|[]]]]; reflexivity. }
  split; [exact Hall|].
  exact (proj2 (readers_blank_file text Hall)).
Defined.

End ReaderExamples.

Module ModeMapExamples.
Import PySeq wcsHelper Notions Samples ModeMapMoreFacts.

Lemma makeModeMap_chips_witness :
  makeModeMap (without_lang three_speakers) = Ok [(1, "b"); (2, "b"); (3, "c")]
  /\ Dict.wf [(1, "b"); (2, "b"); (3, "c")]
  /\ (forall chip t,
        Dict.get chip [(1, "b"); (2, "b"); (3, "c")] = Some t ->
        exists s sd, In (s, sd) three_speakers /\ In (chip, t) sd).
Proof.
  split; [reflexivity|].
  destruct (makeModeMap_chips three_speakers [(1, "b"); (2, "b"); (3, "c")]
              eq_refl) as (W & _ & Hterm).
  split; assumption.
Defined.

Lemma findMode_majority_witness :
  (List.length ["b"; "a"; "b"] < 2 * count_occ string_dec ["b"; "a"; "b"] "b")%nat
  /\ findMode ["b"; "a"; "b"] = Ok "b".
Proof.
  assert (List.length ["b"; "a"; "b"]
          < 2 * count_occ string_dec ["b"; "a"; "b"] "b")%nat as Hmaj.
  { vm_compute. lia. }
  split; [exact Hmaj|]. exact (findMode_majority _ _ Hmaj).
Defined.

End ModeMapExamples.

Module GridMoreExamples.
Import PySeq wcsHelper Notions Samples GridMoreFacts.

Lemma naming2grid_missing_rgb_witness :
  Dict.keys two_terms = range1 2
  /\ In 2 (Dict.keys two_terms)
  /\ ~ In 2 (Dict.keys [(1, (255, 0, 0))])
  /\ @naming2grid Q _ two_terms [(1, (255, 0, 0))] = Err KeyError.
Proof.
  assert (In 2 (Dict.keys two_terms)) as I by (simpl; auto).
  assert (~ In 2 (Dict.keys [(1, (255, 0, 0))])) as N.
  { simpl. intros [E|[]]. discriminate E. }
  split; [reflexivity|]. split; [exact I|]. split; [exact N|].
  exact (@naming2grid_missing_rgb Q _ two_terms [(1, (255, 0, 0))] 2 2
           eq_refl I N).
Defined.

Lemma naming2grid_set_order_witness :
  (forall t, In t ["green"; "red"] <-> In t (Dict.values two_terms))
  /\ @naming2grid_over Q _ ["green"; "red"] two_terms two_rgbs
     = naming2grid two_terms two_rgbs.
Proof.
  assert (forall t, In t ["green"; "red"] <-> In t (Dict.values two_terms))
    as Hsame by (intros t; simpl; tauto).
  split; [exact Hsame|].
  exact (@SetOrderFacts.naming2grid_set_order Q _ _ two_terms two_rgbs Hsame).
Defined.

Lemma naming2grid_too_many_chips_witness :
  Dict.keys named_331 = range1 331
  /\ List.length rgbs_331 = 331%nat
  /\ (forall c, 1 <= c <= Z.of_nat 331 -> In c (Dict.keys rgbs_331))
  /\ (330 < 331)%nat
  /\ @naming2grid Q _ named_331 rgbs_331 = Err IndexError.
Proof.
  assert (Dict.keys named_331 = range1 331) as Hk.
  { unfold named_331, Dict.keys. rewrite map_map. apply map_id. }
  assert (List.length rgbs_331 = 331%nat) as Hl.
  { unfold rgbs_331, range1. rewrite !length_map. apply length_seq. }
  assert (forall c, 1 <= c <= Z.of_nat 331 -> In c (Dict.keys rgbs_331)) as Hc.
  { intros c R. unfold rgbs_331, Dict.keys. rewrite map_map. simpl fst.
    rewrite map_id. unfold range1. apply in_map_iff.
    exists (Z.to_nat c). split; [lia|]. apply in_seq. lia. }
  assert (330 < 331)%nat as HN by lia.
  split; [exact Hk|]. split; [exact Hl|]. split; [exact Hc|]. split; [exact HN|].
  exact (@MissingChipFacts.naming2grid_too_many_chips Q _ named_331 rgbs_331 331
           Hk Hl Hc HN).
Defined.

End GridMoreExamples.

Module ImageMoreExamples.
Import PySeq wcsHelper Notions Samples ImageMoreFacts.

Lemma naming2grid_then_grid2img_witness :
  exists grid,
    @naming2grid Q _ two_terms two_rgbs = Ok grid
    /\ List.length grid = 330%nat
    /\ ~ exists img, _grid2img grid [(1, ("A", 0)); (2, ("B", 3))] = Ok img.
Proof.
  eexists. split; [vm_compute; reflexivity|].
  match goal with
  | |- List.length ?g = _ /\ _ =>
      destruct (@naming2grid_then_grid2img Q _ two_terms two_rgbs g
                  [(1, ("A", 0)); (2, ("B", 3))]) as [Hlen Hiff];
        [vm_compute; reflexivity|]
  end.
  split; [exact Hlen|]. intros Himg.
  destruct (proj1 Hiff Himg 3 ltac:(lia)) as (L & h & G & _).
  discriminate G.
Defined.

Example _grid2img_hue_minus_43 :
  @_grid2img Q _ [grey] [(1, ("A", -43))] = Err IndexError.
Proof. reflexivity. Qed.

End ImageMoreExamples.
